(** * pcap-stats: the index arena (DoubleChain) and the keyed flow tracker

    A shallow embedding of the classes [DoubleChain] and [FlowTracker].

    - [u64] values are modelled in [N], with the wrap-around of every
      addition and subtraction written out ([u64_add], [u64_sub]);
    - [time_ns_t] is [i64], modelled in [Z]; a signed subtraction that leaves
      the range of [i64] is undefined behaviour and is reported as a fault;
    - [std::vector] is a [list]; [operator[]] outside the vector is undefined
      behaviour and is reported as the fault [OutOfBounds];
    - a reference into a vector ([dchain_cell_t &x = cells[i]]) is an alias:
      every assignment through it is one field update of the shared store;
    - an out parameter ([u64 &index_out]) is threaded: its value before the
      call is an argument, its value after the call is part of the result;
    - [std::unordered_map<flow_t, u64>] is a [gmap flow_t N]. *)

From stdpp Require Import base numbers option list gmap sorting.

(** ** Machine integers *)

Definition U64_MOD : N := (2 ^ 64)%N.
Definition u64_add (a b : N) : N := ((a + b) mod U64_MOD)%N.
Definition u64_sub (a b : N) : N := ((a + U64_MOD - b mod U64_MOD) mod U64_MOD)%N.

Definition I64_MIN : Z := (- 2 ^ 63)%Z.
Definition I64_MAX : Z := (2 ^ 63 - 1)%Z.

(** ** Faults and the result monad *)

Inductive fault : Type :=
  | OutOfBounds (i : N) (len : nat)   (* vector subscript outside the vector *)
  | SignedOverflow                    (* i64 arithmetic leaving the range *)
  | AssertionFailed                   (* assert(...) *)
  | Panic                             (* panic(...) aborts the process *)
  | OutOfFuel.                        (* the model of a loop ran out of steps *)

Inductive result (A : Type) : Type :=
  | Ok (a : A)
  | Err (f : fault).
Arguments Ok {A} a.
Arguments Err {A} f.

Global Instance result_ret : MRet result := λ A a, Ok a.
Global Instance result_bind : MBind result := λ A B k r,
  match r with
  | Ok a => k a
  | Err f => Err f
  end.

Definition i64_sub (a b : Z) : result Z :=
  let r := (a - b)%Z in
  if bool_decide (I64_MIN ≤ r ∧ r ≤ I64_MAX)%Z then Ok r else Err SignedOverflow.

(** ** The cells and the arena *)

Record dchain_cell_t : Type := { prev : N; next : N }.

Record DoubleChain : Type := {
  cells : list dchain_cell_t;
  timestamps : list Z
}.

Definition DCHAIN_RESERVED : N := 2%N.
Definition EXPIRATION_TIME_NS : Z := 1000000000%Z.
Definition ALLOC_LIST_HEAD : N := 0%N.
Definition FREE_LIST_HEAD : N := 1%N.
Definition INDEX_SHIFT : N := DCHAIN_RESERVED.

(** [v[i]]: the subscript is checked, outside the vector it is a fault. *)
Definition at_ {A} (v : list A) (i : N) : result A :=
  match v !! N.to_nat i with
  | Some x => Ok x
  | None => Err (OutOfBounds i (length v))
  end.

(** [v[i] = x]. *)
Definition store {A} (i : N) (x : A) (v : list A) : result (list A) :=
  _ ← at_ v i ; Ok (<[N.to_nat i := x]> v).

Definition with_next (v : N) (cl : dchain_cell_t) : dchain_cell_t :=
  {| prev := prev cl; next := v |}.
Definition with_prev (v : N) (cl : dchain_cell_t) : dchain_cell_t :=
  {| prev := v; next := next cl |}.

(** Reads and writes of one field of [cells[i]]. *)
Definition get_next (c : list dchain_cell_t) (i : N) : result N :=
  cl ← at_ c i ; Ok (next cl).
Definition get_prev (c : list dchain_cell_t) (i : N) : result N :=
  cl ← at_ c i ; Ok (prev cl).
Definition set_next (i v : N) (c : list dchain_cell_t) : result (list dchain_cell_t) :=
  _ ← at_ c i ; Ok (alter (with_next v) (N.to_nat i) c).
Definition set_prev (i v : N) (c : list dchain_cell_t) : result (list dchain_cell_t) :=
  _ ← at_ c i ; Ok (alter (with_prev v) (N.to_nat i) c).

(** *** DoubleChain::DoubleChain *)

(** The [while] loop of the constructor; [fuel] bounds the number of tests
    of the loop condition. *)
Fixpoint ctor_loop (fuel : nat) (index_range i : N) (c : list dchain_cell_t)
  : result (N * list dchain_cell_t) :=
  match fuel with
  | O => Err OutOfFuel
  | S fuel' =>
      if (i <? u64_sub (u64_add index_range INDEX_SHIFT) 1)%N then
        c ← set_next i (u64_add i 1) c ;
        v ← get_next c i ;
        c ← set_prev i v c ;
        ctor_loop fuel' index_range (u64_add i 1) c
      else Ok (i, c)
  end.

Definition zero_cell : dchain_cell_t := {| prev := 0%N; next := 0%N |}.

Definition DoubleChain_ctor (index_range : N) : result DoubleChain :=
  let c := replicate (N.to_nat (u64_add index_range DCHAIN_RESERVED)) zero_cell in
  let ts := replicate (N.to_nat index_range) 0%Z in
  c ← set_prev ALLOC_LIST_HEAD 0%N c ;
  c ← set_next ALLOC_LIST_HEAD 0%N c ;
  let i := INDEX_SHIFT in
  c ← set_next FREE_LIST_HEAD i c ;
  v ← get_next c FREE_LIST_HEAD ;
  c ← set_prev FREE_LIST_HEAD v c ;
  '(i, c) ← ctor_loop (S (N.to_nat index_range)) index_range i c ;
  c ← set_next i FREE_LIST_HEAD c ;
  v ← get_next c i ;
  c ← set_prev i v c ;
  Ok {| cells := c; timestamps := ts |}.

(** *** DoubleChain::allocate_new_index *)

Definition allocate_new_index (time : Z) (index_out : N) (d : DoubleChain)
  : result (bool * N * DoubleChain) :=
  let c := cells d in
  _ ← at_ c FREE_LIST_HEAD ;
  _ ← at_ c ALLOC_LIST_HEAD ;
  allocated ← get_next c FREE_LIST_HEAD ;
  if (allocated =? FREE_LIST_HEAD)%N then Ok (false, index_out, d)
  else
    _ ← at_ c allocated ;
    (* Extract the link from the "empty" chain. *)
    v ← get_next c allocated ;
    c ← set_next FREE_LIST_HEAD v c ;
    v ← get_next c FREE_LIST_HEAD ;
    c ← set_prev FREE_LIST_HEAD v c ;
    (* Add the link to the "new"-end "alloc" chain. *)
    c ← set_next allocated ALLOC_LIST_HEAD c ;
    v ← get_prev c ALLOC_LIST_HEAD ;
    c ← set_prev allocated v c ;
    al_head_prev ← get_prev c ALLOC_LIST_HEAD ;
    _ ← at_ c al_head_prev ;
    c ← set_next al_head_prev allocated c ;
    c ← set_prev ALLOC_LIST_HEAD allocated c ;
    let index_out := u64_sub allocated INDEX_SHIFT in
    ts ← store index_out time (timestamps d) ;
    Ok (true, index_out, {| cells := c; timestamps := ts |}).

(** *** DoubleChain::rejuvenate_index *)

Definition rejuvenate_index (index : N) (time : Z) (d : DoubleChain)
  : result (bool * DoubleChain) :=
  let c := cells d in
  let lifted := u64_add index INDEX_SHIFT in
  _ ← at_ c lifted ;
  lifted_next ← get_next c lifted ;
  lifted_prev ← get_prev c lifted ;
  (* The index is not allocated. *)
  if (lifted_next =? lifted_prev)%N then
    if negb (lifted_next =? ALLOC_LIST_HEAD)%N then Ok (false, d)
    else
      (* There is only one element allocated - no point in changing anything *)
      Ok (true, d)
  else
    _ ← at_ c lifted_prev ;
    c ← set_next lifted_prev lifted_next c ;
    _ ← at_ c lifted_next ;
    c ← set_prev lifted_next lifted_prev c ;
    _ ← at_ c ALLOC_LIST_HEAD ;
    al_head_prev ← get_prev c ALLOC_LIST_HEAD ;
    (* Link it at the very end - right before the special link. *)
    c ← set_next lifted ALLOC_LIST_HEAD c ;
    c ← set_prev lifted al_head_prev c ;
    _ ← at_ c al_head_prev ;
    c ← set_next al_head_prev lifted c ;
    c ← set_prev ALLOC_LIST_HEAD lifted c ;
    ts ← store index time (timestamps d) ;
    Ok (true, {| cells := c; timestamps := ts |}).

(** *** DoubleChain::is_index_allocated *)

Definition is_index_allocated (index : N) (d : DoubleChain) : result bool :=
  let c := cells d in
  let lifted := u64_add index INDEX_SHIFT in
  _ ← at_ c lifted ;
  lifted_next ← get_next c lifted ;
  lifted_prev ← get_prev c lifted ;
  if (lifted_next =? lifted_prev)%N then
    if negb (lifted_next =? ALLOC_LIST_HEAD)%N then Ok false else Ok true
  else Ok true.

(** *** DoubleChain::free_index *)

Definition free_index (index : N) (d : DoubleChain) : result (bool * DoubleChain) :=
  let c := cells d in
  let freed := u64_add index INDEX_SHIFT in
  _ ← at_ c freed ;
  freed_prev ← get_prev c freed ;
  freed_next ← get_next c freed ;
  (* The index is already free. *)
  (* nested in the source: if (freed_next == freed_prev)
                             if (freed_prev != ALLOC_LIST_HEAD) return false; *)
  if (freed_next =? freed_prev)%N && negb (freed_prev =? ALLOC_LIST_HEAD)%N
  then Ok (false, d)
  else
    _ ← at_ c FREE_LIST_HEAD ;
    (* Extract the link from the "alloc" chain. *)
    _ ← at_ c freed_prev ;
    c ← set_next freed_prev freed_next c ;
    _ ← at_ c freed_next ;
    c ← set_prev freed_next freed_prev c ;
    (* Add the link to the "free" chain. *)
    v ← get_next c FREE_LIST_HEAD ;
    c ← set_next freed v c ;
    v ← get_next c freed ;
    c ← set_prev freed v c ;
    c ← set_next FREE_LIST_HEAD freed c ;
    v ← get_next c FREE_LIST_HEAD ;
    c ← set_prev FREE_LIST_HEAD v c ;
    Ok (true, {| cells := c; timestamps := timestamps d |}).

(** *** DoubleChain::get_oldest_index *)

Definition get_oldest_index (index_out : N) (d : DoubleChain) : result (bool * N) :=
  let c := cells d in
  _ ← at_ c ALLOC_LIST_HEAD ;
  al_head_next ← get_next c ALLOC_LIST_HEAD ;
  (* No allocated indexes. *)
  if (al_head_next =? ALLOC_LIST_HEAD)%N then Ok (false, index_out)
  else Ok (true, u64_sub al_head_next INDEX_SHIFT).

(** *** DoubleChain::expire_one_index *)

Definition expire_one_index (time : Z) (index_out : N) (d : DoubleChain)
  : result (bool * N * DoubleChain) :=
  '(has_ind, index_out) ← get_oldest_index index_out d ;
  if has_ind : bool then
    ts ← at_ (timestamps d) index_out ;
    threshold ← i64_sub time EXPIRATION_TIME_NS ;
    if bool_decide (ts < threshold)%Z then
      '(r, d) ← free_index index_out d ;
      Ok (r, index_out, d)
    else Ok (false, index_out, d)
  else Ok (false, index_out, d).

(** ** The keyed tracker *)

Inductive FlowType : Type := FiveTuple.

Record flow_t : Type := {
  type : FlowType;
  src_ip : N;
  dst_ip : N;
  src_port : N;
  dst_port : N
}.

(** [flow_t::flow_t()] *)
Definition flow_default : flow_t :=
  {| type := FiveTuple; src_ip := 0; dst_ip := 0; src_port := 0; dst_port := 0 |}.

Global Instance FlowType_eq_dec : EqDecision FlowType.
Proof. solve_decision. Defined.
Global Instance flow_t_eq_dec : EqDecision flow_t.
Proof. solve_decision. Defined.
Global Instance flow_t_countable : Countable flow_t.
Proof.
  refine (inj_countable'
    (λ f, (src_ip f, dst_ip f, src_port f, dst_port f))
    (λ p, let '(a, b, c, d) := p in
          {| type := FiveTuple; src_ip := a; dst_ip := b;
             src_port := c; dst_port := d |}) _).
  by intros [[] ? ? ? ?].
Defined.

Record FlowTracker : Type := {
  double_chain : DoubleChain;
  flow_to_index : gmap flow_t N;
  index_to_flow : list flow_t
}.

(** [FlowTracker::FlowTracker] *)
Definition FlowTracker_ctor (capacity : N) : result FlowTracker :=
  dc ← DoubleChain_ctor capacity ;
  Ok {| double_chain := dc;
        flow_to_index := ∅;
        index_to_flow := replicate (N.to_nat capacity) flow_default |}.

(** [FlowTracker::has_flow] *)
Definition has_flow (flow : flow_t) (ft : FlowTracker) : bool :=
  bool_decide (is_Some (flow_to_index ft !! flow)).

(** [FlowTracker::add_flow]. The local [index_out] is not initialised in the
    source; it is read only after [allocate_new_index] has written it, and
    starts at [0] here. *)
Definition add_flow (flow : flow_t) (now : Z) (ft : FlowTracker) : result FlowTracker :=
  if has_flow flow ft then Ok ft
  else
    '(ok, index_out, dc) ← allocate_new_index now 0%N (double_chain ft) ;
    if negb ok then Err Panic
    else if negb (bool_decide (N.to_nat index_out < length (index_to_flow ft)))
    then Err AssertionFailed
    else
      itf ← store index_out flow (index_to_flow ft) ;
      Ok {| double_chain := dc;
            flow_to_index := <[flow := index_out]> (flow_to_index ft);
            index_to_flow := itf |}.

(** The [while] loop of [FlowTracker::expire_flows]; [fuel] bounds the number
    of calls of [expire_one_index]. *)
Fixpoint expire_loop (fuel : nat) (now : Z) (expired_count index_out : N)
    (ft : FlowTracker) : result (N * FlowTracker) :=
  match fuel with
  | O => Err OutOfFuel
  | S fuel' =>
      '(r, index_out, dc) ← expire_one_index now index_out (double_chain ft) ;
      if r : bool then
        if negb (bool_decide (N.to_nat index_out < length (index_to_flow ft)))
        then Err AssertionFailed
        else
          flow ← at_ (index_to_flow ft) index_out ;
          let ft := {| double_chain := dc;
                       flow_to_index := delete flow (flow_to_index ft);
                       index_to_flow := index_to_flow ft |} in
          expire_loop fuel' now (u64_add expired_count 1) index_out ft
      else
        Ok (expired_count,
            {| double_chain := dc;
               flow_to_index := flow_to_index ft;
               index_to_flow := index_to_flow ft |})
  end.

(** [FlowTracker::expire_flows]. Every successful [expire_one_index] frees a
    slot, so the loop tests its condition at most [capacity + 1] times. *)
Definition expire_flows (now : Z) (ft : FlowTracker) : result (N * FlowTracker) :=
  expire_loop (S (length (index_to_flow ft))) now 0%N 0%N ft.

(** ** Runs of operations

    The callers of the arena and of the tracker, as sequences of calls. A
    local [index_out] of a caller starts at [0]. *)

Inductive arena_op : Type :=
  | OpAllocate (now : Z)
  | OpTouch (slot : N) (now : Z)
  | OpFree (slot : N)
  | OpExpireOne (now : Z).

Definition run_op (op : arena_op) (d : DoubleChain) : result DoubleChain :=
  match op with
  | OpAllocate now => '(_, _, d) ← allocate_new_index now 0%N d ; Ok d
  | OpTouch slot now => '(_, d) ← rejuvenate_index slot now d ; Ok d
  | OpFree slot => '(_, d) ← free_index slot d ; Ok d
  | OpExpireOne now => '(_, _, d) ← expire_one_index now 0%N d ; Ok d
  end.

Fixpoint run_ops (ops : list arena_op) (d : DoubleChain) : result DoubleChain :=
  match ops with
  | [] => Ok d
  | op :: ops => d ← run_op op d ; run_ops ops d
  end.

(** The slot passed to an operation is a slot id of the arena. *)
Definition op_slot_ok (n : N) (op : arena_op) : Prop :=
  match op with
  | OpTouch slot _ | OpFree slot => (slot < n)%N
  | _ => True
  end.

(** The arenas a caller can hold: built by the constructor with a capacity
    whose cells fit a vector, then driven by calls on slot ids. *)
Definition reachable (n : N) (d : DoubleChain) : Prop :=
  (1 ≤ n)%N ∧ (n + 2 < U64_MOD)%N ∧
  ∃ ops d0, Forall (op_slot_ok n) ops ∧
            DoubleChain_ctor n = Ok d0 ∧ run_ops ops d0 = Ok d.

(** One [allocate_new_index] per element of [times]; the results in order. *)
Fixpoint allocate_many (times : list Z) (d : DoubleChain)
  : result (list (bool * N) * DoubleChain) :=
  match times with
  | [] => Ok ([], d)
  | t :: times =>
      '(ok, i, d) ← allocate_new_index t 0%N d ;
      '(rs, d) ← allocate_many times d ;
      Ok ((ok, i) :: rs, d)
  end.

Inductive tracker_op : Type :=
  | OpAddFlow (flow : flow_t) (now : Z)
  | OpExpireFlows (now : Z).

Definition run_tracker_op (op : tracker_op) (ft : FlowTracker) : result FlowTracker :=
  match op with
  | OpAddFlow flow now => add_flow flow now ft
  | OpExpireFlows now => '(_, ft) ← expire_flows now ft ; Ok ft
  end.

Fixpoint run_tracker_ops (ops : list tracker_op) (ft : FlowTracker) : result FlowTracker :=
  match ops with
  | [] => Ok ft
  | op :: ops => ft ← run_tracker_op op ft ; run_tracker_ops ops ft
  end.

Definition tracker_reachable (n : N) (ft : FlowTracker) : Prop :=
  (1 ≤ n)%N ∧ (n + 2 < U64_MOD)%N ∧
  ∃ ops ft0, FlowTracker_ctor n = Ok ft0 ∧ run_tracker_ops ops ft0 = Ok ft.

(** ** The two lists, read off the cells

    The cells met when following [next] from a list head until the head
    comes back. [fuel] bounds the number of cells visited. *)
Fixpoint walk (fuel : nat) (c : list dchain_cell_t) (head cur : N) : option (list N) :=
  if (cur =? head)%N then Some []
  else
    match fuel with
    | O => None
    | S fuel' =>
        match c !! N.to_nat cur with
        | Some cl =>
            match walk fuel' c head (next cl) with
            | Some l => Some (cur :: l)
            | None => None
            end
        | None => None
        end
    end.

Definition list_from (head : N) (d : DoubleChain) : option (list N) :=
  match cells d !! N.to_nat head with
  | Some cl => walk (length (cells d)) (cells d) head (next cl)
  | None => None
  end.

(** The occupied list, oldest first, and the free list, next to be
    allocated first: the cells of the slots in them. *)
Definition occupied_list (d : DoubleChain) : option (list N) := list_from ALLOC_LIST_HEAD d.
Definition free_list (d : DoubleChain) : option (list N) := list_from FREE_LIST_HEAD d.

(** ** Concrete arenas and trackers

    Small runs of the code, used as examples below. *)

Definition ok_or {A} (dflt : A) (r : result A) : A :=
  match r with Ok a => a | Err _ => dflt end.

Definition no_arena : DoubleChain := {| cells := []; timestamps := [] |}.

(** A fresh arena of capacity 3, and of capacity 1. *)
Definition arena3 : DoubleChain := Eval vm_compute in ok_or no_arena (DoubleChain_ctor 3).
Definition arena1 : DoubleChain := Eval vm_compute in ok_or no_arena (DoubleChain_ctor 1).

(** Capacity 1 with its slot allocated at time 0. *)
Definition arena1_full : DoubleChain :=
  Eval vm_compute in ok_or no_arena (run_ops [OpAllocate 0] arena1).

(** Capacity 3 with the slots 0, 1, 2 allocated at the times 0, 1, 2. *)
Definition arena3_full : DoubleChain :=
  Eval vm_compute in
    ok_or no_arena (run_ops [OpAllocate 0; OpAllocate 1; OpAllocate 2] arena3).

(** ... and then slot 1 freed. *)
Definition arena3_freed : DoubleChain :=
  Eval vm_compute in ok_or no_arena (run_ops [OpFree 1] arena3_full).

Definition demo_ops : list arena_op :=
  [OpAllocate 0; OpAllocate 1; OpAllocate 2; OpTouch 0 3; OpFree 1;
   OpExpireOne 2000000001].
Definition arena3_demo : DoubleChain :=
  Eval vm_compute in ok_or no_arena (run_ops demo_ops arena3).

Definition demo_flow : flow_t :=
  {| type := FiveTuple; src_ip := 167772161; dst_ip := 167772162;
     src_port := 1234; dst_port := 80 |}.
Definition tracker1 : FlowTracker :=
  {| double_chain := arena1; flow_to_index := ∅; index_to_flow := [flow_default] |}.
Definition tracker1_flow : FlowTracker :=
  {| double_chain := arena1_full;
     flow_to_index := {[ demo_flow := 0%N ]};
     index_to_flow := [demo_flow] |}.

(** ** Expired slots

    The test of [expire_one_index] on the timestamp of a slot. *)
Definition slot_expired (d : DoubleChain) (now : Z) (s : N) : Prop :=
  ∃ t, timestamps d !! N.to_nat s = Some t ∧ (t < now - EXPIRATION_TIME_NS)%Z.

(** * The rest of the program

    The clock of the epochs, the flow keys, the histograms, the statistics
    fed packet by packet and the report made of them, the reader of the
    captured packets and the loop of [main]. Each component is a module, so
    that the fields keep the names of the source. *)

Definition i64_add (a b : Z) : result Z :=
  let r := (a + b)%Z in
  if bool_decide (I64_MIN ≤ r ∧ r ≤ I64_MAX)%Z then Ok r else Err SignedOverflow.

(** ** simulator_clock_t *)

Module Clock.

Record simulator_clock_t : Type := {
  epoch_duration : Z;
  on : bool;
  alarm : Z
}.

(** [simulator_clock_t::simulator_clock_t] *)
Definition ctor (_epoch_duration : Z) : simulator_clock_t :=
  {| epoch_duration := _epoch_duration; on := false; alarm := 0 |}.

(** [simulator_clock_t::tick] *)
Definition tick (now : Z) (c : simulator_clock_t) : result (bool * simulator_clock_t) :=
  if negb (on c) then
    a ← i64_add now (epoch_duration c) ;
    Ok (false, {| epoch_duration := epoch_duration c; on := true; alarm := a |})
  else if bool_decide (alarm c ≤ now)%Z then
    a ← i64_add now (epoch_duration c) ;
    Ok (true, {| epoch_duration := epoch_duration c; on := on c; alarm := a |})
  else Ok (false, c).

(** One [tick] per time, in order; the alarms sounded. *)
Fixpoint ticks (times : list Z) (c : simulator_clock_t)
  : result (list bool * simulator_clock_t) :=
  match times with
  | [] => Ok ([], c)
  | now :: times =>
      '(b, c) ← tick now c ;
      '(bs, c) ← ticks times c ;
      Ok (b :: bs, c)
  end.

End Clock.

(** ** flow_t and sflow_t *)

(** [flow_t::invert]; its [assert(type == FlowType::FiveTuple)] holds for the
    one value of [FlowType]. *)
Definition invert (flow : flow_t) : flow_t :=
  match type flow with
  | FiveTuple =>
      {| type := FiveTuple;
         src_ip := dst_ip flow; dst_ip := src_ip flow;
         src_port := dst_port flow; dst_port := src_port flow |}
  end.

(** [flow_t::operator==] *)
Definition flow_eq (a b : flow_t) : bool :=
  if negb (bool_decide (type a = type b)) then false
  else
    match type a with
    | FiveTuple =>
        (src_ip a =? src_ip b)%N && (dst_ip a =? dst_ip b)%N &&
        (src_port a =? src_port b)%N && (dst_port a =? dst_port b)%N
    end.

(** [flow_t::flow_hash_t::operator()], over [std::hash<u32>] and
    [std::hash<u16>], which the standard library leaves open. *)
Definition flow_hash (hash_u32 hash_u16 : N → N) (flow : flow_t) : N :=
  match type flow with
  | FiveTuple =>
      let hash := hash_u32 (src_ip flow) in
      let hash := N.lxor hash (hash_u32 (dst_ip flow)) in
      let hash := N.lxor hash (hash_u16 (src_port flow)) in
      N.lxor hash (hash_u16 (dst_port flow))
  end.

Module Sflow.

Local Abbreviation flow_src_ip := src_ip.
Local Abbreviation flow_dst_ip := dst_ip.
Local Abbreviation flow_src_port := src_port.
Local Abbreviation flow_dst_port := dst_port.

Record sflow_t : Type := {
  src_ip : N;
  dst_ip : N;
  src_port : N;
  dst_port : N
}.

(** [sflow_t::sflow_t(const flow_t &)] *)
Definition of_flow (flow : flow_t) : sflow_t :=
  {| src_ip := flow_src_ip flow; dst_ip := flow_dst_ip flow;
     src_port := flow_src_port flow; dst_port := flow_dst_port flow |}.

(** [sflow_t::operator==] *)
Definition eq (a b : sflow_t) : bool :=
  ((src_ip a =? src_ip b)%N && (dst_ip a =? dst_ip b)%N &&
   (src_port a =? src_port b)%N && (dst_port a =? dst_port b)%N) ||
  ((src_ip a =? dst_ip b)%N && (dst_ip a =? src_ip b)%N &&
   (src_port a =? dst_port b)%N && (dst_port a =? src_port b)%N).

(** [sflow_t::flow_hash_t::operator()] *)
Definition hash (hash_u32 hash_u16 : N → N) (sflow : sflow_t) : N :=
  N.lxor (N.lxor (N.lxor (hash_u32 (src_ip sflow)) (hash_u32 (dst_ip sflow)))
                 (hash_u16 (src_port sflow)))
         (hash_u16 (dst_port sflow)).

(** [std::unordered_set<sflow_t, sflow_t::flow_hash_t>::insert]: the element
    is added unless an element equal to it by [operator==] is present. *)
Definition set_insert (x : sflow_t) (s : list sflow_t) : list sflow_t :=
  if existsb (eq x) s then s else x :: s.

End Sflow.

(** ** CDF *)

Module Cdf.

Record CDF : Type := {
  values : gmap N N;
  total : N
}.

(** [CDF::CDF] *)
Definition ctor : CDF := {| values := ∅; total := 0 |}.

(** [CDF::add(u64 value, u64 count)]; [values[value]] starts at 0 when the
    key is new. *)
Definition add_count (value count : N) (c : CDF) : CDF :=
  {| values := <[value := u64_add (default 0%N (values c !! value)) count]> (values c);
     total := u64_add (total c) count |}.

(** [CDF::add(u64 value)] *)
Definition add (value : N) (c : CDF) : CDF :=
  {| values := <[value := u64_add (default 0%N (values c !! value)) 1]> (values c);
     total := u64_add (total c) 1 |}.

(** The calls [add(value, count)] of a list, in order. *)
Definition add_all (l : list (N * N)) (c : CDF) : CDF :=
  foldl (λ c p, add_count p.1 p.2 c) c l.

End Cdf.

(** ** packet_t *)

Module Net.

(** [pkt] points to the bytes of the packet: the bytes are modelled. *)
Record packet_t : Type := {
  pkt : list N;
  hdrs_len : N;
  total_len : N;
  ts : Z;
  flow : option flow_t
}.

End Net.

(** ** report_t *)

Module Report.

Record report_t : Type := {
  start : Z;
  end_ : Z;
  total_pkts : N;
  tcpudp_pkts : N;
  pkt_sizes_cdf : Cdf.CDF;
  total_flows : N;
  total_symm_flows : N;
  concurrent_flows_per_epoch : Cdf.CDF;
  pkts_per_flow_cdf : Cdf.CDF;
  top_k_flows_cdf : Cdf.CDF;
  top_k_flows_bytes_cdf : Cdf.CDF;
  flow_duration_us_cdf : Cdf.CDF;
  flow_dts_us_cdf : Cdf.CDF
}.

(** [report_t::report_t] *)
Definition ctor : report_t :=
  {| start := 0; end_ := 0; total_pkts := 0; tcpudp_pkts := 0;
     pkt_sizes_cdf := Cdf.ctor; total_flows := 0; total_symm_flows := 0;
     concurrent_flows_per_epoch := Cdf.ctor; pkts_per_flow_cdf := Cdf.ctor;
     top_k_flows_cdf := Cdf.ctor; top_k_flows_bytes_cdf := Cdf.ctor;
     flow_duration_us_cdf := Cdf.ctor; flow_dts_us_cdf := Cdf.ctor |}.

(** The part of [traffic_stats_tracker_t::feed_packet] that runs for every
    packet: the fields of [report] it writes. *)
Definition count_packet (p : Net.packet_t) (r : report_t) : report_t :=
  {| start := if bool_decide (start r = 0%Z) then Net.ts p else start r;
     end_ := Net.ts p;
     total_pkts := u64_add (total_pkts r) 1;
     tcpudp_pkts := tcpudp_pkts r;
     pkt_sizes_cdf := Cdf.add (Net.total_len p) (pkt_sizes_cdf r);
     total_flows := total_flows r;
     total_symm_flows := total_symm_flows r;
     concurrent_flows_per_epoch := concurrent_flows_per_epoch r;
     pkts_per_flow_cdf := pkts_per_flow_cdf r;
     top_k_flows_cdf := top_k_flows_cdf r;
     top_k_flows_bytes_cdf := top_k_flows_bytes_cdf r;
     flow_duration_us_cdf := flow_duration_us_cdf r;
     flow_dts_us_cdf := flow_dts_us_cdf r |}.

(** [report.tcpudp_pkts++] *)
Definition count_tcpudp (r : report_t) : report_t :=
  {| start := start r; end_ := end_ r; total_pkts := total_pkts r;
     tcpudp_pkts := u64_add (tcpudp_pkts r) 1;
     pkt_sizes_cdf := pkt_sizes_cdf r;
     total_flows := total_flows r;
     total_symm_flows := total_symm_flows r;
     concurrent_flows_per_epoch := concurrent_flows_per_epoch r;
     pkts_per_flow_cdf := pkts_per_flow_cdf r;
     top_k_flows_cdf := top_k_flows_cdf r;
     top_k_flows_bytes_cdf := top_k_flows_bytes_cdf r;
     flow_duration_us_cdf := flow_duration_us_cdf r;
     flow_dts_us_cdf := flow_dts_us_cdf r |}.

End Report.

(** ** traffic_stats_tracker_t *)

Module Stats.

Record flow_ts : Type := {
  first : Z;
  last : Z;
  dts : list Z
}.

Record traffic_stats_tracker_t : Type := {
  clock : Clock.simulator_clock_t;
  flows : gset flow_t;
  symm_flows : list Sflow.sflow_t;
  concurrent_flows_per_epoch : list (gset flow_t);
  pkts_per_flow : gmap flow_t N;
  bytes_per_flow : gmap flow_t N;
  flow_times : gmap flow_t flow_ts;
  report : Report.report_t
}.

Definition TRAFFIC_STATS_TRACKER_PROGRESS_PRINT_STEP : N := 1000000.

(** [traffic_stats_tracker_t::traffic_stats_tracker_t] *)
Definition ctor (_epoch_duration : Z) : traffic_stats_tracker_t :=
  {| clock := Clock.ctor _epoch_duration;
     flows := ∅; symm_flows := [];
     concurrent_flows_per_epoch := [∅];
     pkts_per_flow := ∅; bytes_per_flow := ∅; flow_times := ∅;
     report := Report.ctor |}.

(** [concurrent_flows_per_epoch.back().insert(flow)]; [back()] of an empty
    vector is undefined behaviour. *)
Definition back_insert (flow : flow_t) (epochs : list (gset flow_t))
  : result (list (gset flow_t)) :=
  match epochs with
  | [] => Err (OutOfBounds 0 0)
  | _ => Ok (alter (λ e, {[flow]} ∪ e) (length epochs - 1) epochs)
  end.

(** The update of [flow_times] at the end of [feed_packet]. *)
Definition note_time (flow : flow_t) (now : Z) (m : gmap flow_t flow_ts)
  : result (gmap flow_t flow_ts) :=
  match m !! flow with
  | None => Ok (<[flow := {| first := now; last := now; dts := [] |}]> m)
  | Some fts =>
      dt ← i64_sub now (last fts) ;
      Ok (<[flow := {| first := first fts; last := now;
                       dts := dts fts ++ [dt] |}]> m)
  end.

(** [traffic_stats_tracker_t::feed_packet]. Beside the new state, the line
    written to [std::cerr], if any, as the pair of the two numbers in it. *)
Definition feed_packet (p : Net.packet_t) (t : traffic_stats_tracker_t)
  : result (traffic_stats_tracker_t * option (Z * N)) :=
  let report := Report.count_packet p (report t) in
  match Net.flow p with
  | None =>
      Ok ({| clock := clock t; flows := flows t; symm_flows := symm_flows t;
             concurrent_flows_per_epoch := concurrent_flows_per_epoch t;
             pkts_per_flow := pkts_per_flow t;
             bytes_per_flow := bytes_per_flow t;
             flow_times := flow_times t;
             report := report |}, None)
  | Some flow =>
      '(sound_alarm, clock) ← Clock.tick (Net.ts p) (clock t) ;
      let epochs :=
        if sound_alarm : bool then concurrent_flows_per_epoch t ++ [∅]
        else concurrent_flows_per_epoch t in
      let line :=
        if (Report.total_pkts report mod TRAFFIC_STATS_TRACKER_PROGRESS_PRINT_STEP =? 0)%N
        then Some (Net.ts p, Report.total_pkts report) else None in
      let report := Report.count_tcpudp report in
      let flows := {[flow]} ∪ flows t in
      let symm_flows := Sflow.set_insert (Sflow.of_flow flow) (symm_flows t) in
      epochs ← back_insert flow epochs ;
      let pkts_per_flow :=
        <[flow := u64_add (default 0%N (pkts_per_flow t !! flow)) 1]> (pkts_per_flow t) in
      let bytes_per_flow :=
        <[flow := u64_add (default 0%N (bytes_per_flow t !! flow)) (Net.total_len p)]>
          (bytes_per_flow t) in
      flow_times ← note_time flow (Net.ts p) (flow_times t) ;
      Ok ({| clock := clock; flows := flows; symm_flows := symm_flows;
             concurrent_flows_per_epoch := epochs;
             pkts_per_flow := pkts_per_flow;
             bytes_per_flow := bytes_per_flow;
             flow_times := flow_times;
             report := report |}, line)
  end.

(** The packets of a capture fed in order, as the reading loop of [main]
    does; the lines written. *)
Fixpoint feed_packets (ps : list Net.packet_t) (t : traffic_stats_tracker_t)
  : result (traffic_stats_tracker_t * list (Z * N)) :=
  match ps with
  | [] => Ok (t, [])
  | p :: ps =>
      '(t, line) ← feed_packet p t ;
      '(t, lines) ← feed_packets ps t ;
      Ok (t, from_option (λ l, [l]) [] line ++ lines)
  end.

(** The packets of a flow, and the gaps between consecutive times. *)
Definition flow_packets (flow : flow_t) (ps : list Net.packet_t) : list Net.packet_t :=
  filter (λ p, Net.flow p = Some flow) ps.

Fixpoint gaps (times : list Z) : list Z :=
  match times with
  | a :: ((b :: _) as rest) => (b - a)%Z :: gaps rest
  | _ => []
  end.

(** [THOUSAND] of types.h, a [u64]: a division of a time by it is unsigned. *)
Definition THOUSAND : N := 1000.

(** The conversions between [i64] and [u64], modulo 2^64. *)
Definition u64_of_i64 (z : Z) : N := Z.to_N (z mod 2 ^ 64).
Definition i64_of_u64 (n : N) : Z :=
  if bool_decide (n < 2 ^ 63)%N then Z.of_N n else (Z.of_N n - 2 ^ 64)%Z.

(** A loop over a list whose body can fault. *)
Fixpoint for_each {A S} (body : S → A → result S) (s : S) (l : list A) : result S :=
  match l with
  | [] => Ok s
  | a :: l => s ← body s a ; for_each body s l
  end.

(** The body of the loop of [generate_report] over the sorted vectors. *)
Definition top_k_step (pkts_per_flow_values bytes_per_flow_values : list N)
    (cdfs : Cdf.CDF * Cdf.CDF) (i : nat) : result (Cdf.CDF * Cdf.CDF) :=
  pkts ← at_ pkts_per_flow_values (N.of_nat i) ;
  bytes ← at_ bytes_per_flow_values (N.of_nat i) ;
  Ok (Cdf.add_count (u64_add (N.of_nat i) 1) pkts cdfs.1,
      Cdf.add_count (u64_add (N.of_nat i) 1) bytes cdfs.2).

(** [dt_sum] of [generate_report]: [dt_sum += dt / THOUSAND] for every [dt]. *)
Definition dt_sum (dts : list Z) : Z :=
  foldl (λ dt_sum dt,
           i64_of_u64 (u64_add (u64_of_i64 dt_sum) (u64_of_i64 dt / THOUSAND)))
        0%Z dts.

(** The body of the loop of [generate_report] over [flow_times]. [avg]
    stands for the division of [dt_sum] by the size as a [double] and the
    conversion of the quotient to the [u64] that [add] takes. *)
Definition flow_times_step (avg : Z → nat → result N)
    (cdfs : Cdf.CDF * Cdf.CDF) (ts : flow_ts) : result (Cdf.CDF * Cdf.CDF) :=
  d ← i64_sub (last ts) (first ts) ;
  let durations := Cdf.add (u64_of_i64 d / THOUSAND) cdfs.1 in
  match dts ts with
  | [] => Ok (durations, cdfs.2)
  | _ =>
      a ← avg (dt_sum (dts ts)) (length (dts ts)) ;
      Ok (durations, Cdf.add a cdfs.2)
  end.

(** The order [std::sort] with [std::greater<u64>] leaves a vector in. *)
Definition descending (a b : N) : Prop := (b ≤ a)%N.
Global Instance descending_dec a b : Decision (descending a b) := N.le_dec b a.

(** [traffic_stats_tracker_t::generate_report]. The sets and maps are gone
    through in the order of [elements] and [map_to_list]; [std::sort] with
    [std::greater] is the sort into descending order. *)
Definition generate_report (avg : Z → nat → result N)
    (t : traffic_stats_tracker_t) : result traffic_stats_tracker_t :=
  let r := report t in
  let total_flows := N.of_nat (size (flows t)) in
  let total_symm_flows := N.of_nat (length (symm_flows t)) in
  let epochs_cdf :=
    foldl (λ c flows, Cdf.add (N.of_nat (size flows)) c)
          (Report.concurrent_flows_per_epoch r) (concurrent_flows_per_epoch t) in
  let pkts_per_flow_values := (map_to_list (pkts_per_flow t)).*2 in
  let pkts_per_flow_cdf :=
    foldl (λ c pkts, Cdf.add pkts c) (Report.pkts_per_flow_cdf r)
          pkts_per_flow_values in
  let bytes_per_flow_values := (map_to_list (bytes_per_flow t)).*2 in
  if negb (length pkts_per_flow_values =? length bytes_per_flow_values)%nat
  then Err AssertionFailed
  else
    let pkts_per_flow_values := merge_sort descending pkts_per_flow_values in
    let bytes_per_flow_values := merge_sort descending bytes_per_flow_values in
    top_k ← for_each (top_k_step pkts_per_flow_values bytes_per_flow_values)
              (Report.top_k_flows_cdf r, Report.top_k_flows_bytes_cdf r)
              (seq 0 (length pkts_per_flow_values)) ;
    times ← for_each (flow_times_step avg)
              (Report.flow_duration_us_cdf r, Report.flow_dts_us_cdf r)
              (map_to_list (flow_times t)).*2 ;
    Ok {| clock := clock t; flows := flows t; symm_flows := symm_flows t;
          concurrent_flows_per_epoch := concurrent_flows_per_epoch t;
          pkts_per_flow := pkts_per_flow t;
          bytes_per_flow := bytes_per_flow t;
          flow_times := flow_times t;
          report :=
            {| Report.start := Report.start r;
               Report.end_ := Report.end_ r;
               Report.total_pkts := Report.total_pkts r;
               Report.tcpudp_pkts := Report.tcpudp_pkts r;
               Report.pkt_sizes_cdf := Report.pkt_sizes_cdf r;
               Report.total_flows := total_flows;
               Report.total_symm_flows := total_symm_flows;
               Report.concurrent_flows_per_epoch := epochs_cdf;
               Report.pkts_per_flow_cdf := pkts_per_flow_cdf;
               Report.top_k_flows_cdf := top_k.1;
               Report.top_k_flows_bytes_cdf := top_k.2;
               Report.flow_duration_us_cdf := times.1;
               Report.flow_dts_us_cdf := times.2 |} |}.

End Stats.

(** ** pcap_reader_t *)

Definition i64_mul (a b : Z) : result Z :=
  let r := (a * b)%Z in
  if bool_decide (I64_MIN ≤ r ∧ r ≤ I64_MAX)%Z then Ok r else Err SignedOverflow.

Module Reader.

Definition U16_MOD : N := 65536.
Definition U32_MOD : N := 4294967296.
Definition u16_add (a b : N) : N := ((a + b) mod U16_MOD)%N.

Definition ETHERTYPE_IP : N := 2048.      (* 0x0800 *)
Definition ETHERTYPE_VLAN : N := 33024.   (* 0x8100 *)
Definition CRC_SIZE_BYTES : N := 4.
Definition IPPROTO_TCP : N := 6.
Definition IPPROTO_UDP : N := 17.

(** [sizeof] of the packed structs of net.h. *)
Definition sizeof_ether_hdr_t : N := 14.
Definition sizeof_vlan_hdr_t : N := 4.
Definition sizeof_ipv4_hdr_t : N := 20.
Definition sizeof_tcp_hdr_t : N := 20.
Definition sizeof_udp_hdr_t : N := 8.
Definition sizeof_u16 : N := 2.

(** The fields of [struct pcap_pkthdr] of libpcap; [tv_sec] and [tv_usec]
    are 64-bit signed. *)
Record pcap_pkthdr : Type := {
  tv_sec : Z;
  tv_usec : Z;
  caplen : N;
  len : N
}.

(** [data] points to the bytes libpcap captured: a read at an offset is a
    subscript in their list, undefined from its length on. The host is
    little-endian, as [ipv4_to_str] takes it to be: a [u16] or [u32] field
    that is read without [ntohs] has its first byte lowest, and of the two
    bit-fields in the first byte of [ipv4_hdr_t], [version] is the upper
    half. [time_t] and [suseconds_t] are 64 bits wide. *)
Definition read_u8 (data : list N) (off : N) : result N := at_ data off.

Definition read_u16 (data : list N) (off : N) : result N :=
  b0 ← at_ data off ;
  b1 ← at_ data (off + 1) ;
  Ok (b0 + 256 * b1)%N.

Definition read_u32 (data : list N) (off : N) : result N :=
  b0 ← at_ data off ;
  b1 ← at_ data (off + 1) ;
  b2 ← at_ data (off + 2) ;
  b3 ← at_ data (off + 3) ;
  Ok (b0 + 256 * b1 + 65536 * b2 + 16777216 * b3)%N.

Definition ntohs (x : N) : N := ((x mod 256) * 256 + (x / 256) mod 256)%N.

(** [pcap_reader_t::read_next_packet], after [pcap_next_ex] has returned 1
    with [header] and [data]; [assume_ip] is the field of the reader,
    [read_data] is the object the caller passes by reference, and the result
    its value when the function returns [true]. Offsets in [data] stand for
    the pointers. *)
Definition read_next_packet (assume_ip : bool) (header : pcap_pkthdr)
    (data : list N) (read_data : Net.packet_t) : result Net.packet_t :=
  let total_len := (((len header + CRC_SIZE_BYTES) mod U32_MOD) mod U16_MOD)%N in
  s ← i64_mul (tv_sec header) 1000000000 ;
  us ← i64_mul (tv_usec header) 1000 ;
  ts ← i64_add s us ;
  let ret (hdrs_len total_len : N) (flow : option flow_t) : Net.packet_t :=
    {| Net.pkt := data; Net.hdrs_len := hdrs_len; Net.total_len := total_len;
       Net.ts := ts; Net.flow := flow |} in
  link ←
    (if assume_ip then
       Ok (Some (0%N, 0%N, u16_add total_len sizeof_ether_hdr_t))
     else
       et ← read_u16 data 12 ;
       let ether_type := ntohs et in
       let off := sizeof_ether_hdr_t in
       let hdrs_len := u16_add 0 sizeof_ether_hdr_t in
       '(ether_type, off, hdrs_len) ←
         (if (ether_type =? ETHERTYPE_VLAN)%N then
            let off := (12 + sizeof_vlan_hdr_t)%N in
            et ← read_u16 data off ;
            Ok (ntohs et, (off + sizeof_u16)%N,
                u16_add hdrs_len (sizeof_vlan_hdr_t + sizeof_u16))
          else Ok (ether_type, off, hdrs_len)) ;
       if negb (ether_type =? ETHERTYPE_IP)%N then Ok None
       else Ok (Some (off, hdrs_len, total_len))) ;
  match link with
  | None => Ok (ret total_len total_len (Net.flow read_data))
  | Some (ip_hdr, hdrs_len, total_len) =>
      let off := (ip_hdr + sizeof_ipv4_hdr_t)%N in
      let hdrs_len := u16_add hdrs_len sizeof_ipv4_hdr_t in
      b ← read_u8 data ip_hdr ;
      let version := ((b / 16) mod 16)%N in
      if negb (version =? 4)%N then Ok (ret hdrs_len total_len (Net.flow read_data))
      else
        next_proto_id ← read_u8 data (ip_hdr + 9) ;
        let set_flow (hdrs_len sport dport : N) : result Net.packet_t :=
          src_addr ← read_u32 data (ip_hdr + 12) ;
          dst_addr ← read_u32 data (ip_hdr + 16) ;
          Ok (ret hdrs_len total_len
                (Some {| type := FiveTuple; src_ip := src_addr; dst_ip := dst_addr;
                         src_port := sport; dst_port := dport |})) in
        if (next_proto_id =? IPPROTO_TCP)%N then
          let tcp_hdr := off in
          let hdrs_len := u16_add hdrs_len sizeof_tcp_hdr_t in
          sport ← read_u16 data tcp_hdr ;
          dport ← read_u16 data (tcp_hdr + 2) ;
          set_flow hdrs_len sport dport
        else if (next_proto_id =? IPPROTO_UDP)%N then
          let udp_hdr := off in
          let hdrs_len := u16_add hdrs_len sizeof_udp_hdr_t in
          sport ← read_u16 data udp_hdr ;
          dport ← read_u16 data (udp_hdr + 2) ;
          set_flow hdrs_len sport dport
        else Ok (ret hdrs_len total_len (Net.flow read_data))
  end.

(** [packet_t packet;] of [main]: no flow; the other fields are not
    initialised, and [read_next_packet] writes them before they are read. *)
Definition packet_init : Net.packet_t :=
  {| Net.pkt := []; Net.hdrs_len := 0; Net.total_len := 0; Net.ts := 0;
     Net.flow := None |}.

(** The values of [packet] over the calls of [read_next_packet] in the loop
    of [main], one per packet [pcap_next_ex] gives. *)
Fixpoint read_packets (assume_ip : bool) (caps : list (pcap_pkthdr * list N))
    (packet : Net.packet_t) : result (list Net.packet_t) :=
  match caps with
  | [] => Ok []
  | (header, data) :: caps =>
      packet ← read_next_packet assume_ip header data packet ;
      ps ← read_packets assume_ip caps packet ;
      Ok (packet :: ps)
  end.

(** The reading loop of [main]: [packet] is one object, read into and fed
    in turn. *)
Fixpoint main_loop (assume_ip : bool) (caps : list (pcap_pkthdr * list N))
    (packet : Net.packet_t) (t : Stats.traffic_stats_tracker_t)
  : result (Stats.traffic_stats_tracker_t * list (Z * N)) :=
  match caps with
  | [] => Ok (t, [])
  | (header, data) :: caps =>
      packet ← read_next_packet assume_ip header data packet ;
      '(t, line) ← Stats.feed_packet packet t ;
      '(t, lines) ← main_loop assume_ip caps packet t ;
      Ok (t, from_option (λ l, [l]) [] line ++ lines)
  end.

End Reader.

Definition sum_N (l : list N) : N := foldr N.add 0%N l.

(** The number of alarms in the results of a run of ticks. *)
Definition alarms (bs : list bool) : Z := Z.of_nat (length (filter (λ b, b = true) bs)).

(** A capture of four packets: two of a flow, one that is neither TCP nor
    UDP, one of the inverse flow; the tracker after it, with epochs of 10 ns. *)
Definition demo_packets : list Net.packet_t :=
  [ {| Net.pkt := []; Net.hdrs_len := 54; Net.total_len := 100; Net.ts := 5;
       Net.flow := Some demo_flow |};
    {| Net.pkt := []; Net.hdrs_len := 0; Net.total_len := 60; Net.ts := 7;
       Net.flow := None |};
    {| Net.pkt := []; Net.hdrs_len := 54; Net.total_len := 1500; Net.ts := 20;
       Net.flow := Some demo_flow |};
    {| Net.pkt := []; Net.hdrs_len := 54; Net.total_len := 64; Net.ts := 30;
       Net.flow := Some (invert demo_flow) |} ].
Definition demo_stats : Stats.traffic_stats_tracker_t * list (Z * N) :=
  ok_or (Stats.ctor 10, []) (Stats.feed_packets demo_packets (Stats.ctor 10)).

(** Two captured frames: a TCP segment from 10.0.0.1 to 10.0.0.2 in an
    Ethernet frame, then an ARP frame; their headers of libpcap. *)
Definition demo_tcp_frame : list N :=
  [0; 1; 2; 3; 4; 5; 6; 7; 8; 9; 10; 11; 8; 0; 69; 0; 0; 40; 0; 1; 0; 0; 64;
   6; 0; 0; 10; 0; 0; 1; 10; 0; 0; 2; 4; 210; 0; 80; 0; 0; 0; 0; 0; 0; 0; 0;
   0; 0; 0; 0; 0; 0; 0; 0]%N.
Definition demo_arp_frame : list N :=
  [255; 255; 255; 255; 255; 255; 6; 7; 8; 9; 10; 11; 8; 6; 0; 0; 0; 0; 0; 0;
   0; 0; 0; 0; 0; 0; 0; 0; 0; 0; 0; 0; 0; 0; 0; 0; 0; 0; 0; 0; 0; 0]%N.
Definition demo_captures : list (Reader.pcap_pkthdr * list N) :=
  [ ({| Reader.tv_sec := 1; Reader.tv_usec := 0; Reader.caplen := 54;
        Reader.len := 54 |}, demo_tcp_frame);
    ({| Reader.tv_sec := 2; Reader.tv_usec := 500; Reader.caplen := 42;
        Reader.len := 42 |}, demo_arp_frame) ].
Definition demo_read : list Net.packet_t :=
  ok_or [] (Reader.read_packets false demo_captures Reader.packet_init).
Definition demo_main : Stats.traffic_stats_tracker_t * list (Z * N) :=
  ok_or (Stats.ctor 10, [])
    (Reader.main_loop false demo_captures Reader.packet_init (Stats.ctor 10)).

(** * Reasoning about the store *)

(** ** Total reads and pure updates of the link fields *)

Definition inb {A} (v : list A) (i : N) : Prop := N.to_nat i < length v.

Definition nxt (c : list dchain_cell_t) (i : N) : N :=
  match c !! N.to_nat i with Some cl => next cl | None => 0%N end.
Definition prv (c : list dchain_cell_t) (i : N) : N :=
  match c !! N.to_nat i with Some cl => prev cl | None => 0%N end.
Definition upd_next (i v : N) (c : list dchain_cell_t) : list dchain_cell_t :=
  alter (with_next v) (N.to_nat i) c.
Definition upd_prev (i v : N) (c : list dchain_cell_t) : list dchain_cell_t :=
  alter (with_prev v) (N.to_nat i) c.

(** ** Chains of links

    [linked f l]: following [f] from each element of [l] leads to the next
    element of [l]. With [f] the [next] field of the cells this is a chain of
    the array; with [f] the [prev] field it is the same chain read backwards. *)

Fixpoint linked (f : N → N) (l : list N) : Prop :=
  match l with
  | a :: ((b :: _) as t) => f a = b ∧ linked f t
  | _ => True
  end.

Definition hd_or (z : N) (l : list N) : N := default z (head l).
Definition last_or (z : N) (l : list N) : N := default z (last l).

(** * The representation invariant of the arena

    The cells of the real slots: slot [s] lives in cell [s + INDEX_SHIFT]. *)

Definition slot_cells (n : N) : list N :=
  (λ k, (N.of_nat k + INDEX_SHIFT)%N) <$> seq 0 (N.to_nat n).

(** [rep n d al fl]: the arena [d] of capacity [n] holds the occupied list
    [al] (oldest first) and the free list [fl] (next to be allocated first). *)
Record rep (n : N) (d : DoubleChain) (al fl : list N) : Prop := {
  rep_cap : (n + 2 < U64_MOD)%N;
  rep_cells : length (cells d) = N.to_nat n + 2;
  rep_ts : length (timestamps d) = N.to_nat n;
  rep_perm : al ++ fl ≡ₚ slot_cells n;
  rep_al_next : linked (nxt (cells d)) (0%N :: al ++ [0%N]);
  rep_al_prev : linked (prv (cells d)) (0%N :: reverse al ++ [0%N]);
  rep_fl_next : linked (nxt (cells d)) (1%N :: fl ++ [1%N]);
  rep_fl_prev : ∀ a, a ∈ 1%N :: fl → prv (cells d) a = nxt (cells d) a
}.

(** The invariant of the tracker: the keys of [flow_to_index] are mapped to
    occupied slots whose [index_to_flow] entry is the key, and every occupied
    slot is the slot of a key. *)
Record tracker_inv (n : N) (ft : FlowTracker) (al fl : list N) : Prop := {
  tinv_rep : rep n (double_chain ft) al fl;
  tinv_len : length (index_to_flow ft) = N.to_nat n;
  tinv_key : ∀ k s, flow_to_index ft !! k = Some s →
               (s + 2)%N ∈ al ∧ index_to_flow ft !! N.to_nat s = Some k;
  tinv_slot : ∀ x, x ∈ al → ∃ k, flow_to_index ft !! k = Some (x - 2)%N
}.

(** * Lemmas on the store *)

Lemma bind_Ok {A B} (a : A) (k : A → result B) : (Ok a ≫= k) = k a.
Proof. reflexivity. Qed.

Section store.
Context (c : list dchain_cell_t).
Implicit Types i j v : N.

Lemma inb_lookup {A} (l : list A) i : inb l i → ∃ x, l !! N.to_nat i = Some x.
Proof. intros H. by apply lookup_lt_is_Some_2. Qed.

Lemma at_inb {A B} (l : list A) i (k : result B) :
  inb l i → (at_ l i ≫= λ _, k) = k.
Proof. intros [x Hx]%inb_lookup. unfold at_. by rewrite Hx. Qed.

Lemma store_inb {A} (l : list A) i x :
  inb l i → store i x l = Ok (<[N.to_nat i := x]> l).
Proof. intros H. unfold store. by rewrite at_inb. Qed.

Lemma get_next_inb i : inb c i → get_next c i = Ok (nxt c i).
Proof. intros [x Hx]%inb_lookup. unfold get_next, at_, nxt. by rewrite Hx. Qed.
Lemma get_prev_inb i : inb c i → get_prev c i = Ok (prv c i).
Proof. intros [x Hx]%inb_lookup. unfold get_prev, at_, prv. by rewrite Hx. Qed.
Lemma set_next_inb i v : inb c i → set_next i v c = Ok (upd_next i v c).
Proof. intros H. unfold set_next. by rewrite at_inb. Qed.
Lemma set_prev_inb i v : inb c i → set_prev i v c = Ok (upd_prev i v c).
Proof. intros H. unfold set_prev. by rewrite at_inb. Qed.

Lemma length_upd_next i v : length (upd_next i v c) = length c.
Proof. apply length_alter. Qed.
Lemma length_upd_prev i v : length (upd_prev i v c) = length c.
Proof. apply length_alter. Qed.

Lemma inb_upd_next i v j : inb (upd_next i v c) j ↔ inb c j.
Proof. unfold inb. by rewrite length_upd_next. Qed.
Lemma inb_upd_prev i v j : inb (upd_prev i v c) j ↔ inb c j.
Proof. unfold inb. by rewrite length_upd_prev. Qed.

Lemma nxt_upd_next_eq i v : inb c i → nxt (upd_next i v c) i = v.
Proof.
  intros [x Hx]%inb_lookup. unfold nxt, upd_next.
  by rewrite list_lookup_alter_eq, Hx.
Qed.
Lemma nxt_upd_next_ne i v j : i ≠ j → nxt (upd_next i v c) j = nxt c j.
Proof.
  intros H. unfold nxt, upd_next. rewrite list_lookup_alter_ne; [done|lia].
Qed.
Lemma nxt_upd_prev i v j : nxt (upd_prev i v c) j = nxt c j.
Proof.
  unfold nxt, upd_prev. destruct (decide (i = j)) as [->|].
  - rewrite list_lookup_alter_eq. by destruct (c !! N.to_nat j).
  - rewrite list_lookup_alter_ne; [done|lia].
Qed.
Lemma prv_upd_prev_eq i v : inb c i → prv (upd_prev i v c) i = v.
Proof.
  intros [x Hx]%inb_lookup. unfold prv, upd_prev.
  by rewrite list_lookup_alter_eq, Hx.
Qed.
Lemma prv_upd_prev_ne i v j : i ≠ j → prv (upd_prev i v c) j = prv c j.
Proof.
  intros H. unfold prv, upd_prev. rewrite list_lookup_alter_ne; [done|lia].
Qed.
Lemma prv_upd_next i v j : prv (upd_next i v c) j = prv c j.
Proof.
  unfold prv, upd_next. destruct (decide (i = j)) as [->|].
  - rewrite list_lookup_alter_eq. by destruct (c !! N.to_nat j).
  - rewrite list_lookup_alter_ne; [done|lia].
Qed.
End store.

(** ** Lemmas on chains *)

Section linked.
Implicit Types (f : N → N) (l : list N) (a b x z : N).

Lemma last_or_snoc z l x : last_or z (l ++ [x]) = x.
Proof. unfold last_or. by rewrite last_snoc. Qed.
Lemma last_or_reverse z l : last_or z (reverse l) = hd_or z l.
Proof. unfold last_or, hd_or. by rewrite last_reverse. Qed.
Lemma hd_or_reverse z l : hd_or z (reverse l) = last_or z l.
Proof. unfold last_or, hd_or. by rewrite head_reverse. Qed.
Lemma reverse_mid l1 x l2 :
  reverse (l1 ++ x :: l2) = reverse l2 ++ x :: reverse l1.
Proof. by rewrite reverse_app, reverse_cons, <-app_assoc. Qed.
Lemma last_or_elem z l : last_or z l = z ∧ l = [] ∨ last_or z l ∈ l.
Proof.
  destruct l as [|a l] using rev_ind; [by left|right].
  rewrite last_or_snoc. set_solver.
Qed.
Lemma hd_or_elem z l : hd_or z l = z ∧ l = [] ∨ hd_or z l ∈ l.
Proof. destruct l; [by left|right]. cbn. set_solver. Qed.

Lemma linked_one f a : linked f [a].
Proof. exact I. Qed.
Lemma linked_cons f a b l : linked f (a :: b :: l) ↔ f a = b ∧ linked f (b :: l).
Proof. reflexivity. Qed.

Lemma linked_tail f a l : linked f (a :: l) → linked f l.
Proof. destruct l; [done|]. by intros [_ ?]. Qed.

Lemma linked_app_mid f l1 a l2 :
  linked f (l1 ++ a :: l2) ↔ linked f (l1 ++ [a]) ∧ linked f (a :: l2).
Proof.
  induction l1 as [|b l1 IH]; cbn [app].
  - pose proof (linked_one f a). tauto.
  - destruct l1 as [|b' l1]; cbn [app] in *; rewrite !linked_cons; tauto.
Qed.

Lemma linked_snoc f l a b :
  linked f (l ++ [a; b]) ↔ linked f (l ++ [a]) ∧ f a = b.
Proof.
  rewrite linked_app_mid, linked_cons. pose proof (linked_one f b). tauto.
Qed.

Lemma linked_frame f f' l z :
  (∀ a, a ∈ l → f' a = f a) → linked f (l ++ [z]) → linked f' (l ++ [z]).
Proof.
  induction l as [|a l IH]; [done|]. intros Hf H.
  assert (linked f' (l ++ [z])) as IH'.
  { apply IH; [|by eapply linked_tail]. intros; apply Hf. set_solver. }
  destruct l as [|b l]; cbn [app] in *; rewrite linked_cons in *;
    (split; [|done]); rewrite Hf; [tauto | set_solver | tauto | set_solver].
Qed.

(** The same, for a chain that starts with a given element. *)
Lemma linked_app_mid' f z l1 a l2 :
  linked f (z :: l1 ++ a :: l2) ↔ linked f (z :: l1 ++ [a]) ∧ linked f (a :: l2).
Proof. apply (linked_app_mid f (z :: l1)). Qed.
Lemma linked_snoc' f z l a b :
  linked f (z :: l ++ [a; b]) ↔ linked f (z :: l ++ [a]) ∧ f a = b.
Proof. apply (linked_snoc f (z :: l)). Qed.
Lemma linked_frame' f f' z l y :
  (∀ a, a ∈ z :: l → f' a = f a) →
  linked f (z :: l ++ [y]) → linked f' (z :: l ++ [y]).
Proof. apply (linked_frame f f' (z :: l)). Qed.

Lemma linked_head f a z l : linked f (a :: l ++ [z]) → f a = hd_or z l.
Proof. destruct l; cbn [app]; rewrite linked_cons; cbn; tauto. Qed.
Lemma linked_ring_head f z l : linked f (z :: l ++ [z]) → f z = hd_or z l.
Proof. apply linked_head. Qed.

(** The links around an element of a ring [z :: l1 ++ x :: l2 ++ [z]]. *)
Lemma linked_ring_at f z l1 x l2 :
  linked f (z :: (l1 ++ x :: l2) ++ [z]) →
  f (last_or z l1) = x ∧ f x = hd_or z l2.
Proof.
  rewrite <-app_assoc. cbn [app]. rewrite linked_app_mid'. intros [H1 H2].
  split.
  - destruct l1 as [|p l1] using rev_ind; [cbn in *; tauto|].
    rewrite last_or_snoc. rewrite <-app_assoc in H1. cbn [app] in H1.
    rewrite linked_snoc' in H1. tauto.
  - by apply linked_head in H2.
Qed.

(** Taking [x] out of a ring. *)
Lemma linked_unlink f f' z l1 x l2 :
  NoDup (z :: l1 ++ x :: l2) →
  linked f (z :: (l1 ++ x :: l2) ++ [z]) →
  f' (last_or z l1) = hd_or z l2 →
  (∀ a, a ∈ z :: l1 ++ l2 → a ≠ last_or z l1 → f' a = f a) →
  linked f' (z :: (l1 ++ l2) ++ [z]).
Proof.
  intros Hnd H Hp Hf.
  rewrite <-app_assoc in H. cbn [app] in H.
  rewrite linked_app_mid' in H. destruct H as [H1 H2].
  rewrite <-app_assoc.
  assert (last_or z l1 ∈ z :: l1) as Hpin.
  { destruct (last_or_elem z l1) as [[-> _]|?]; set_solver. }
  rewrite app_comm_cons in Hnd.
  apply NoDup_app in Hnd as (Hnd1 & Hnd & _).
  assert (linked f' (last_or z l1 :: l2 ++ [z])) as Hmid.
  { destruct l2 as [|n l2]; cbn [app]; rewrite linked_cons;
      (split; [done|]); [apply linked_one|].
    apply (linked_frame' f); [|by apply linked_tail in H2].
    intros a Ha. apply Hf; [set_solver|]. intros ->.
    apply (Hnd _ Hpin). set_solver. }
  destruct l1 as [|p l1] using rev_ind; [done|].
  rewrite last_or_snoc in *. rewrite <-app_assoc. cbn [app].
  rewrite linked_app_mid'. split; [|done].
  rewrite <-app_assoc in H1. cbn [app] in H1.
  rewrite linked_snoc' in H1. destruct H1 as [H1 _].
  apply (linked_frame' f); [|done].
  intros a Ha. apply Hf; [set_solver|]. intros ->.
  rewrite app_comm_cons in Hnd1.
  apply NoDup_app in Hnd1 as (_ & Hnd1 & _). apply (Hnd1 _ Ha). set_solver.
Qed.

(** Appending [x] at the far end of a ring. *)
Lemma linked_push_back f f' z l x :
  NoDup (z :: l ++ [x]) →
  linked f (z :: l ++ [z]) →
  f' (last_or z l) = x →
  f' x = z →
  (∀ a, a ∈ z :: l → a ≠ last_or z l → f' a = f a) →
  linked f' (z :: (l ++ [x]) ++ [z]).
Proof.
  intros Hnd H Hp Hx Hf.
  rewrite <-app_assoc. cbn [app].
  destruct l as [|p l] using rev_ind; [done|].
  rewrite last_or_snoc in *. rewrite <-!app_assoc. cbn [app].
  rewrite linked_app_mid'. split; [|done].
  rewrite <-app_assoc in H. cbn [app] in H.
  rewrite linked_snoc' in H. destruct H as [H _].
  apply (linked_frame' f); [|done].
  intros a Ha. apply Hf; [set_solver|]. intros ->.
  rewrite <-app_assoc, app_comm_cons in Hnd.
  apply NoDup_app in Hnd as (_ & Hnd & _). apply (Hnd _ Ha). set_solver.
Qed.

(** Inserting [x] right after the sentinel. *)
Lemma linked_push_front f f' z l x :
  linked f (z :: l ++ [z]) →
  f' z = x →
  f' x = hd_or z l →
  (∀ a, a ∈ l → f' a = f a) →
  linked f' (z :: (x :: l) ++ [z]).
Proof.
  intros H Hz Hx Hf. cbn [app]. rewrite linked_cons. split; [done|].
  apply linked_tail in H.
  destruct l as [|n l]; [done|]. cbn [app]. rewrite linked_cons. split; [done|].
  by apply (linked_frame f f' (n :: l)) in H.
Qed.

(** Removing the element right after the sentinel. *)
Lemma linked_pop_front f f' z l x :
  linked f (z :: (x :: l) ++ [z]) →
  f' z = hd_or z l →
  (∀ a, a ∈ l → f' a = f a) →
  linked f' (z :: l ++ [z]).
Proof.
  intros H Hz Hf. do 2 apply linked_tail in H.
  destruct l as [|n l]; [done|]. cbn [app]. rewrite linked_cons. split; [done|].
  by apply (linked_frame f f' (n :: l)) in H.
Qed.
End linked.

(** ** Consequences of the invariant *)

Lemma elem_of_slot_cells n i : i ∈ slot_cells n ↔ (2 ≤ i < n + 2)%N.
Proof.
  unfold slot_cells, INDEX_SHIFT, DCHAIN_RESERVED. rewrite list_elem_of_fmap. split.
  - intros (k & -> & Hk%elem_of_seq). lia.
  - intros H. exists (N.to_nat (i - 2)). split; [lia|]. apply elem_of_seq. lia.
Qed.

Lemma NoDup_slot_cells n : NoDup (slot_cells n).
Proof.
  unfold slot_cells. apply NoDup_fmap_2; [|apply NoDup_seq].
  intros a b. unfold INDEX_SHIFT, DCHAIN_RESERVED. lia.
Qed.

Lemma length_slot_cells n : length (slot_cells n) = N.to_nat n.
Proof. unfold slot_cells. by rewrite length_fmap, length_seq. Qed.

Section rep_facts.
Context {n : N} {d : DoubleChain} {al fl : list N} (R : rep n d al fl).

Lemma rep_NoDup : NoDup (al ++ fl).
Proof. rewrite (rep_perm _ _ _ _ R). apply NoDup_slot_cells. Qed.

Lemma rep_range x : x ∈ al ++ fl → (2 ≤ x < n + 2)%N.
Proof. rewrite (rep_perm _ _ _ _ R). apply elem_of_slot_cells. Qed.
Lemma rep_range_al x : x ∈ al → (2 ≤ x < n + 2)%N.
Proof. intros. apply rep_range. set_solver. Qed.
Lemma rep_range_fl x : x ∈ fl → (2 ≤ x < n + 2)%N.
Proof. intros. apply rep_range. set_solver. Qed.

Lemma rep_slot x : (2 ≤ x < n + 2)%N → x ∈ al ∨ x ∈ fl.
Proof.
  intros H%elem_of_slot_cells. rewrite <-(rep_perm _ _ _ _ R) in H. set_solver.
Qed.

Lemma rep_disjoint x : x ∈ al → x ∈ fl → False.
Proof.
  pose proof rep_NoDup as (_ & H & _)%NoDup_app. intros ??. by eapply H.
Qed.

Lemma rep_NoDup_al : NoDup (0%N :: al).
Proof.
  pose proof rep_NoDup as (H & _ & _)%NoDup_app. apply NoDup_cons. split; [|done].
  intros H0%rep_range_al. lia.
Qed.
Lemma rep_NoDup_fl : NoDup (1%N :: fl).
Proof.
  pose proof rep_NoDup as (_ & _ & H)%NoDup_app. apply NoDup_cons. split; [|done].
  intros H0%rep_range_fl. lia.
Qed.

Lemma rep_length : length al + length fl = N.to_nat n.
Proof. by rewrite <-length_app, (rep_perm _ _ _ _ R), length_slot_cells. Qed.

(** The range of the neighbours read from the cells. *)
Lemma rep_last_range l : l ⊆ al → (last_or 0 l < n + 2)%N.
Proof.
  intros Hl. destruct (last_or_elem 0 l) as [[-> _]|H]; [lia|].
  apply Hl, rep_range_al in H. lia.
Qed.
Lemma rep_hd_range_fl l : l ⊆ fl → (1 ≤ hd_or 1 l < n + 2)%N.
Proof.
  intros Hl. destruct (hd_or_elem 1 l) as [[-> _]|H]; [lia|].
  apply Hl, rep_range_fl in H. lia.
Qed.
End rep_facts.

(** Evaluation of the code on a store whose bounds are known. *)
Ltac inb_tac :=
  unfold inb;
  repeat first
    [ rewrite length_upd_next | rewrite length_upd_prev | rewrite length_insert ];
  cbn in *; lia.

Ltac len_simpl :=
  repeat first
    [ rewrite length_upd_next | rewrite length_upd_prev | rewrite length_insert ].

Ltac store_simpl :=
  repeat first
    [ rewrite nxt_upd_prev
    | rewrite prv_upd_next
    | rewrite nxt_upd_next_eq by inb_tac
    | rewrite prv_upd_prev_eq by inb_tac
    | rewrite nxt_upd_next_ne by lia
    | rewrite prv_upd_prev_ne by lia ].

Ltac step :=
  first
    [ rewrite at_inb by inb_tac
    | rewrite get_next_inb by inb_tac
    | rewrite get_prev_inb by inb_tac
    | rewrite set_next_inb by inb_tac
    | rewrite set_prev_inb by inb_tac
    | rewrite store_inb by inb_tac ];
  rewrite ?bind_Ok; cbv beta.

Lemma u64_sub_small a b : (b ≤ a < U64_MOD)%N → u64_sub a b = (a - b)%N.
Proof.
  intros H. unfold u64_sub. rewrite (N.mod_small b) by lia.
  replace (a + U64_MOD - b)%N with ((a - b) + 1 * U64_MOD)%N by lia.
  rewrite N.Div0.mod_add. apply N.mod_small. lia.
Qed.
Lemma u64_add_small a b : (a + b < U64_MOD)%N → u64_add a b = (a + b)%N.
Proof. intros H. unfold u64_add. by apply N.mod_small. Qed.

(** ** allocate_new_index *)

Lemma allocate_new_index_full n d al time index_out :
  rep n d al [] →
  allocate_new_index time index_out d = Ok (false, index_out, d).
Proof.
  intros R. pose proof (rep_cells _ _ _ _ R) as Hlen.
  pose proof (linked_ring_head _ _ _ (rep_fl_next _ _ _ _ R)) as H1. cbn in H1.
  unfold allocate_new_index, FREE_LIST_HEAD, ALLOC_LIST_HEAD.
  do 3 step. by rewrite H1.
Qed.

Lemma allocate_new_index_spec n d al x fl time index_out :
  rep n d al (x :: fl) →
  ∃ d', allocate_new_index time index_out d = Ok (true, (x - 2)%N, d') ∧
        rep n d' (al ++ [x]) fl ∧
        timestamps d' = <[N.to_nat (x - 2) := time]> (timestamps d).
Proof.
  intros R. destruct d as [c ts].
  pose proof (rep_cap _ _ _ _ R) as Hcap.
  pose proof (rep_cells _ _ _ _ R) as Hlen.
  pose proof (rep_ts _ _ _ _ R) as Hts.
  pose proof (rep_range_fl R x ltac:(set_solver)) as Hx.
  pose proof (rep_hd_range_fl R fl ltac:(set_solver)) as Hy.
  pose proof (rep_last_range R al ltac:(set_solver)) as Hp.
  pose proof (linked_ring_head _ _ _ (rep_fl_next _ _ _ _ R)) as H1.
  pose proof (linked_ring_at _ _ [] _ _ (rep_fl_next _ _ _ _ R)) as [_ H2].
  pose proof (linked_ring_head _ _ _ (rep_al_prev _ _ _ _ R)) as H3.
  rewrite hd_or_reverse in H3. cbn in H1, H2, H3, Hlen, Hts.
  set (p := last_or 0%N al) in *. set (y := hd_or 1%N fl) in *.
  assert (p ≠ 1%N ∧ ∀ a, a ∈ x :: fl → a ≠ p) as [Hp1 Hpfl].
  { subst p. destruct (last_or_elem 0%N al) as [[-> _]|H].
    - split; [lia|]. intros a Ha%(rep_range_fl R). lia.
    - split; [apply (rep_range_al R) in H; lia|].
      intros a Ha Heq. rewrite Heq in Ha. by apply (rep_disjoint R _ H). }
  assert (p ≠ x) as Hpx.
  { intros Heq. apply (Hpfl x); [set_solver|done]. }
  eexists. split; [|split].
  - unfold allocate_new_index, FREE_LIST_HEAD, ALLOC_LIST_HEAD, INDEX_SHIFT,
      DCHAIN_RESERVED. cbn [cells timestamps].
    do 3 step. rewrite H1. rewrite (proj2 (N.eqb_neq x 1)) by lia.
    repeat (step; store_simpl; rewrite ?H1, ?H2, ?H3).
    rewrite u64_sub_small by lia. step. reflexivity.
  - pose proof (rep_NoDup_al R) as Hnd.
    assert (∀ a, a ∈ al → a ≠ x) as Hal.
    { intros a Ha Heq. rewrite Heq in Ha. apply (rep_disjoint R x); set_solver. }
    assert (∀ a, a ∈ fl → a ≠ x) as Hfl.
    { intros a Ha Heq. rewrite Heq in Ha. pose proof (rep_NoDup_fl R) as H.
      rewrite !NoDup_cons in H. tauto. }
    constructor; cbn [cells timestamps].
    + done.
    + by len_simpl.
    + by rewrite length_insert.
    + rewrite <-(rep_perm _ _ _ _ R), <-app_assoc. done.
    + apply (linked_push_back (nxt c)); [..|by apply (rep_al_next _ _ _ _ R)| | |].
      * rewrite app_comm_cons. apply NoDup_app. split; [done|].
        split; [|apply NoDup_singleton].
        intros a Ha. rewrite list_elem_of_singleton. intros ->.
        apply elem_of_cons in Ha as [?|Ha]; [lia|]. by apply (Hal x).
      * fold p. by store_simpl.
      * by store_simpl.
      * fold p. intros a Ha Hne.
        assert (a ≠ x ∧ a ≠ 1%N) as [??].
        { apply elem_of_cons in Ha as [->|Ha]; [lia|].
          pose proof (rep_range_al R a Ha). split; [by apply Hal|lia]. }
        by store_simpl.
    + rewrite reverse_snoc. apply (linked_push_front (prv c));
        [by apply (rep_al_prev _ _ _ _ R)| | |].
      * by store_simpl.
      * rewrite hd_or_reverse. fold p. by store_simpl.
      * intros a Ha. rewrite elem_of_reverse in Ha.
        pose proof (rep_range_al R a Ha). pose proof (Hal a Ha).
        by store_simpl.
    + apply (linked_pop_front (nxt c) _ _ _ x);
        [by apply (rep_fl_next _ _ _ _ R)| |].
      * fold y. by store_simpl.
      * intros a Ha. pose proof (rep_range_fl R a ltac:(set_solver)).
        pose proof (Hfl a Ha). pose proof (Hpfl a ltac:(set_solver)).
        by store_simpl.
    + intros a [->|Ha]%elem_of_cons.
      * by store_simpl.
      * pose proof (rep_range_fl R a ltac:(set_solver)).
        pose proof (Hfl a Ha). pose proof (Hpfl a ltac:(set_solver)).
        store_simpl. apply (rep_fl_prev _ _ _ _ R). set_solver.
  - reflexivity.
Qed.

(** ** Taking an occupied cell out of the occupied list

    The first two writes of [free_index] and of [rejuvenate_index]:
    [cells[prev].next = next; cells[next].prev = prev]. *)
Section unlink.
Context {n : N} {c : list dchain_cell_t} {ts : list Z} {l1 l2 fl : list N} {x : N}.
Context (R : rep n {| cells := c; timestamps := ts |} (l1 ++ x :: l2) fl).

Local Abbreviation p := (last_or 0%N l1).
Local Abbreviation q := (hd_or 0%N l2).
Local Abbreviation c2 := (upd_prev q p (upd_next p q c)).

Lemma unlink_prv : prv c x = p.
Proof.
  pose proof (rep_al_prev _ _ _ _ R) as H. rewrite reverse_mid in H.
  apply linked_ring_at in H as [_ H']. by rewrite hd_or_reverse in H'.
Qed.
Lemma unlink_nxt : nxt c x = q.
Proof. pose proof (rep_al_next _ _ _ _ R) as H. by apply linked_ring_at in H as [_ H']. Qed.

Lemma unlink_x_range : (2 ≤ x < n + 2)%N.
Proof. apply (rep_range_al R). set_solver. Qed.

Lemma unlink_p_elem : p = 0%N ∧ l1 = [] ∨ p ∈ l1.
Proof. apply last_or_elem. Qed.
Lemma unlink_q_elem : q = 0%N ∧ l2 = [] ∨ q ∈ l2.
Proof. apply hd_or_elem. Qed.

Lemma unlink_NoDup : NoDup (0%N :: l1 ++ x :: l2).
Proof. apply (rep_NoDup_al R). Qed.

Lemma unlink_l1_x a : a ∈ l1 → a ≠ x.
Proof.
  pose proof unlink_NoDup as [_ (_ & H & _)%NoDup_app]%NoDup_cons.
  intros Ha Heq. apply (H a Ha). set_solver.
Qed.
Lemma unlink_l2_x a : a ∈ l2 → a ≠ x.
Proof.
  pose proof unlink_NoDup as [_ (_ & _ & [H _]%NoDup_cons)%NoDup_app]%NoDup_cons.
  by intros Ha ->.
Qed.
Lemma unlink_l1_l2 a : a ∈ l1 → a ∈ l2 → False.
Proof.
  pose proof unlink_NoDup as [_ (_ & H & _)%NoDup_app]%NoDup_cons.
  intros Ha Hb. apply (H a Ha). set_solver.
Qed.

Lemma unlink_p_range : (p < n + 2)%N ∧ p ≠ 1%N ∧ p ≠ x.
Proof.
  destruct unlink_p_elem as [[-> _]|H].
  - pose proof unlink_x_range. lia.
  - pose proof (rep_range_al R p ltac:(set_solver)).
    pose proof (unlink_l1_x p H). lia.
Qed.
Lemma unlink_q_range : (q < n + 2)%N ∧ q ≠ 1%N ∧ q ≠ x.
Proof.
  destruct unlink_q_elem as [[-> _]|H].
  - pose proof unlink_x_range. lia.
  - pose proof (rep_range_al R q ltac:(set_solver)).
    pose proof (unlink_l2_x q H). lia.
Qed.

(** [prev == next] on an occupied cell: it is the only occupied cell. *)
Lemma unlink_sole : p = q → p = 0%N ∧ l1 = [] ∧ l2 = [].
Proof.
  intros Heq.
  destruct unlink_p_elem as [[? ?]|Hp], unlink_q_elem as [[? ?]|Hq]; [done|..].
  - pose proof (rep_range_al R q ltac:(set_solver)). lia.
  - pose proof (rep_range_al R p ltac:(set_solver)). lia.
  - destruct (unlink_l1_l2 p); [done|by rewrite Heq].
Qed.

Lemma unlink_fl a : a ∈ 1%N :: fl → a ≠ p ∧ a ≠ q ∧ a ≠ x ∧ a ≠ 0%N.
Proof.
  intros Ha.
  assert (a = 1%N ∨ a ∈ fl) as [->|Hfl] by set_solver.
  { pose proof unlink_p_range. pose proof unlink_q_range.
    pose proof unlink_x_range. lia. }
  pose proof (rep_range_fl R a Hfl).
  repeat split; [| | |lia].
  - intros ->. destruct unlink_p_elem as [[? ?]|Hp]; [lia|].
    apply (rep_disjoint R p); [set_solver|done].
  - intros ->. destruct unlink_q_elem as [[? ?]|Hq]; [lia|].
    apply (rep_disjoint R q); [set_solver|done].
  - intros ->. apply (rep_disjoint R x); [set_solver|done].
Qed.

Lemma unlink_al a : a ∈ 0%N :: l1 ++ l2 → (a < n + 2)%N ∧ a ≠ x ∧ a ≠ 1%N.
Proof.
  intros Ha.
  assert (a = 0%N ∨ a ∈ l1 ∨ a ∈ l2) as [->|[H|H]] by set_solver.
  - pose proof unlink_x_range. lia.
  - pose proof (rep_range_al R a ltac:(set_solver)).
    pose proof (unlink_l1_x a H). lia.
  - pose proof (rep_range_al R a ltac:(set_solver)).
    pose proof (unlink_l2_x a H). lia.
Qed.

Lemma unlink_nexts : linked (nxt c2) (0%N :: (l1 ++ l2) ++ [0%N]).
Proof.
  pose proof (rep_cells _ _ _ _ R) as Hlen. cbn in Hlen.
  pose proof unlink_p_range as (Hp1 & Hp2 & Hp3).
  apply (linked_unlink (nxt c) _ _ _ x);
    [apply unlink_NoDup | apply (rep_al_next _ _ _ _ R) | |].
  - by store_simpl.
  - intros a Ha Hne. by store_simpl.
Qed.

Lemma unlink_prevs : linked (prv c2) (0%N :: reverse (l1 ++ l2) ++ [0%N]).
Proof.
  pose proof (rep_cells _ _ _ _ R) as Hlen. cbn in Hlen.
  pose proof unlink_q_range as (Hq1 & Hq2 & Hq3).
  rewrite reverse_app.
  apply (linked_unlink (prv c) _ _ _ x).
  - pose proof unlink_NoDup as Hnd. apply NoDup_cons in Hnd as [H1 H2].
    rewrite <-reverse_mid. apply NoDup_cons. split.
    + by rewrite elem_of_reverse.
    + by rewrite reverse_Permutation.
  - pose proof (rep_al_prev _ _ _ _ R) as Hprev. by rewrite reverse_mid in Hprev.
  - rewrite last_or_reverse, hd_or_reverse. by store_simpl.
  - intros a Ha Hne. rewrite last_or_reverse in Hne.
    by store_simpl.
Qed.

Lemma unlink_frame_nxt a : a ≠ p → nxt c2 a = nxt c a.
Proof. intros. by store_simpl. Qed.
End unlink.

Lemma elem_of_split_list (x : N) (l : list N) :
  x ∈ l → ∃ l1 l2, l = l1 ++ x :: l2.
Proof. apply list_elem_of_split. Qed.

(** ** free_index *)

Lemma free_index_occupied n d l1 x l2 fl :
  rep n d (l1 ++ x :: l2) fl →
  ∃ d', free_index (x - 2) d = Ok (true, d') ∧
        rep n d' (l1 ++ l2) (x :: fl) ∧
        timestamps d' = timestamps d.
Proof.
  intros R. destruct d as [c ts].
  pose proof (rep_cap _ _ _ _ R) as Hcap.
  pose proof (rep_cells _ _ _ _ R) as Hlen.
  pose proof (unlink_x_range R) as Hx.
  pose proof (unlink_p_range R) as (Hp1 & Hp2 & Hp3).
  pose proof (unlink_q_range R) as (Hq1 & Hq2 & Hq3).
  pose proof (unlink_prv R) as Hprv. pose proof (unlink_nxt R) as Hnxt.
  pose proof (unlink_sole R) as Hsole.
  pose proof (rep_hd_range_fl R fl ltac:(set_solver)) as Hh.
  pose proof (linked_ring_head _ _ _ (rep_fl_next _ _ _ _ R)) as H1.
  cbn in Hlen, H1.
  set (p := last_or 0%N l1) in *. set (q := hd_or 0%N l2) in *.
  set (h := hd_or 1%N fl) in *.
  eexists. split; [|split].
  - unfold free_index, FREE_LIST_HEAD, ALLOC_LIST_HEAD, INDEX_SHIFT,
      DCHAIN_RESERVED. cbn [cells timestamps].
    rewrite u64_add_small by lia. replace (x - 2 + 2)%N with x by lia.
    do 3 step. rewrite Hprv, Hnxt.
    replace ((q =? p)%N && negb (p =? 0)%N) with false.
    2:{ symmetry. apply andb_false_iff. destruct (N.eqb_spec q p) as [Heq|]; [|by left].
        right. destruct (Hsole (eq_sym Heq)) as [-> _]. done. }
    repeat (step; store_simpl; rewrite ?H1).
    reflexivity.
  - constructor; cbn [cells timestamps].
    + done.
    + by len_simpl.
    + apply (rep_ts _ _ _ _ R).
    + rewrite <-(rep_perm _ _ _ _ R), <-!app_assoc. cbn [app].
      by rewrite Permutation_middle.
    + rewrite app_comm_cons. apply (linked_frame (nxt (upd_prev q p (upd_next p q c))));
        [|apply (unlink_nexts R)].
      intros a Ha. pose proof (unlink_al R a Ha) as (? & ? & ?). by store_simpl.
    + rewrite app_comm_cons. apply (linked_frame (prv (upd_prev q p (upd_next p q c))));
        [|apply (unlink_prevs R)].
      intros a Ha. rewrite elem_of_cons, elem_of_reverse, <-elem_of_cons in Ha.
      pose proof (unlink_al R a Ha) as (? & ? & ?). by store_simpl.
    + apply (linked_push_front (nxt c)); [apply (rep_fl_next _ _ _ _ R)| | |].
      * by store_simpl.
      * fold h. by store_simpl.
      * intros a Ha. pose proof (unlink_fl R a ltac:(set_solver)) as (? & ? & ? & ?).
        pose proof (rep_range_fl R a Ha). by store_simpl.
    + intros a Ha.
      assert (a = 1%N ∨ a = x ∨ a ∈ fl) as [->|[->|Hfl]] by set_solver.
      * by store_simpl.
      * by store_simpl.
      * pose proof (unlink_fl R a ltac:(set_solver)) as (? & ? & ? & ?).
        pose proof (rep_range_fl R a Hfl). store_simpl.
        apply (rep_fl_prev _ _ _ _ R). set_solver.
  - reflexivity.
Qed.

Lemma free_index_free n d al fl x :
  rep n d al fl → x ∈ fl →
  free_index (x - 2) d = Ok (false, d).
Proof.
  intros R Hin. destruct d as [c ts].
  pose proof (rep_cap _ _ _ _ R) as Hcap.
  pose proof (rep_cells _ _ _ _ R) as Hlen.
  pose proof (rep_range_fl R x Hin) as Hx.
  pose proof (rep_fl_prev _ _ _ _ R x ltac:(set_solver)) as Hpn.
  destruct (elem_of_split_list x fl Hin) as (f1 & f2 & ->).
  pose proof (rep_fl_next _ _ _ _ R) as H. apply linked_ring_at in H as [_ Hn].
  pose proof (rep_hd_range_fl R f2 ltac:(set_solver)) as Hh.
  cbn in Hlen, Hpn, Hn.
  unfold free_index, FREE_LIST_HEAD, ALLOC_LIST_HEAD, INDEX_SHIFT,
    DCHAIN_RESERVED. cbn [cells timestamps].
  rewrite u64_add_small by lia. replace (x - 2 + 2)%N with x by lia.
  do 3 step. rewrite Hpn, Hn, N.eqb_refl.
  by rewrite (proj2 (N.eqb_neq (hd_or 1%N f2) 0%N)) by lia.
Qed.

(** ** rejuvenate_index *)

Lemma rejuvenate_index_free n d al fl x time :
  rep n d al fl → x ∈ fl →
  rejuvenate_index (x - 2) time d = Ok (false, d).
Proof.
  intros R Hin. destruct d as [c ts].
  pose proof (rep_cap _ _ _ _ R) as Hcap.
  pose proof (rep_cells _ _ _ _ R) as Hlen.
  pose proof (rep_range_fl R x Hin) as Hx.
  pose proof (rep_fl_prev _ _ _ _ R x ltac:(set_solver)) as Hpn.
  destruct (elem_of_split_list x fl Hin) as (f1 & f2 & ->).
  pose proof (rep_fl_next _ _ _ _ R) as H. apply linked_ring_at in H as [_ Hn].
  pose proof (rep_hd_range_fl R f2 ltac:(set_solver)) as Hh.
  cbn in Hlen, Hpn, Hn.
  unfold rejuvenate_index, FREE_LIST_HEAD, ALLOC_LIST_HEAD, INDEX_SHIFT,
    DCHAIN_RESERVED. cbn [cells timestamps].
  rewrite u64_add_small by lia. replace (x - 2 + 2)%N with x by lia.
  do 3 step. rewrite Hpn, Hn, N.eqb_refl.
  by rewrite (proj2 (N.eqb_neq (hd_or 1%N f2) 0%N)) by lia.
Qed.

(** The only occupied slot: the call returns [true] and writes nothing, not
    even the timestamp. *)
Lemma rejuvenate_index_sole n d fl x time :
  rep n d [x] fl →
  rejuvenate_index (x - 2) time d = Ok (true, d).
Proof.
  intros R. destruct d as [c ts].
  pose proof (rep_cap _ _ _ _ R) as Hcap.
  pose proof (rep_cells _ _ _ _ R) as Hlen.
  pose proof (unlink_x_range (l1 := []) R) as Hx.
  pose proof (unlink_prv (l1 := []) R) as Hprv.
  pose proof (unlink_nxt (l1 := []) R) as Hnxt.
  cbn in Hlen, Hprv, Hnxt.
  unfold rejuvenate_index, FREE_LIST_HEAD, ALLOC_LIST_HEAD, INDEX_SHIFT,
    DCHAIN_RESERVED. cbn [cells timestamps].
  rewrite u64_add_small by lia. replace (x - 2 + 2)%N with x by lia.
  do 3 step. by rewrite Hprv, Hnxt.
Qed.

Lemma rejuvenate_index_occupied n d l1 x l2 fl time :
  rep n d (l1 ++ x :: l2) fl → l1 ++ l2 ≠ [] →
  ∃ d', rejuvenate_index (x - 2) time d = Ok (true, d') ∧
        rep n d' ((l1 ++ l2) ++ [x]) fl ∧
        timestamps d' = <[N.to_nat (x - 2) := time]> (timestamps d).
Proof.
  intros R Hne. destruct d as [c ts].
  pose proof (rep_cap _ _ _ _ R) as Hcap.
  pose proof (rep_cells _ _ _ _ R) as Hlen.
  pose proof (rep_ts _ _ _ _ R) as Hts.
  pose proof (unlink_x_range R) as Hx.
  pose proof (unlink_p_range R) as (Hp1 & Hp2 & Hp3).
  pose proof (unlink_q_range R) as (Hq1 & Hq2 & Hq3).
  pose proof (unlink_prv R) as Hprv. pose proof (unlink_nxt R) as Hnxt.
  pose proof (unlink_sole R) as Hsole.
  pose proof (unlink_nexts R) as Hnexts. pose proof (unlink_prevs R) as Hprevs.
  cbn in Hlen, Hts.
  set (p := last_or 0%N l1) in *. set (q := hd_or 0%N l2) in *.
  set (c2 := upd_prev q p (upd_next p q c)) in *.
  assert (length c2 = length c) as Hlen2 by (subst c2; by len_simpl).
  set (r := last_or 0%N (l1 ++ l2)).
  assert (prv c2 0%N = r) as Hr.
  { apply linked_ring_head in Hprevs. by rewrite hd_or_reverse in Hprevs. }
  assert (r ∈ l1 ++ l2) as Hrin.
  { subst r. destruct (last_or_elem 0%N (l1 ++ l2)) as [[_ ?]|?]; done. }
  pose proof (unlink_al R r ltac:(set_solver)) as (Hr1 & Hr2 & Hr3).
  assert (q ≠ p) as Hqp.
  { intros Heq. destruct (Hsole (eq_sym Heq)) as (_ & -> & ->). done. }
  eexists. split; [|split].
  - unfold rejuvenate_index, FREE_LIST_HEAD, ALLOC_LIST_HEAD, INDEX_SHIFT,
      DCHAIN_RESERVED. cbn [cells timestamps].
    rewrite u64_add_small by lia. replace (x - 2 + 2)%N with x by lia.
    do 3 step. rewrite Hprv, Hnxt.
    rewrite (proj2 (N.eqb_neq q p)) by done.
    do 6 step. fold c2. rewrite Hr.
    repeat step. reflexivity.
  - constructor; cbn [cells timestamps].
    + done.
    + len_simpl. lia.
    + by len_simpl.
    + rewrite <-(rep_perm _ _ _ _ R), <-!app_assoc. cbn [app].
      apply Permutation_app_head. by rewrite <-Permutation_middle.
    + apply (linked_push_back (nxt c2)); [|done|..].
      * pose proof (unlink_NoDup R) as Hnd.
        assert ((l1 ++ l2) ++ [x] ≡ₚ l1 ++ x :: l2) as ->; [|done].
        rewrite <-app_assoc. apply Permutation_app_head.
        symmetry. apply Permutation_cons_append.
      * fold r. by store_simpl.
      * by store_simpl.
      * fold r. intros a Ha Har. pose proof (unlink_al R a Ha) as (? & ? & ?).
        by store_simpl.
    + rewrite reverse_snoc. apply (linked_push_front (prv c2)); [done|..].
      * by store_simpl.
      * rewrite hd_or_reverse. fold r. by store_simpl.
      * intros a Ha. rewrite elem_of_reverse in Ha.
        pose proof (unlink_al R a ltac:(set_solver)) as (? & ? & ?).
        assert (a ≠ 0%N).
        { intros ->. pose proof (unlink_NoDup R) as [Hz _]%NoDup_cons.
          apply Hz. set_solver. }
        by store_simpl.
    + apply (linked_frame' (nxt c)); [|apply (rep_fl_next _ _ _ _ R)].
      intros a Ha. pose proof (unlink_fl R a Ha) as (? & ? & ? & ?).
      assert (a ≠ r).
      { intros ->. pose proof (rep_disjoint R r) as Hd.
        assert (r = 1%N ∨ r ∈ fl) as [?|?] by set_solver; [done|].
        apply Hd; [set_solver|done]. }
      store_simpl. by apply (unlink_frame_nxt).
    + intros a Ha. pose proof (unlink_fl R a Ha) as (? & ? & ? & ?).
      assert (a ≠ r).
      { intros ->. pose proof (rep_disjoint R r) as Hd.
        assert (r = 1%N ∨ r ∈ fl) as [?|?] by set_solver; [done|].
        apply Hd; [set_solver|done]. }
      store_simpl. subst c2. store_simpl. by apply (rep_fl_prev _ _ _ _ R).
  - reflexivity.
Qed.

(** ** is_index_allocated, get_oldest_index, expire_one_index *)

Lemma is_index_allocated_spec n d al fl s :
  rep n d al fl → (s < n)%N →
  is_index_allocated s d = Ok (bool_decide (s + 2 ∈ al)%N).
Proof.
  intros R Hs. pose proof (rep_cap _ _ _ _ R) as Hcap.
  pose proof (rep_cells _ _ _ _ R) as Hlen.
  unfold is_index_allocated, ALLOC_LIST_HEAD, INDEX_SHIFT, DCHAIN_RESERVED.
  rewrite u64_add_small by lia. set (x := (s + 2)%N) in *.
  destruct (rep_slot R x ltac:(lia)) as [Hin|Hin].
  - rewrite bool_decide_eq_true_2 by done.
    destruct (elem_of_split_list x al Hin) as (l1 & l2 & ->).
    destruct d as [c ts]. cbn [cells] in *.
    pose proof (unlink_prv R) as Hprv. pose proof (unlink_nxt R) as Hnxt.
    pose proof (unlink_sole R) as Hsole.
    do 3 step. rewrite Hprv, Hnxt.
    destruct (N.eqb_spec (hd_or 0%N l2) (last_or 0%N l1)) as [Heq|]; [|done].
    destruct (Hsole (eq_sym Heq)) as (Hp & _). rewrite Heq, Hp. done.
  - rewrite bool_decide_eq_false_2 by (intros ?; by apply (rep_disjoint R x)).
    pose proof (rep_fl_prev _ _ _ _ R x ltac:(set_solver)) as Hpn.
    destruct (elem_of_split_list x fl Hin) as (f1 & f2 & ->).
    pose proof (rep_fl_next _ _ _ _ R) as H. apply linked_ring_at in H as [_ Hn].
    pose proof (rep_hd_range_fl R f2 ltac:(set_solver)) as Hh.
    do 3 step. rewrite Hpn, Hn, N.eqb_refl.
    by rewrite (proj2 (N.eqb_neq (hd_or 1%N f2) 0%N)) by lia.
Qed.

Lemma get_oldest_index_spec n d al fl index_out :
  rep n d al fl →
  get_oldest_index index_out d =
    Ok (match al with
        | [] => (false, index_out)
        | x :: _ => (true, (x - 2)%N)
        end).
Proof.
  intros R. pose proof (rep_cap _ _ _ _ R) as Hcap.
  pose proof (rep_cells _ _ _ _ R) as Hlen.
  pose proof (linked_ring_head _ _ _ (rep_al_next _ _ _ _ R)) as H.
  unfold get_oldest_index, ALLOC_LIST_HEAD, INDEX_SHIFT, DCHAIN_RESERVED.
  do 2 step. rewrite H. destruct al as [|x al]; [done|]. cbn.
  pose proof (rep_range_al R x ltac:(set_solver)).
  rewrite (proj2 (N.eqb_neq x 0%N)) by lia. by rewrite u64_sub_small by lia.
Qed.

Lemma expire_one_index_empty n d fl time index_out :
  rep n d [] fl →
  expire_one_index time index_out d = Ok (false, index_out, d).
Proof.
  intros R. unfold expire_one_index.
  by rewrite (get_oldest_index_spec _ _ _ _ _ R).
Qed.

(** With an occupied slot and no overflow in [time - EXPIRATION_TIME_NS]:
    the oldest slot is freed exactly when its timestamp is below the
    threshold. *)
Lemma expire_one_index_oldest n d x al fl time index_out :
  rep n d (x :: al) fl →
  (I64_MIN ≤ time - EXPIRATION_TIME_NS ≤ I64_MAX)%Z →
  ∃ t, timestamps d !! N.to_nat (x - 2) = Some t ∧
    if bool_decide (t < time - EXPIRATION_TIME_NS)%Z then
      ∃ d', expire_one_index time index_out d = Ok (true, (x - 2)%N, d') ∧
            free_index (x - 2) d = Ok (true, d') ∧
            rep n d' al (x :: fl) ∧ timestamps d' = timestamps d
    else expire_one_index time index_out d = Ok (false, (x - 2)%N, d).
Proof.
  intros R Htime.
  pose proof (rep_range_al R x ltac:(set_solver)) as Hx.
  pose proof (rep_ts _ _ _ _ R) as Hts.
  destruct (inb_lookup (timestamps d) (x - 2)%N) as [t Ht].
  { unfold inb. lia. }
  exists t. split; [done|].
  assert (expire_one_index time index_out d =
            if bool_decide (t < time - EXPIRATION_TIME_NS)%Z
            then '(r, d0) ← free_index (x - 2) d; Ok (r, (x - 2)%N, d0)
            else Ok (false, (x - 2)%N, d)) as ->.
  { unfold expire_one_index. rewrite (get_oldest_index_spec _ _ _ _ _ R).
    rewrite bind_Ok. cbv beta iota. unfold at_. rewrite Ht, bind_Ok.
    unfold i64_sub. cbv zeta.
    by rewrite bool_decide_eq_true_2. }
  destruct (bool_decide (t < time - EXPIRATION_TIME_NS)%Z) eqn:E; [|done].
  destruct (free_index_occupied n d [] x al fl R) as (d' & Hfree & R' & Hts').
  exists d'. by rewrite Hfree.
Qed.

(** ** The constructor *)

Lemma lookup_fields (c : list dchain_cell_t) i :
  inb c i → c !! N.to_nat i = Some {| prev := prv c i; next := nxt c i |}.
Proof.
  intros [[] Hx]%inb_lookup. unfold prv, nxt. by rewrite Hx.
Qed.

(** The loop threads the free list through the cells [i .. n]: it stops at
    [i = n + 1] and leaves the other cells as they were. *)
Lemma ctor_loop_spec n fuel i c :
  (n + 2 < U64_MOD)%N → (2 ≤ i ≤ n + 1)%N →
  length c = N.to_nat n + 2 →
  N.to_nat (n + 1 - i) < fuel →
  ∃ c', ctor_loop fuel n i c = Ok ((n + 1)%N, c') ∧
        length c' = length c ∧
        (∀ j, (j < i ∨ n + 1 ≤ j)%N → nxt c' j = nxt c j ∧ prv c' j = prv c j) ∧
        (∀ j, (i ≤ j < n + 1)%N → nxt c' j = (j + 1)%N ∧ prv c' j = (j + 1)%N).
Proof.
  intros Hcap. revert i c.
  induction fuel as [|fuel IH]; intros i c Hi Hlen Hfuel; [lia|].
  cbn [ctor_loop]. unfold INDEX_SHIFT, DCHAIN_RESERVED.
  rewrite (u64_add_small n) by lia. rewrite u64_sub_small by lia.
  replace (n + 2 - 1)%N with (n + 1)%N by lia.
  destruct (N.ltb_spec i (n + 1)) as [Hlt|Hge].
  - rewrite u64_add_small by lia.
    do 3 step. store_simpl.
    destruct (IH (i + 1)%N (upd_prev i (i + 1) (upd_next i (i + 1) c)))
      as (c' & Hrun & Hlen' & Hout & Hin); [lia|by len_simpl|lia|].
    exists c'. split; [done|]. split; [by rewrite Hlen'; len_simpl|]. split.
    + intros j Hj. destruct (Hout j ltac:(lia)) as [-> ->].
      split; by store_simpl.
    + intros j Hj. destruct (decide (j = i)) as [->|Hne].
      * destruct (Hout i ltac:(lia)) as [-> ->]. split; by store_simpl.
      * apply Hin. lia.
  - assert (i = (n + 1)%N) as -> by lia.
    exists c. split; [done|]. split; [done|]. split; [done|]. intros; lia.
Qed.

Lemma linked_slots f (z : N) (m k : nat) :
  (∀ j, m ≤ j → S j < m + k → f (N.of_nat j + 2)%N = (N.of_nat (S j) + 2)%N) →
  (0 < k → f (N.of_nat (m + k - 1) + 2)%N = z) →
  linked f (((λ j, N.of_nat j + INDEX_SHIFT)%N <$> seq m k) ++ [z]).
Proof.
  unfold INDEX_SHIFT, DCHAIN_RESERVED.
  revert m. induction k as [|k IH]; intros m Hstep Hlast; [apply linked_one|].
  cbn [seq fmap list_fmap app].
  assert (linked f (((λ j, N.of_nat j + 2)%N <$> seq (S m) k) ++ [z])) as Htl.
  { apply IH.
    - intros j ??. apply Hstep; lia.
    - intros ?. replace (S m + k - 1) with (m + S k - 1) by lia. apply Hlast. lia. }
  destruct k as [|k].
  - cbn. split; [|done]. replace m with (m + 1 - 1) at 1 by lia. apply Hlast. lia.
  - cbn [seq fmap list_fmap app] in *. rewrite linked_cons. split; [|done].
    apply Hstep; lia.
Qed.

Lemma DoubleChain_ctor_spec n :
  (1 ≤ n)%N → (n + 2 < U64_MOD)%N →
  ∃ d, DoubleChain_ctor n = Ok d ∧
       rep n d [] (slot_cells n) ∧
       timestamps d = replicate (N.to_nat n) 0%Z ∧
       nxt (cells d) 0 = 0%N ∧ prv (cells d) 0 = 0%N ∧
       nxt (cells d) 1 = 2%N ∧ prv (cells d) 1 = 2%N ∧
       (∀ j, (2 ≤ j < n + 1)%N →
             nxt (cells d) j = (j + 1)%N ∧ prv (cells d) j = (j + 1)%N) ∧
       nxt (cells d) (n + 1) = 1%N ∧ prv (cells d) (n + 1) = 1%N.
Proof.
  intros Hn Hcap. unfold DoubleChain_ctor, ALLOC_LIST_HEAD, FREE_LIST_HEAD,
    INDEX_SHIFT, DCHAIN_RESERVED.
  rewrite u64_add_small by lia.
  set (c0 := replicate (N.to_nat (n + 2)) zero_cell).
  assert (length c0 = N.to_nat n + 2) as Hlen0.
  { subst c0. rewrite length_replicate. lia. }
  do 5 step. store_simpl.
  set (c1 := upd_prev 1 2 (upd_next 1 2 (upd_next 0 0 (upd_prev 0 0 c0)))).
  assert (length c1 = N.to_nat n + 2) as Hlen1 by (subst c1; by len_simpl).
  destruct (ctor_loop_spec n (S (N.to_nat n)) 2 c1)
    as (c2 & -> & Hlen2 & Hout & Hin); [done|lia|done|lia|].
  rewrite bind_Ok. cbv beta iota.
  assert (length c2 = N.to_nat n + 2) as Hlen2' by lia.
  do 3 step. store_simpl.
  set (c3 := upd_prev (n + 1) 1 (upd_next (n + 1) 1 c2)).
  assert (nxt c3 0 = 0%N ∧ prv c3 0 = 0%N) as [Hn0 Hp0].
  { subst c3. store_simpl. destruct (Hout 0%N ltac:(lia)) as [-> ->].
    subst c1. by store_simpl. }
  assert (nxt c3 1 = 2%N ∧ prv c3 1 = 2%N) as [Hn1 Hp1].
  { subst c3. store_simpl. destruct (Hout 1%N ltac:(lia)) as [-> ->].
    subst c1. by store_simpl. }
  assert (∀ j, (2 ≤ j < n + 1)%N → nxt c3 j = (j + 1)%N ∧ prv c3 j = (j + 1)%N) as Hmid.
  { intros j Hj. subst c3. store_simpl. by apply Hin. }
  assert (nxt c3 (n + 1) = 1%N ∧ prv c3 (n + 1) = 1%N) as [Hnl Hpl].
  { subst c3. by store_simpl. }
  eexists. split; [done|]. cbn [cells timestamps].
  split; [|done].
  constructor; cbn [cells timestamps].
  - done.
  - subst c3. by len_simpl.
  - by rewrite length_replicate.
  - done.
  - cbn. by rewrite Hn0.
  - cbn. by rewrite Hp0.
  - rewrite app_comm_cons.
    change (1%N :: slot_cells n) with
      (1%N :: ((λ j, N.of_nat j + INDEX_SHIFT)%N <$> seq 0 (N.to_nat n))).
    destruct (N.to_nat n) as [|k] eqn:Ek; [lia|].
    cbn [seq fmap list_fmap app]. unfold INDEX_SHIFT at 1, DCHAIN_RESERVED.
    rewrite linked_cons. split; [done|].
    apply (linked_slots (nxt c3) 1%N 0 (S k)).
    + intros j _ Hj. replace (N.of_nat (S j) + 2)%N with (N.of_nat j + 2 + 1)%N by lia.
      apply Hmid. lia.
    + intros _. replace (N.of_nat (0 + S k - 1) + 2)%N with (n + 1)%N by lia. done.
  - intros a [->|Ha%elem_of_slot_cells]%elem_of_cons.
    + by rewrite Hn1, Hp1.
    + destruct (decide (a = (n + 1)%N)) as [->|]; [by rewrite Hnl, Hpl|].
      destruct (Hmid a ltac:(lia)) as [-> ->]. done.
Qed.

Lemma expire_one_index_overflow n d x al fl time index_out :
  rep n d (x :: al) fl →
  ¬ (I64_MIN ≤ time - EXPIRATION_TIME_NS ≤ I64_MAX)%Z →
  expire_one_index time index_out d = Err SignedOverflow.
Proof.
  intros R Htime.
  pose proof (rep_range_al R x ltac:(set_solver)) as Hx.
  pose proof (rep_ts _ _ _ _ R) as Hts.
  destruct (inb_lookup (timestamps d) (x - 2)%N) as [t Ht].
  { unfold inb. lia. }
  unfold expire_one_index. rewrite (get_oldest_index_spec _ _ _ _ _ R).
  rewrite bind_Ok. cbv beta iota. unfold at_. rewrite Ht, bind_Ok.
  unfold i64_sub. cbv zeta. by rewrite bool_decide_eq_false_2.
Qed.

(** ** The lists read off the cells are the lists of the invariant *)

Lemma walk_linked c z fuel l :
  linked (nxt c) (l ++ [z]) →
  (∀ a, a ∈ l → a ≠ z ∧ inb c a) →
  length l ≤ fuel →
  walk fuel c z (hd_or z l) = Some l.
Proof.
  revert fuel. induction l as [|a l IH]; intros fuel Hl Hin Hfuel.
  - destruct fuel; cbn; by rewrite N.eqb_refl.
  - destruct fuel as [|fuel]; [cbn in Hfuel; lia|].
    destruct (Hin a ltac:(set_solver)) as [Hne Hinb].
    change (hd_or z (a :: l)) with a. cbn [walk].
    rewrite (proj2 (N.eqb_neq a z)) by done.
    rewrite (lookup_fields c a Hinb). cbn [next].
    rewrite (linked_head _ _ _ _ Hl), IH; [done|..].
    + by apply linked_tail in Hl.
    + intros b Hb. apply Hin. set_solver.
    + cbn in Hfuel. lia.
Qed.

Lemma rep_occupied_list n d al fl : rep n d al fl → occupied_list d = Some al.
Proof.
  intros R. pose proof (rep_cells _ _ _ _ R) as Hlen.
  unfold occupied_list, list_from, ALLOC_LIST_HEAD.
  rewrite (lookup_fields (cells d) 0%N) by (unfold inb; lia). cbn [next].
  rewrite (linked_ring_head _ _ _ (rep_al_next _ _ _ _ R)).
  apply walk_linked.
  - pose proof (rep_al_next _ _ _ _ R) as H. by apply linked_tail in H.
  - intros a Ha%(rep_range_al R). unfold inb. lia.
  - pose proof (rep_length R). lia.
Qed.

Lemma rep_free_list n d al fl : rep n d al fl → free_list d = Some fl.
Proof.
  intros R. pose proof (rep_cells _ _ _ _ R) as Hlen.
  unfold free_list, list_from, FREE_LIST_HEAD.
  rewrite (lookup_fields (cells d) 1%N) by (unfold inb; lia). cbn [next].
  rewrite (linked_ring_head _ _ _ (rep_fl_next _ _ _ _ R)).
  apply walk_linked.
  - pose proof (rep_fl_next _ _ _ _ R) as H. by apply linked_tail in H.
  - intros a Ha%(rep_range_fl R). unfold inb. lia.
  - pose proof (rep_length R). lia.
Qed.

(** ** Every operation keeps the invariant *)

Lemma bind_Ok_inv {A B} (r : result A) (k : A → result B) b :
  r ≫= k = Ok b → ∃ a, r = Ok a ∧ k a = Ok b.
Proof. destruct r as [a|]; [|done]. intros H. by exists a. Qed.

Lemma run_op_rep n d al fl op d' :
  rep n d al fl → op_slot_ok n op → run_op op d = Ok d' →
  ∃ al' fl', rep n d' al' fl'.
Proof.
  intros R Hop Hrun. destruct op as [now|slot now|slot|now]; cbn in Hop, Hrun.
  - destruct fl as [|x fl].
    + rewrite (allocate_new_index_full _ _ _ _ _ R) in Hrun.
      injection Hrun as <-. eauto.
    + destruct (allocate_new_index_spec _ _ _ _ _ now 0%N R) as (d1 & Hd1 & R1 & _).
      rewrite Hd1 in Hrun. injection Hrun as <-. eauto.
  - replace slot with (slot + 2 - 2)%N in Hrun by lia.
    destruct (rep_slot R (slot + 2)%N ltac:(lia)) as [Hin|Hin].
    + destruct (elem_of_split_list _ _ Hin) as (l1 & l2 & ->).
      destruct (decide (l1 ++ l2 = [])) as [Hnil|Hne].
      * apply app_eq_nil in Hnil as [-> ->].
        rewrite (rejuvenate_index_sole _ _ _ _ _ R) in Hrun.
        injection Hrun as <-. eauto.
      * destruct (rejuvenate_index_occupied _ _ _ _ _ _ now R Hne) as (d1 & Hd1 & R1 & _).
        rewrite Hd1 in Hrun. injection Hrun as <-. eauto.
    + rewrite (rejuvenate_index_free _ _ _ _ _ _ R Hin) in Hrun.
      injection Hrun as <-. eauto.
  - replace slot with (slot + 2 - 2)%N in Hrun by lia.
    destruct (rep_slot R (slot + 2)%N ltac:(lia)) as [Hin|Hin].
    + destruct (elem_of_split_list _ _ Hin) as (l1 & l2 & ->).
      destruct (free_index_occupied _ _ _ _ _ _ R) as (d1 & Hd1 & R1 & _).
      rewrite Hd1 in Hrun. injection Hrun as <-. eauto.
    + rewrite (free_index_free _ _ _ _ _ R Hin) in Hrun.
      injection Hrun as <-. eauto.
  - destruct al as [|x al].
    + rewrite (expire_one_index_empty _ _ _ _ _ R) in Hrun.
      injection Hrun as <-. eauto.
    + destruct (decide (I64_MIN ≤ now - EXPIRATION_TIME_NS ≤ I64_MAX)%Z) as [Hr|Hr].
      * destruct (expire_one_index_oldest _ _ _ _ _ _ 0%N R Hr) as (t & _ & H).
        destruct (bool_decide _).
        -- destruct H as (d1 & Hd1 & _ & R1 & _). rewrite Hd1 in Hrun.
           injection Hrun as <-. eauto.
        -- rewrite H in Hrun. injection Hrun as <-. eauto.
      * by rewrite (expire_one_index_overflow _ _ _ _ _ _ _ R Hr) in Hrun.
Qed.

Lemma run_ops_rep n ops d al fl d' :
  rep n d al fl → Forall (op_slot_ok n) ops → run_ops ops d = Ok d' →
  ∃ al' fl', rep n d' al' fl'.
Proof.
  revert d al fl. induction ops as [|op ops IH]; intros d al fl R Hops Hrun.
  - injection Hrun as <-. eauto.
  - apply Forall_cons in Hops as [Hop Hops]. cbn in Hrun.
    apply bind_Ok_inv in Hrun as (d1 & Hd1 & Hrun).
    destruct (run_op_rep _ _ _ _ _ _ R Hop Hd1) as (al1 & fl1 & R1).
    by apply (IH _ _ _ R1).
Qed.

Lemma reachable_rep n d : reachable n d → ∃ al fl, rep n d al fl.
Proof.
  intros (Hn & Hcap & ops & d0 & Hops & Hctor & Hrun).
  destruct (DoubleChain_ctor_spec n Hn Hcap) as (d0' & Hctor' & R0 & _).
  rewrite Hctor in Hctor'. injection Hctor' as <-.
  by apply (run_ops_rep _ _ _ _ _ _ R0 Hops).
Qed.

(** ** Consecutive allocations *)

Lemma allocate_many_spec n fl1 : ∀ d al fl2 times,
  rep n d al (fl1 ++ fl2) → length times = length fl1 →
  ∃ d', allocate_many times d = Ok ((λ x, (true, (x - 2)%N)) <$> fl1, d') ∧
        rep n d' (al ++ fl1) fl2.
Proof.
  induction fl1 as [|x fl1 IH]; intros d al fl2 times R Hlen.
  - destruct times; [|done]. exists d. by rewrite app_nil_r.
  - destruct times as [|t times]; [done|]. cbn [allocate_many].
    destruct (allocate_new_index_spec _ _ _ _ _ t 0%N R) as (d1 & -> & R1 & _).
    rewrite bind_Ok. cbv beta iota.
    destruct (IH d1 (al ++ [x]) fl2 times R1) as (d2 & -> & R2).
    { cbn in Hlen. lia. }
    exists d2. split; [done|]. by rewrite <-app_assoc in R2.
Qed.

(** ** The most recently freed slot is the next one allocated *)

Lemma free_then_allocate n d al fl s d1 time index_out :
  rep n d al fl → (s < n)%N → free_index s d = Ok (true, d1) →
  ∃ d2, allocate_new_index time index_out d1 = Ok (true, s, d2).
Proof.
  intros R Hs Hfree. replace s with (s + 2 - 2)%N in Hfree by lia.
  destruct (rep_slot R (s + 2)%N ltac:(lia)) as [Hin|Hin].
  - destruct (elem_of_split_list _ _ Hin) as (l1 & l2 & ->).
    destruct (free_index_occupied _ _ _ _ _ _ R) as (d' & Hd' & R' & _).
    rewrite Hd' in Hfree. injection Hfree as <-.
    destruct (allocate_new_index_spec _ _ _ _ _ time index_out R') as (d2 & Hd2 & _).
    exists d2. rewrite Hd2. do 3 f_equal. lia.
  - by rewrite (free_index_free _ _ _ _ _ R Hin) in Hfree.
Qed.

Lemma free_twice n d al fl s d1 :
  rep n d al fl → (s < n)%N → free_index s d = Ok (true, d1) →
  free_index s d1 = Ok (false, d1).
Proof.
  intros R Hs Hfree. replace s with (s + 2 - 2)%N in * by lia.
  destruct (rep_slot R (s + 2)%N ltac:(lia)) as [Hin|Hin].
  - destruct (elem_of_split_list _ _ Hin) as (l1 & l2 & ->).
    destruct (free_index_occupied _ _ _ _ _ _ R) as (d' & Hd' & R' & _).
    rewrite Hd' in Hfree. injection Hfree as <-.
    apply (free_index_free _ _ _ _ _ R'). set_solver.
  - by rewrite (free_index_free _ _ _ _ _ R Hin) in Hfree.
Qed.

(** ** A failing call returns before its first write *)

Ltac inv_bind H :=
  repeat match type of H with
         | _ ≫= _ = Ok _ =>
             let a := fresh "a" in let Ha := fresh "Ha" in
             apply bind_Ok_inv in H as (a & Ha & H); cbv beta in H
         end.

Lemma allocate_new_index_false time index_out d index_out' d' :
  allocate_new_index time index_out d = Ok (false, index_out', d') → d' = d.
Proof.
  unfold allocate_new_index. intros H.
  do 3 (apply bind_Ok_inv in H as (? & _ & H)).
  destruct (_ =? _)%N; [by simplify_eq|].
  inv_bind H. done.
Qed.

Lemma rejuvenate_index_false index time d d' :
  rejuvenate_index index time d = Ok (false, d') → d' = d.
Proof.
  unfold rejuvenate_index. intros H.
  do 3 (apply bind_Ok_inv in H as (? & _ & H)).
  destruct (_ =? _)%N.
  - destruct (negb _); [by simplify_eq|done].
  - inv_bind H. done.
Qed.

Lemma free_index_false index d d' :
  free_index index d = Ok (false, d') → d' = d.
Proof.
  unfold free_index. intros H.
  do 3 (apply bind_Ok_inv in H as (? & _ & H)).
  destruct (_ && _); [by simplify_eq|].
  inv_bind H. done.
Qed.

Lemma expire_one_index_false time index_out d index_out' d' :
  expire_one_index time index_out d = Ok (false, index_out', d') → d' = d.
Proof.
  unfold expire_one_index. intros H.
  apply bind_Ok_inv in H as ([has_ind io] & _ & H).
  destruct has_ind; [|by simplify_eq].
  do 2 (apply bind_Ok_inv in H as (? & _ & H)).
  destruct (bool_decide _); [|by simplify_eq].
  apply bind_Ok_inv in H as ([r d1] & Hfree & H).
  simplify_eq. by apply free_index_false in Hfree.
Qed.

(** ** The tracker keeps its invariant *)

Lemma FlowTracker_ctor_inv n ft0 :
  (1 ≤ n)%N → (n + 2 < U64_MOD)%N → FlowTracker_ctor n = Ok ft0 →
  tracker_inv n ft0 [] (slot_cells n).
Proof.
  intros Hn Hcap H. unfold FlowTracker_ctor in H.
  destruct (DoubleChain_ctor_spec n Hn Hcap) as (d0 & Hd0 & R0 & _).
  rewrite Hd0, bind_Ok in H. injection H as <-.
  constructor; cbn.
  - done.
  - by rewrite length_replicate.
  - intros k s Hk. by rewrite lookup_empty in Hk.
  - intros x Hx. by apply elem_of_nil in Hx.
Qed.

Lemma add_flow_inv n ft al fl flow now ft' :
  tracker_inv n ft al fl → add_flow flow now ft = Ok ft' →
  ∃ al' fl', tracker_inv n ft' al' fl'.
Proof.
  intros I H. unfold add_flow in H.
  destruct (has_flow flow ft) eqn:Hhas; [injection H as <-; eauto|].
  apply bool_decide_eq_false in Hhas.
  assert (flow_to_index ft !! flow = None) as Hnone.
  { destruct (flow_to_index ft !! flow) eqn:E; [|done]. destruct Hhas. eauto. }
  pose proof (tinv_rep _ _ _ _ I) as R.
  destruct fl as [|x fl].
  { by rewrite (allocate_new_index_full _ _ _ _ _ R) in H. }
  destruct (allocate_new_index_spec _ _ _ _ _ now 0%N R) as (d1 & Hd1 & R1 & _).
  rewrite Hd1, bind_Ok in H. cbv beta iota in H. cbn [negb] in H.
  pose proof (rep_range_fl R x ltac:(set_solver)) as Hx.
  pose proof (tinv_len _ _ _ _ I) as Hlen.
  rewrite bool_decide_eq_true_2 in H by lia. cbn [negb] in H.
  rewrite store_inb in H by (unfold inb; lia).
  rewrite bind_Ok in H. injection H as <-.
  exists (al ++ [x]), fl. constructor; cbn.
  - done.
  - by rewrite length_insert.
  - intros k s Hk. destruct (decide (k = flow)) as [->|Hne].
    + rewrite lookup_insert_eq in Hk. injection Hk as <-.
      replace (x - 2 + 2)%N with x by lia. split; [set_solver|].
      apply list_lookup_insert_eq. lia.
    + rewrite lookup_insert_ne in Hk by done.
      destruct (tinv_key _ _ _ _ I k s Hk) as [Hin Hk'].
      split; [set_solver|]. rewrite list_lookup_insert_ne; [done|].
      intros Heq. apply (rep_disjoint R (s + 2)%N Hin).
      replace (s + 2)%N with x by lia. set_solver.
  - intros a [Ha| ->%list_elem_of_singleton]%elem_of_app.
    + destruct (tinv_slot _ _ _ _ I a Ha) as [k Hk]. exists k.
      rewrite lookup_insert_ne; [done|]. intros <-. by rewrite Hnone in Hk.
    + exists flow. by rewrite lookup_insert_eq.
Qed.

(** The loop of [expire_flows]: it frees a prefix [al1] of the occupied list,
    removes the keys of these slots and no other key, and counts them. *)
Lemma expire_loop_spec n now al : ∀ fuel count index_out ft fl,
  tracker_inv n ft al fl →
  length al < fuel →
  (I64_MIN ≤ now - EXPIRATION_TIME_NS ≤ I64_MAX)%Z →
  (count + N.of_nat (length al) < U64_MOD)%N →
  ∃ al1 al2 ft',
    al = al1 ++ al2 ∧
    expire_loop fuel now count index_out ft
      = Ok ((count + N.of_nat (length al1))%N, ft') ∧
    tracker_inv n ft' al2 (reverse al1 ++ fl) ∧
    (∀ k s, flow_to_index ft' !! k = Some s ↔
            flow_to_index ft !! k = Some s ∧ (s + 2)%N ∈ al2) ∧
    size (flow_to_index ft) = size (flow_to_index ft') + length al1.
Proof.
  induction al as [|x al IH]; intros fuel count index_out ft fl I Hfuel Hnow Hcount.
  - destruct fuel as [|fuel]; [lia|]. cbn [expire_loop].
    rewrite (expire_one_index_empty _ _ _ _ _ (tinv_rep _ _ _ _ I)), bind_Ok.
    cbv beta iota. exists [], [], ft. destruct ft as [dc f2i i2f]. cbn.
    rewrite N.add_0_r. split_and!; [done|done|done| |lia].
    intros k s. split; [|tauto]. intros Hk. split; [done|].
    by destruct (tinv_key _ _ _ _ I k s Hk) as [?%elem_of_nil _].
  - destruct fuel as [|fuel]; [lia|]. cbn [expire_loop].
    pose proof (tinv_rep _ _ _ _ I) as R.
    pose proof (rep_range_al R x ltac:(set_solver)) as Hx.
    pose proof (rep_NoDup_al R) as Hnd.
    destruct (expire_one_index_oldest _ _ _ _ _ _ index_out R Hnow) as (t & _ & H).
    destruct (bool_decide _).
    + destruct H as (d1 & -> & _ & R1 & _). rewrite bind_Ok. cbv beta iota.
      pose proof (tinv_len _ _ _ _ I) as Hlen.
      rewrite bool_decide_eq_true_2 by lia. cbn [negb].
      destruct (tinv_slot _ _ _ _ I x ltac:(set_solver)) as [kx Hkx].
      destruct (tinv_key _ _ _ _ I kx _ Hkx) as [_ Hkx'].
      unfold at_. rewrite Hkx', bind_Ok.
      rewrite u64_add_small by (cbn in Hcount; lia).
      set (ft1 := {| double_chain := d1;
                     flow_to_index := delete kx (flow_to_index ft);
                     index_to_flow := index_to_flow ft |}).
      assert (tracker_inv n ft1 al (x :: fl)) as I1.
      { constructor; cbn; [done|done|..].
        - intros k s Hk. apply lookup_delete_Some in Hk as [Hne Hk].
          destruct (tinv_key _ _ _ _ I k s Hk) as [Hin Hk'].
          split; [|done]. apply elem_of_cons in Hin as [Heq|Hin]; [|done].
          destruct Hne. replace s with (x - 2)%N in Hk' by lia. congruence.
        - intros a Ha. destruct (tinv_slot _ _ _ _ I a ltac:(set_solver)) as [k Hk].
          exists k. rewrite lookup_delete_ne; [done|]. intros <-.
          pose proof (rep_range_al R a ltac:(set_solver)).
          assert (a = x) as -> by (simplify_eq; lia).
          apply NoDup_cons in Hnd as [_ Hnd]. apply NoDup_cons in Hnd as [Hnd _]. done. }
      destruct (IH fuel (count + 1)%N (x - 2)%N ft1 (x :: fl) I1)
        as (al1 & al2 & ft' & -> & -> & I' & Hkeys & Hsize);
        [cbn in Hfuel; lia|done|cbn in Hcount; lia|].
      exists (x :: al1), al2, ft'. split; [done|]. split.
      { do 2 f_equal. cbn. lia. }
      split.
      { by rewrite reverse_cons, <-app_assoc. }
      split.
      { intros k s. rewrite Hkeys. cbn. rewrite lookup_delete_Some. split.
        - intros [[_ ?] ?]. done.
        - intros [Hk Hin]. split; [|done]. split; [|done]. intros <-.
          assert (s + 2 = x)%N as Hs by (simplify_eq; lia).
          rewrite Hs in Hin.
          apply NoDup_cons in Hnd as [_ Hnd]. apply NoDup_cons in Hnd as [Hnd _].
          apply Hnd. set_solver. }
      cbn in Hsize. cbn [length].
      rewrite map_size_delete, Hkx in Hsize.
      assert (size (flow_to_index ft) ≠ 0); [|lia].
      intros Hz%map_size_empty_iff. by rewrite Hz, lookup_empty in Hkx.
    + rewrite H, bind_Ok. cbv beta iota.
      exists [], (x :: al), ft. destruct ft as [dc f2i i2f]. cbn.
      rewrite N.add_0_r. split_and!; [done|done|done| |lia].
      intros k s. split; [|tauto]. intros Hk. split; [done|].
      by destruct (tinv_key _ _ _ _ I k s Hk).
Qed.

Lemma expire_flows_inv n ft al fl now count ft' :
  tracker_inv n ft al fl → expire_flows now ft = Ok (count, ft') →
  ∃ al' fl', tracker_inv n ft' al' fl'.
Proof.
  intros I H. unfold expire_flows in H.
  pose proof (tinv_rep _ _ _ _ I) as R.
  pose proof (rep_length R) as Hlen. pose proof (rep_cap _ _ _ _ R) as Hcap.
  pose proof (tinv_len _ _ _ _ I) as Hlen'.
  destruct (decide (I64_MIN ≤ now - EXPIRATION_TIME_NS ≤ I64_MAX)%Z) as [Hr|Hr].
  - destruct (expire_loop_spec n now al (S (length (index_to_flow ft))) 0%N 0%N ft fl I)
      as (al1 & al2 & ft1 & _ & Hrun & I1 & _); [lia|done|lia|].
    rewrite Hrun in H. injection H as _ <-. eauto.
  - destruct al as [|x al]; cbn [expire_loop] in H.
    + rewrite (expire_one_index_empty _ _ _ _ _ R), bind_Ok in H.
      cbv beta iota in H. injection H as _ <-. destruct ft. eauto.
    + by rewrite (expire_one_index_overflow _ _ _ _ _ _ _ R Hr) in H.
Qed.

Lemma run_tracker_ops_inv n ops : ∀ ft al fl ft',
  tracker_inv n ft al fl → run_tracker_ops ops ft = Ok ft' →
  ∃ al' fl', tracker_inv n ft' al' fl'.
Proof.
  induction ops as [|op ops IH]; intros ft al fl ft' I H.
  - injection H as <-. eauto.
  - cbn in H. apply bind_Ok_inv in H as (ft1 & Hop & H).
    assert (∃ al1 fl1, tracker_inv n ft1 al1 fl1) as (al1 & fl1 & I1).
    { destruct op as [flow now|now]; cbn in Hop.
      - by eapply add_flow_inv.
      - apply bind_Ok_inv in Hop as ([c ft2] & Hexp & Hop). injection Hop as <-.
        by eapply expire_flows_inv. }
    by eapply IH.
Qed.

Lemma tracker_reachable_inv n ft :
  tracker_reachable n ft → ∃ al fl, tracker_inv n ft al fl.
Proof.
  intros (Hn & Hcap & ops & ft0 & Hctor & Hrun).
  eapply run_tracker_ops_inv; [|done]. by apply FlowTracker_ctor_inv.
Qed.

Lemma tracker_inv_lookup n ft al fl k :
  tracker_inv n ft al fl → has_flow k ft = true →
  ∃ s, flow_to_index ft !! k = Some s ∧
       is_index_allocated s (double_chain ft) = Ok true ∧
       index_to_flow ft !! N.to_nat s = Some k.
Proof.
  intros I [s Hs]%bool_decide_eq_true. exists s.
  destruct (tinv_key _ _ _ _ I k s Hs) as [Hin Hk].
  pose proof (tinv_rep _ _ _ _ I) as R.
  pose proof (rep_range_al R _ Hin).
  rewrite (is_index_allocated_spec _ _ _ _ _ R) by lia.
  by rewrite bool_decide_eq_true_2.
Qed.

(** ** Touching an occupied slot that is not the only one

    The path of [rejuvenate_index] past its early returns: the slot becomes
    the newest of the occupied list and its timestamp is written. *)
Lemma rejuvenate_index_refreshes n d al fl s time :
  rep n d al fl → (s + 2)%N ∈ al → al ≠ [(s + 2)%N] →
  ∃ d' al', rejuvenate_index s time d = Ok (true, d') ∧
            rep n d' (al' ++ [(s + 2)%N]) fl ∧
            al ≡ₚ al' ++ [(s + 2)%N] ∧
            timestamps d' !! N.to_nat s = Some time.
Proof.
  intros R Hin Hsole.
  destruct (elem_of_split_list _ _ Hin) as (l1 & l2 & ->).
  assert (l1 ++ l2 ≠ []) as Hne.
  { intros [-> ->]%app_eq_nil. by destruct Hsole. }
  destruct (rejuvenate_index_occupied _ _ _ _ _ _ time R Hne) as (d' & Hd' & R' & Hts).
  pose proof (rep_ts _ _ _ _ R) as Hlen.
  pose proof (rep_range_al R _ Hin) as Hs.
  replace (s + 2 - 2)%N with s in * by lia.
  exists d', (l1 ++ l2). split_and!; [done|done| |].
  - rewrite <-app_assoc. apply Permutation_app_head, Permutation_cons_append.
  - rewrite Hts. apply list_lookup_insert_eq. lia.
Qed.

(** * The properties of the specification *)

(** C1. For every capacity [n >= 1] and every sequence of arena operations
    (allocate, touch, free, expireOne, on slot ids of the arena) run on the
    freshly constructed arena, once the operations have completed the
    occupied list and the free list read off the cells hold every real slot
    exactly once between them: every slot is in exactly one of the two lists,
    the lists hold nothing but real slots, and their lengths add up to [n].
    [is_index_allocated] answers membership in the occupied list. *)
Theorem arena_partition n ops d0 d :
  (1 ≤ n)%N → (n + 2 < U64_MOD)%N →
  Forall (op_slot_ok n) ops →
  DoubleChain_ctor n = Ok d0 → run_ops ops d0 = Ok d →
  ∃ al fl,
    occupied_list d = Some al ∧ free_list d = Some fl ∧
    (∀ s, (s < n)%N →
       ((s + INDEX_SHIFT)%N ∈ al ∧ (s + INDEX_SHIFT)%N ∉ fl) ∨
       (((s + INDEX_SHIFT)%N ∉ al) ∧ (s + INDEX_SHIFT)%N ∈ fl)) ∧
    (∀ s, (s < n)%N →
       is_index_allocated s d = Ok (bool_decide ((s + INDEX_SHIFT)%N ∈ al))) ∧
    NoDup (al ++ fl) ∧
    (∀ x, x ∈ al ++ fl → ∃ s, (s < n)%N ∧ x = (s + INDEX_SHIFT)%N) ∧
    length al + length fl = N.to_nat n.
Proof.
  intros Hn Hcap Hops Hctor Hrun.
  destruct (reachable_rep n d) as (al & fl & R).
  { split; [done|]. split; [done|]. by exists ops, d0. }
  exists al, fl. unfold INDEX_SHIFT, DCHAIN_RESERVED.
  split_and!.
  - by eapply rep_occupied_list.
  - by eapply rep_free_list.
  - intros s Hs. destruct (rep_slot R (s + 2)%N ltac:(lia)) as [Hin|Hin].
    + left. split; [done|]. intros ?. by apply (rep_disjoint R (s + 2)%N).
    + right. split; [|done]. intros ?. by apply (rep_disjoint R (s + 2)%N).
  - intros s Hs. by apply (is_index_allocated_spec _ _ _ _ _ R).
  - apply (rep_NoDup R).
  - intros x Hx%(rep_range R). exists (x - 2)%N. lia.
  - apply (rep_length R).
Qed.

Lemma arena_partition_witness :
  ∃ al fl,
    occupied_list arena3_demo = Some al ∧ free_list arena3_demo = Some fl ∧
    (∀ s, (s < 3)%N →
       ((s + INDEX_SHIFT)%N ∈ al ∧ (s + INDEX_SHIFT)%N ∉ fl) ∨
       (((s + INDEX_SHIFT)%N ∉ al) ∧ (s + INDEX_SHIFT)%N ∈ fl)) ∧
    (∀ s, (s < 3)%N →
       is_index_allocated s arena3_demo
         = Ok (bool_decide ((s + INDEX_SHIFT)%N ∈ al))) ∧
    NoDup (al ++ fl) ∧
    (∀ x, x ∈ al ++ fl → ∃ s, (s < 3)%N ∧ x = (s + INDEX_SHIFT)%N) ∧
    length al + length fl = N.to_nat 3.
Proof.
  apply (arena_partition 3 demo_ops arena3 arena3_demo).
  - lia.
  - reflexivity.
  - repeat constructor.
  - reflexivity.
  - reflexivity.
Defined.

(** C2. For every capacity [n >= 1], on the freshly constructed arena [n]
    consecutive allocations all succeed and return pairwise distinct slot ids
    below [n]; one more allocation returns [false] and leaves the arena as it
    was, so [is_index_allocated] answers as before for every slot. *)
Theorem capacity_bound n times :
  (1 ≤ n)%N → (n + 2 < U64_MOD)%N → length times = N.to_nat n →
  ∃ d0 rs d,
    DoubleChain_ctor n = Ok d0 ∧
    allocate_many times d0 = Ok (rs, d) ∧
    length rs = N.to_nat n ∧
    Forall (λ r : bool * N, fst r = true ∧ (snd r < n)%N) rs ∧
    NoDup (snd <$> rs) ∧
    ∀ time index_out,
      ∃ d', allocate_new_index time index_out d = Ok (false, index_out, d') ∧
            ∀ s, is_index_allocated s d' = is_index_allocated s d.
Proof.
  intros Hn Hcap Hlen.
  destruct (DoubleChain_ctor_spec n Hn Hcap) as (d0 & Hctor & R0 & _).
  destruct (allocate_many_spec n (slot_cells n) d0 [] [] times) as (d & Hrun & R).
  { by rewrite app_nil_r. }
  { by rewrite length_slot_cells. }
  exists d0, ((λ x, (true, (x - 2)%N)) <$> slot_cells n), d.
  split_and!; [done|done|..].
  - by rewrite length_fmap, length_slot_cells.
  - apply Forall_fmap, Forall_forall. intros x Hx%elem_of_slot_cells. cbn.
    split; [done|lia].
  - rewrite <-list_fmap_compose. apply NoDup_fmap_2_strong; [|apply NoDup_slot_cells].
    intros x y Hx%elem_of_slot_cells Hy%elem_of_slot_cells. cbn. lia.
  - intros time index_out. exists d. split; [|done].
    by apply (allocate_new_index_full _ _ _ _ _ R).
Qed.

Lemma capacity_bound_witness :
  ∃ d0 rs d,
    DoubleChain_ctor 3 = Ok d0 ∧
    allocate_many [0; 1; 2]%Z d0 = Ok (rs, d) ∧
    length rs = N.to_nat 3 ∧
    Forall (λ r : bool * N, fst r = true ∧ (snd r < 3)%N) rs ∧
    NoDup (snd <$> rs) ∧
    ∀ time index_out,
      ∃ d', allocate_new_index time index_out d = Ok (false, index_out, d') ∧
            ∀ s, is_index_allocated s d' = is_index_allocated s d.
Proof.
  apply (capacity_bound 3 [0; 1; 2]%Z); [lia|reflexivity|reflexivity].
Defined.

(** C3. The code at the input on which the claim fails: in an arena of
    capacity 1 whose only slot was allocated at time 0, touching the slot at
    time 5 returns [true] and leaves the arena as it was: the timestamp of the
    slot is still 0, not 5. *)
Theorem rejuvenate_sole_keeps_timestamp :
  DoubleChain_ctor 1 = Ok arena1 ∧
  allocate_new_index 0 0 arena1 = Ok (true, 0%N, arena1_full) ∧
  is_index_allocated 0 arena1_full = Ok true ∧
  rejuvenate_index 0 5 arena1_full = Ok (true, arena1_full) ∧
  timestamps arena1_full !! 0 = Some 0%Z.
Proof. by vm_compute. Qed.

(** C4, as amended. The idle-time threshold of the expiration is the
    constant [EXPIRATION_TIME_NS] = 1000000000 ns of the arena and no
    parameter of the call or of the constructor. In every arena built by the
    constructor and driven by calls on slot ids, for every [now] such that
    [now - EXPIRATION_TIME_NS] is an [i64]: with no occupied slot
    [expire_one_index] returns [false] and changes nothing; otherwise, with
    [t] the timestamp of the oldest occupied slot, it frees this slot and
    returns it when [t < now - EXPIRATION_TIME_NS], and returns [false] and
    changes nothing when not. *)
Theorem expire_threshold_fixed n d now index_out :
  reachable n d →
  (I64_MIN ≤ now - EXPIRATION_TIME_NS ≤ I64_MAX)%Z →
  EXPIRATION_TIME_NS = 1000000000%Z ∧
  ∃ r, get_oldest_index index_out d = Ok r ∧
    match r with
    | (false, index_out') =>
        expire_one_index now index_out d = Ok (false, index_out', d)
    | (true, oldest) =>
        ∃ t, timestamps d !! N.to_nat oldest = Some t ∧
          if bool_decide (t < now - EXPIRATION_TIME_NS)%Z then
            ∃ d', expire_one_index now index_out d = Ok (true, oldest, d') ∧
                  free_index oldest d = Ok (true, d') ∧
                  is_index_allocated oldest d' = Ok false ∧
                  timestamps d' = timestamps d
          else expire_one_index now index_out d = Ok (false, oldest, d)
    end.
Proof.
  intros (al & fl & R)%reachable_rep Hnow. split; [done|].
  rewrite (get_oldest_index_spec _ _ _ _ _ R). eexists. split; [done|].
  destruct al as [|x al].
  - by apply (expire_one_index_empty _ _ _ _ _ R).
  - destruct (expire_one_index_oldest _ _ _ _ _ _ index_out R Hnow) as (t & Ht & H).
    exists t. split; [done|]. destruct (bool_decide _); [|done].
    destruct H as (d' & Hexp & Hfree & R' & Hts). exists d'.
    split_and!; [done|done| |done].
    pose proof (rep_range_al R x ltac:(set_solver)).
    rewrite (is_index_allocated_spec _ _ _ _ _ R') by lia.
    rewrite bool_decide_eq_false_2; [done|]. intros Hin.
    apply (rep_disjoint R' x); [|set_solver].
    by replace x with (x - 2 + 2)%N by lia.
Qed.

Lemma reachable_arena1_full : reachable 1 arena1_full.
Proof.
  split; [lia|]. split; [reflexivity|].
  exists [OpAllocate 0], arena1. split; [repeat constructor|]. by split.
Qed.

Lemma expire_threshold_fixed_witness :
  EXPIRATION_TIME_NS = 1000000000%Z ∧
  ∃ r, get_oldest_index 0 arena1_full = Ok r ∧
    match r with
    | (false, index_out') =>
        expire_one_index 1000000001 0 arena1_full = Ok (false, index_out', arena1_full)
    | (true, oldest) =>
        ∃ t, timestamps arena1_full !! N.to_nat oldest = Some t ∧
          if bool_decide (t < 1000000001 - EXPIRATION_TIME_NS)%Z then
            ∃ d', expire_one_index 1000000001 0 arena1_full = Ok (true, oldest, d') ∧
                  free_index oldest arena1_full = Ok (true, d') ∧
                  is_index_allocated oldest d' = Ok false ∧
                  timestamps d' = timestamps arena1_full
          else expire_one_index 1000000001 0 arena1_full = Ok (false, oldest, arena1_full)
    end.
Proof.
  apply (expire_threshold_fixed 1 arena1_full 1000000001 0).
  - split; [lia|]. split; [reflexivity|].
    exists [OpAllocate 0], arena1. split; [repeat constructor|]. split; reflexivity.
  - vm_compute. split; discriminate.
Defined.

(** C4, as stated, fails: were the threshold a [maxAge] chosen by the caller,
    then with [maxAge = 5] and [now = 10] the slot allocated at time 0 would
    be freed ([0 < 10 - 5]); the code keeps it ([0 < 10 - 1000000000] is
    false). *)
Lemma expire_threshold_not_max_age :
  ¬ (∀ (maxAge now : Z) n d oldest t,
       reachable n d →
       (I64_MIN ≤ now - EXPIRATION_TIME_NS ≤ I64_MAX)%Z →
       get_oldest_index 0 d = Ok (true, oldest) →
       timestamps d !! N.to_nat oldest = Some t →
       ((t < now - maxAge)%Z ↔
        ∃ d', expire_one_index now 0 d = Ok (true, oldest, d'))).
Proof.
  intros H.
  destruct (H 5%Z 10%Z 1%N arena1_full 0%N 0%Z) as [Hfree _].
  - apply reachable_arena1_full.
  - vm_compute. split; discriminate.
  - reflexivity.
  - reflexivity.
  - destruct Hfree as [d' Hd']; [lia|]. vm_compute in Hd'. discriminate.
Qed.

(** C5. Capacity 3: allocate at the times 0, 1, 2 (the slots 0, 1, 2), touch
    slot 0 at time 3; the oldest slot is then slot 1, not slot 0. *)
Theorem recency_ordering :
  (d ← DoubleChain_ctor 3 ;
   '(ok0, s0, d) ← allocate_new_index 0 0 d ;
   '(ok1, s1, d) ← allocate_new_index 1 0 d ;
   '(ok2, s2, d) ← allocate_new_index 2 0 d ;
   '(touched, d) ← rejuvenate_index 0 3 d ;
   oldest ← get_oldest_index 0 d ;
   Ok (ok0, s0, ok1, s1, ok2, s2, touched, oldest))
  = Ok (true, 0%N, true, 1%N, true, 2%N, true, (true, 1%N)).
Proof. reflexivity. Qed.

(** C6. Freed slots are reused in LIFO order. Capacity 3: after allocating
    the slots 0, 1, 2 (at any times) and freeing slot 1, the next allocation
    returns slot 1. In general, in every arena built by the constructor and
    driven by calls on slot ids, the allocation that follows a successful
    [free_index s] returns [s]. *)
Theorem lifo_reuse :
  (∀ t0 t1 t2 t3 : Z,
     (d ← DoubleChain_ctor 3 ;
      '(ok0, s0, d) ← allocate_new_index t0 0 d ;
      '(ok1, s1, d) ← allocate_new_index t1 0 d ;
      '(ok2, s2, d) ← allocate_new_index t2 0 d ;
      '(freed, d) ← free_index 1 d ;
      '(ok3, s3, d) ← allocate_new_index t3 0 d ;
      Ok (s0, s1, s2, freed, ok3, s3))
     = Ok (0%N, 1%N, 2%N, true, true, 1%N)) ∧
  (∀ n d s d1 time index_out,
     reachable n d → (s < n)%N → free_index s d = Ok (true, d1) →
     ∃ d2, allocate_new_index time index_out d1 = Ok (true, s, d2)).
Proof.
  split; [reflexivity|].
  intros n d s d1 time index_out (al & fl & R)%reachable_rep Hs Hfree.
  by eapply free_then_allocate.
Qed.

Lemma lifo_reuse_witness :
  ∃ d2, allocate_new_index 7 0 arena3_freed = Ok (true, 1%N, d2).
Proof.
  apply (proj2 lifo_reuse 3%N arena3_full 1%N arena3_freed 7%Z 0%N).
  - split; [lia|]. split; [reflexivity|].
    exists [OpAllocate 0; OpAllocate 1; OpAllocate 2], arena3.
    split; [repeat constructor|]. split; reflexivity.
  - reflexivity.
  - reflexivity.
Defined.

(** C7. Every failing arena operation is atomic: when [allocate_new_index],
    [rejuvenate_index], [free_index] or [expire_one_index] returns [false],
    the arena (all links and all timestamps) is exactly as it was before the
    call, in any state whatever. In particular, in an arena built by the
    constructor and driven by calls on slot ids, a second consecutive
    [free_index] of a slot returns [false] and leaves the arena, hence the
    two lists, as the first call left them. *)
Theorem failing_ops_atomic n d s d1 :
  reachable n d → (s < n)%N → free_index s d = Ok (true, d1) →
  (∀ time index_out d index_out' d',
     allocate_new_index time index_out d = Ok (false, index_out', d') → d' = d) ∧
  (∀ index time d d',
     rejuvenate_index index time d = Ok (false, d') → d' = d) ∧
  (∀ index d d', free_index index d = Ok (false, d') → d' = d) ∧
  (∀ time index_out d index_out' d',
     expire_one_index time index_out d = Ok (false, index_out', d') → d' = d) ∧
  ∃ d2, free_index s d1 = Ok (false, d2) ∧ d2 = d1 ∧
        occupied_list d2 = occupied_list d1 ∧ free_list d2 = free_list d1.
Proof.
  intros (al & fl & R)%reachable_rep Hs Hfree.
  pose proof (free_twice _ _ _ _ _ _ R Hs Hfree) as Htwice.
  split_and!.
  - apply allocate_new_index_false.
  - apply rejuvenate_index_false.
  - apply free_index_false.
  - apply expire_one_index_false.
  - by exists d1.
Qed.

Lemma failing_ops_atomic_witness :
  (∀ time index_out d index_out' d',
     allocate_new_index time index_out d = Ok (false, index_out', d') → d' = d) ∧
  (∀ index time d d',
     rejuvenate_index index time d = Ok (false, d') → d' = d) ∧
  (∀ index d d', free_index index d = Ok (false, d') → d' = d) ∧
  (∀ time index_out d index_out' d',
     expire_one_index time index_out d = Ok (false, index_out', d') → d' = d) ∧
  ∃ d2, free_index 1 arena3_freed = Ok (false, d2) ∧ d2 = arena3_freed ∧
        occupied_list d2 = occupied_list arena3_freed ∧
        free_list d2 = free_list arena3_freed.
Proof.
  apply (failing_ops_atomic 3%N arena3_full 1%N arena3_freed).
  - split; [lia|]. split; [reflexivity|].
    exists [OpAllocate 0; OpAllocate 1; OpAllocate 2], arena3.
    split; [repeat constructor|]. split; reflexivity.
  - reflexivity.
  - reflexivity.
Defined.

(** C8. [add_flow] is idempotent for a present key: after [add_flow k t0]
    has returned, [add_flow k t1] returns without error and leaves the whole
    tracker as it was, for every [t1]: the key is mapped to the same slot and
    the arena is untouched (no allocation, no move in the occupied list, no
    timestamp written). *)
Theorem add_flow_idempotent ft k t0 t1 ft1 :
  add_flow k t0 ft = Ok ft1 →
  has_flow k ft1 = true ∧
  add_flow k t1 ft1 = Ok ft1 ∧
  ∀ ft2, add_flow k t1 ft1 = Ok ft2 →
    flow_to_index ft2 !! k = flow_to_index ft1 !! k ∧
    double_chain ft2 = double_chain ft1.
Proof.
  intros H.
  assert (has_flow k ft1 = true) as Hhas.
  { unfold add_flow in H. destruct (has_flow k ft) eqn:E; [by simplify_eq|].
    apply bind_Ok_inv in H as ([[ok io] dc] & _ & H).
    destruct (negb ok); [done|]. destruct (negb _); [done|].
    apply bind_Ok_inv in H as (itf & _ & H). simplify_eq.
    apply bool_decide_eq_true. cbn. rewrite lookup_insert_eq. eauto. }
  assert (add_flow k t1 ft1 = Ok ft1) as Hagain.
  { unfold add_flow. by rewrite Hhas. }
  split_and!; [done|done|]. intros ft2 Hft2. rewrite Hagain in Hft2. by simplify_eq.
Qed.

Lemma add_flow_idempotent_witness :
  has_flow demo_flow tracker1_flow = true ∧
  add_flow demo_flow 1 tracker1_flow = Ok tracker1_flow ∧
  ∀ ft2, add_flow demo_flow 1 tracker1_flow = Ok ft2 →
    flow_to_index ft2 !! demo_flow = flow_to_index tracker1_flow !! demo_flow ∧
    double_chain ft2 = double_chain tracker1_flow.
Proof.
  apply (add_flow_idempotent tracker1 demo_flow 0%Z 1%Z tracker1_flow).
  vm_compute. reflexivity.
Defined.

(** C9. The key/slot mappings stay consistent across the operations of the
    tracker. In every tracker built by the constructor and driven by
    [add_flow] and [expire_flows]: every key [k] with [has_flow k] is mapped
    to a slot that [is_index_allocated] and whose [index_to_flow] entry is
    [k]. For every [now] such that [now - EXPIRATION_TIME_NS] is an [i64],
    [expire_flows now] returns; afterwards the mappings are consistent again,
    every key of before is either still mapped to its slot, which is still
    allocated, or evicted: its slot is free and [has_flow] is [false]; no key
    appears; and the returned count is the number of keys removed. *)
Theorem tracker_consistency n ft now :
  tracker_reachable n ft →
  (I64_MIN ≤ now - EXPIRATION_TIME_NS ≤ I64_MAX)%Z →
  (∀ k, has_flow k ft = true →
     ∃ s, flow_to_index ft !! k = Some s ∧
          is_index_allocated s (double_chain ft) = Ok true ∧
          index_to_flow ft !! N.to_nat s = Some k) ∧
  ∃ count ft',
    expire_flows now ft = Ok (count, ft') ∧
    (∀ k, has_flow k ft' = true →
       ∃ s, flow_to_index ft' !! k = Some s ∧
            is_index_allocated s (double_chain ft') = Ok true ∧
            index_to_flow ft' !! N.to_nat s = Some k) ∧
    (∀ k s, flow_to_index ft !! k = Some s →
       (flow_to_index ft' !! k = Some s ∧
        is_index_allocated s (double_chain ft') = Ok true) ∨
       (has_flow k ft' = false ∧
        is_index_allocated s (double_chain ft') = Ok false)) ∧
    (∀ k, has_flow k ft' = true → has_flow k ft = true) ∧
    size (flow_to_index ft) = size (flow_to_index ft') + N.to_nat count.
Proof.
  intros (al & fl & I)%tracker_reachable_inv Hnow.
  split; [intros k; by apply (tracker_inv_lookup _ _ _ _ _ I)|].
  pose proof (tinv_rep _ _ _ _ I) as R.
  pose proof (rep_length R) as Hlen. pose proof (rep_cap _ _ _ _ R) as Hcap.
  pose proof (tinv_len _ _ _ _ I) as Hlen'.
  pose proof (rep_NoDup R) as [Hnd _]%NoDup_app.
  destruct (expire_loop_spec n now al (S (length (index_to_flow ft))) 0%N 0%N ft fl I)
    as (al1 & al2 & ft' & -> & Hrun & I' & Hkeys & Hsize); [lia|done|lia|].
  pose proof (tinv_rep _ _ _ _ I') as R'.
  exists (N.of_nat (length al1)), ft'. split_and!.
  - exact Hrun.
  - intros k. by apply (tracker_inv_lookup _ _ _ _ _ I').
  - intros k s Hk. destruct (tinv_key _ _ _ _ I k s Hk) as [Hin _].
    pose proof (rep_range_al R _ Hin).
    rewrite (is_index_allocated_spec _ _ _ _ _ R') by lia.
    apply elem_of_app in Hin as [Hin|Hin].
    + right. assert ((s + 2)%N ∉ al2) as Hnot.
      { intros ?. apply NoDup_app in Hnd as (_ & Hnd & _). by apply (Hnd _ Hin). }
      split; [|by rewrite bool_decide_eq_false_2].
      apply bool_decide_eq_false. intros [s' Hs']. apply Hkeys in Hs' as [Hs' Hin'].
      by simplify_eq.
    + left. split; [by apply Hkeys|by rewrite bool_decide_eq_true_2].
  - intros k [s Hs]%bool_decide_eq_true. apply bool_decide_eq_true.
    apply Hkeys in Hs as [Hs _]. eauto.
  - lia.
Qed.

Lemma tracker_consistency_witness :
  (∀ k, has_flow k tracker1_flow = true →
     ∃ s, flow_to_index tracker1_flow !! k = Some s ∧
          is_index_allocated s (double_chain tracker1_flow) = Ok true ∧
          index_to_flow tracker1_flow !! N.to_nat s = Some k) ∧
  ∃ count ft',
    expire_flows 2000000000 tracker1_flow = Ok (count, ft') ∧
    (∀ k, has_flow k ft' = true →
       ∃ s, flow_to_index ft' !! k = Some s ∧
            is_index_allocated s (double_chain ft') = Ok true ∧
            index_to_flow ft' !! N.to_nat s = Some k) ∧
    (∀ k s, flow_to_index tracker1_flow !! k = Some s →
       (flow_to_index ft' !! k = Some s ∧
        is_index_allocated s (double_chain ft') = Ok true) ∨
       (has_flow k ft' = false ∧
        is_index_allocated s (double_chain ft') = Ok false)) ∧
    (∀ k, has_flow k ft' = true → has_flow k tracker1_flow = true) ∧
    size (flow_to_index tracker1_flow) = size (flow_to_index ft') + N.to_nat count.
Proof.
  apply (tracker_consistency 1%N tracker1_flow 2000000000%Z).
  - split; [lia|]. split; [reflexivity|].
    exists [OpAddFlow demo_flow 0], tracker1.
    split; [reflexivity|]. vm_compute. reflexivity.
  - vm_compute. split; discriminate.
Defined.

(** C10. The constructor is memory safe for a capacity [n >= 1] (whose
    [n + 2] cells fit a vector): it returns without an access outside its
    vectors, having set every one of the [n + 2] cells: the two list heads
    and one cell per slot, the free list going through all the real slots in
    order and the occupied list empty. For the capacity 0 the write to the
    cell [last] is at index 2 of a vector of 2 cells: out of bounds. *)
Theorem ctor_memory_safety n :
  (1 ≤ n)%N → (n + 2 < U64_MOD)%N →
  (∃ d, DoubleChain_ctor n = Ok d ∧
        length (cells d) = N.to_nat n + 2 ∧
        length (timestamps d) = N.to_nat n ∧
        cells d !! 0 = Some {| prev := 0; next := 0 |} ∧
        cells d !! 1 = Some {| prev := 2; next := 2 |} ∧
        (∀ j, (2 ≤ j < n + 1)%N →
           cells d !! N.to_nat j = Some {| prev := j + 1; next := j + 1 |}) ∧
        cells d !! N.to_nat (n + 1) = Some {| prev := 1; next := 1 |} ∧
        occupied_list d = Some [] ∧
        free_list d = Some (slot_cells n)) ∧
  DoubleChain_ctor 0 = Err (OutOfBounds 2 2).
Proof.
  intros Hn Hcap. split; [|reflexivity].
  destruct (DoubleChain_ctor_spec n Hn Hcap)
    as (d & Hctor & R & Hts & Hn0 & Hp0 & Hn1 & Hp1 & Hmid & Hnl & Hpl).
  pose proof (rep_cells _ _ _ _ R) as Hlen.
  exists d. split_and!; [done|done|apply (rep_ts _ _ _ _ R)|..].
  - change (cells d !! 0) with (cells d !! N.to_nat 0%N).
    rewrite (lookup_fields (cells d) 0%N) by (unfold inb; lia). by rewrite Hn0, Hp0.
  - change (cells d !! 1) with (cells d !! N.to_nat 1%N).
    rewrite (lookup_fields (cells d) 1%N) by (unfold inb; lia). by rewrite Hn1, Hp1.
  - intros j Hj. rewrite (lookup_fields (cells d) j) by (unfold inb; lia).
    by destruct (Hmid j Hj) as [-> ->].
  - rewrite (lookup_fields (cells d) (n + 1)%N) by (unfold inb; lia).
    by rewrite Hnl, Hpl.
  - by eapply rep_occupied_list.
  - by eapply rep_free_list.
Qed.

Lemma ctor_memory_safety_witness :
  (∃ d, DoubleChain_ctor 3 = Ok d ∧
        length (cells d) = N.to_nat 3 + 2 ∧
        length (timestamps d) = N.to_nat 3 ∧
        cells d !! 0 = Some {| prev := 0; next := 0 |} ∧
        cells d !! 1 = Some {| prev := 2; next := 2 |} ∧
        (∀ j, (2 ≤ j < 3 + 1)%N →
           cells d !! N.to_nat j = Some {| prev := j + 1; next := j + 1 |}) ∧
        cells d !! N.to_nat (3 + 1) = Some {| prev := 1; next := 1 |} ∧
        occupied_list d = Some [] ∧
        free_list d = Some (slot_cells 3)) ∧
  DoubleChain_ctor 0 = Err (OutOfBounds 2 2).
Proof.
  apply (ctor_memory_safety 3%N); [lia|reflexivity].
Defined.

(** * Further properties of the code *)

(** ** The contracts of the arena operations, on the two lists *)

Lemma filter_ne_notin (x : N) (l : list N) :
  x ∉ l → filter (λ y, y ≠ x) l = l.
Proof.
  induction l as [|a l IH]; [done|]. intros Hx.
  rewrite filter_cons_True by set_solver. f_equal. apply IH. set_solver.
Qed.

Lemma filter_ne_mid (x : N) (l1 l2 : list N) :
  x ∉ l1 → x ∉ l2 → filter (λ y, y ≠ x) (l1 ++ x :: l2) = l1 ++ l2.
Proof.
  intros H1 H2. rewrite filter_app, filter_cons_False by (intros H; by apply H).
  by rewrite !filter_ne_notin.
Qed.

Lemma rep_filter_mid n d l1 x l2 fl :
  rep n d (l1 ++ x :: l2) fl → filter (λ y, y ≠ x) (l1 ++ x :: l2) = l1 ++ l2.
Proof.
  intros R. pose proof (rep_NoDup_al R) as [_ Hnd]%NoDup_cons.
  apply NoDup_app in Hnd as (_ & H1 & [H2 _]%NoDup_cons).
  apply filter_ne_mid; [|done]. intros Hin. apply (H1 x Hin). set_solver.
Qed.

(** X1. In every arena built by the constructor and driven by calls on slot
    ids, [allocate_new_index] fails exactly when the free list is empty, and
    then changes nothing; otherwise it returns the slot at the head of the
    free list, takes it off the free list, appends it at the newest end of
    the occupied list and writes [time] as its timestamp, all the other
    timestamps being kept. *)
Theorem allocate_new_index_contract n d time index_out :
  reachable n d →
  ∃ al fl,
    occupied_list d = Some al ∧ free_list d = Some fl ∧
    match fl with
    | [] => allocate_new_index time index_out d = Ok (false, index_out, d)
    | x :: fl' =>
        ∃ d', allocate_new_index time index_out d
                = Ok (true, (x - INDEX_SHIFT)%N, d') ∧
              occupied_list d' = Some (al ++ [x]) ∧
              free_list d' = Some fl' ∧
              timestamps d' = <[N.to_nat (x - INDEX_SHIFT) := time]> (timestamps d)
    end.
Proof.
  intros (al & fl & R)%reachable_rep. exists al, fl.
  split; [by eapply rep_occupied_list|]. split; [by eapply rep_free_list|].
  destruct fl as [|x fl].
  - by eapply allocate_new_index_full.
  - destruct (allocate_new_index_spec _ _ _ _ _ time index_out R) as (d' & Hd' & R' & Hts).
    exists d'. split_and!; [done|by eapply rep_occupied_list|by eapply rep_free_list|done].
Qed.

Ltac reach ops d0 :=
  split; [lia|]; split; [reflexivity|]; exists ops, d0;
  split; [repeat constructor|]; split; reflexivity.

Lemma allocate_new_index_contract_witness :
  ∃ al fl,
    occupied_list arena3_freed = Some al ∧ free_list arena3_freed = Some fl ∧
    match fl with
    | [] => allocate_new_index 9 0 arena3_freed = Ok (false, 0%N, arena3_freed)
    | x :: fl' =>
        ∃ d', allocate_new_index 9 0 arena3_freed
                = Ok (true, (x - INDEX_SHIFT)%N, d') ∧
              occupied_list d' = Some (al ++ [x]) ∧
              free_list d' = Some fl' ∧
              timestamps d'
                = <[N.to_nat (x - INDEX_SHIFT) := 9%Z]> (timestamps arena3_freed)
    end.
Proof.
  apply (allocate_new_index_contract 3 arena3_freed 9 0).
  reach [OpAllocate 0; OpAllocate 1; OpAllocate 2; OpFree 1] arena3.
Defined.

(** X2. In every such arena, [free_index] of a slot id returns whether the
    slot is occupied. A free slot leaves the arena as it was. An occupied
    slot is taken out of the occupied list, the order of the others being
    kept, and becomes the head of the free list; no timestamp is written. *)
Theorem free_index_contract n d s :
  reachable n d → (s < n)%N →
  ∃ al fl,
    occupied_list d = Some al ∧ free_list d = Some fl ∧
    if bool_decide ((s + INDEX_SHIFT)%N ∈ al) then
      ∃ d', free_index s d = Ok (true, d') ∧
            occupied_list d' = Some (filter (λ y, y ≠ (s + INDEX_SHIFT)%N) al) ∧
            free_list d' = Some ((s + INDEX_SHIFT)%N :: fl) ∧
            timestamps d' = timestamps d
    else free_index s d = Ok (false, d).
Proof.
  intros (al & fl & R)%reachable_rep Hs. exists al, fl.
  split; [by eapply rep_occupied_list|]. split; [by eapply rep_free_list|].
  unfold INDEX_SHIFT, DCHAIN_RESERVED.
  assert ((s + 2 - 2)%N = s) as Hs2 by lia.
  destruct (rep_slot R (s + 2)%N ltac:(lia)) as [Hin|Hin].
  - rewrite bool_decide_eq_true_2 by done.
    destruct (elem_of_split_list _ _ Hin) as (l1 & l2 & ->).
    destruct (free_index_occupied _ _ _ _ _ _ R) as (d' & Hd' & R' & Hts).
    rewrite Hs2 in Hd'. exists d'. rewrite (rep_filter_mid _ _ _ _ _ _ R).
    split_and!; [done|by eapply rep_occupied_list|by eapply rep_free_list|done].
  - rewrite bool_decide_eq_false_2 by (intros ?; by apply (rep_disjoint R (s + 2)%N)).
    rewrite <-Hs2 at 1. by eapply free_index_free.
Qed.

Lemma free_index_contract_witness :
  ∃ al fl,
    occupied_list arena3_full = Some al ∧ free_list arena3_full = Some fl ∧
    if bool_decide ((1 + INDEX_SHIFT)%N ∈ al) then
      ∃ d', free_index 1 arena3_full = Ok (true, d') ∧
            occupied_list d' = Some (filter (λ y, y ≠ (1 + INDEX_SHIFT)%N) al) ∧
            free_list d' = Some ((1 + INDEX_SHIFT)%N :: fl) ∧
            timestamps d' = timestamps arena3_full
    else free_index 1 arena3_full = Ok (false, arena3_full).
Proof.
  apply (free_index_contract 3 arena3_full 1).
  - reach [OpAllocate 0; OpAllocate 1; OpAllocate 2] arena3.
  - reflexivity.
Defined.

(** X3. In every such arena, [rejuvenate_index] of a slot id returns whether
    the slot is occupied, and changes nothing when the slot is free. When the
    slot is occupied and is not the only occupied slot, it moves to the
    newest end of the occupied list, the order of the others being kept, the
    free list is kept, and [time] is written as the timestamp of the slot and
    of no other. *)
Theorem rejuvenate_index_contract n d s time :
  reachable n d → (s < n)%N →
  ∃ al fl,
    occupied_list d = Some al ∧ free_list d = Some fl ∧
    if bool_decide ((s + INDEX_SHIFT)%N ∈ al) then
      ∃ d', rejuvenate_index s time d = Ok (true, d') ∧
            (al ≠ [(s + INDEX_SHIFT)%N] →
             occupied_list d'
               = Some (filter (λ y, y ≠ (s + INDEX_SHIFT)%N) al
                       ++ [(s + INDEX_SHIFT)%N]) ∧
             free_list d' = Some fl ∧
             timestamps d' = <[N.to_nat s := time]> (timestamps d))
    else rejuvenate_index s time d = Ok (false, d).
Proof.
  intros (al & fl & R)%reachable_rep Hs. exists al, fl.
  split; [by eapply rep_occupied_list|]. split; [by eapply rep_free_list|].
  unfold INDEX_SHIFT, DCHAIN_RESERVED.
  assert ((s + 2 - 2)%N = s) as Hs2 by lia.
  destruct (rep_slot R (s + 2)%N ltac:(lia)) as [Hin|Hin].
  - rewrite bool_decide_eq_true_2 by done.
    destruct (elem_of_split_list _ _ Hin) as (l1 & l2 & ->).
    destruct (decide (l1 ++ l2 = [])) as [Hnil|Hne].
    + apply app_eq_nil in Hnil as [-> ->].
      exists d. split; [|by intros []].
      rewrite <-Hs2 at 1. by eapply rejuvenate_index_sole.
    + destruct (rejuvenate_index_occupied _ _ _ _ _ _ time R Hne) as (d' & Hd' & R' & Hts).
      rewrite Hs2 in Hd', Hts. exists d'. split; [done|]. intros _.
      rewrite (rep_filter_mid _ _ _ _ _ _ R).
      split_and!; [by eapply rep_occupied_list|by eapply rep_free_list|done].
  - rewrite bool_decide_eq_false_2 by (intros ?; by apply (rep_disjoint R (s + 2)%N)).
    rewrite <-Hs2 at 1. by eapply rejuvenate_index_free.
Qed.

Lemma rejuvenate_index_contract_witness :
  ∃ al fl,
    occupied_list arena3_full = Some al ∧ free_list arena3_full = Some fl ∧
    if bool_decide ((0 + INDEX_SHIFT)%N ∈ al) then
      ∃ d', rejuvenate_index 0 3 arena3_full = Ok (true, d') ∧
            (al ≠ [(0 + INDEX_SHIFT)%N] →
             occupied_list d'
               = Some (filter (λ y, y ≠ (0 + INDEX_SHIFT)%N) al
                       ++ [(0 + INDEX_SHIFT)%N]) ∧
             free_list d' = Some fl ∧
             timestamps d' = <[N.to_nat 0 := 3%Z]> (timestamps arena3_full))
    else rejuvenate_index 0 3 arena3_full = Ok (false, arena3_full).
Proof.
  apply (rejuvenate_index_contract 3 arena3_full 0 3).
  - reach [OpAllocate 0; OpAllocate 1; OpAllocate 2] arena3.
  - reflexivity.
Defined.

(** X4. No operation checks its slot against the capacity: in every such
    arena of capacity [n], for an index [s >= n] (with [s + 2] below 2^64)
    [is_index_allocated], [rejuvenate_index] and [free_index] subscript
    [cells] at [s + 2], outside the vector, instead of returning [false]. *)
Theorem slot_out_of_range n d s time :
  reachable n d → (n ≤ s)%N → (s + 2 < U64_MOD)%N →
  is_index_allocated s d = Err (OutOfBounds (s + 2) (N.to_nat n + 2)) ∧
  rejuvenate_index s time d = Err (OutOfBounds (s + 2) (N.to_nat n + 2)) ∧
  free_index s d = Err (OutOfBounds (s + 2) (N.to_nat n + 2)).
Proof.
  intros (al & fl & R)%reachable_rep Hs Hcap.
  pose proof (rep_cells _ _ _ _ R) as Hlen.
  assert (at_ (cells d) (s + 2) = Err (OutOfBounds (s + 2) (N.to_nat n + 2))) as Hat.
  { unfold at_. rewrite <-Hlen.
    destruct (cells d !! N.to_nat (s + 2)) eqn:E; [|done].
    apply lookup_lt_Some in E. lia. }
  unfold is_index_allocated, rejuvenate_index, free_index, INDEX_SHIFT,
    DCHAIN_RESERVED.
  rewrite u64_add_small by lia. by rewrite Hat.
Qed.

Lemma slot_out_of_range_witness :
  is_index_allocated 3 arena3_full = Err (OutOfBounds (3 + 2) (N.to_nat 3 + 2)) ∧
  rejuvenate_index 3 7 arena3_full = Err (OutOfBounds (3 + 2) (N.to_nat 3 + 2)) ∧
  free_index 3 arena3_full = Err (OutOfBounds (3 + 2) (N.to_nat 3 + 2)).
Proof.
  apply (slot_out_of_range 3 arena3_full 3 7).
  - reach [OpAllocate 0; OpAllocate 1; OpAllocate 2] arena3.
  - lia.
  - reflexivity.
Defined.

(** ** The index is not validated *)

Lemma at_oob {A} (l : list A) i :
  ¬ inb l i → at_ l i = Err (OutOfBounds i (length l)).
Proof.
  intros H. unfold at_. destruct (l !! N.to_nat i) eqn:E; [|done].
  apply lookup_lt_Some in E. by destruct H.
Qed.

(** X5. The index [2^64 - 2] wraps to the cell of the occupied-list head. In
    an arena with nothing occupied [free_index] accepts it and returns
    [true]; the arena is then broken: [get_oldest_index] reports a slot that
    [is_index_allocated] denies, and the next [allocate_new_index] subscripts
    [timestamps] at [2^64 - 2]. *)
Theorem free_index_wrapped_index n d time index_out :
  reachable n d → occupied_list d = Some [] →
  ∃ d' s,
    free_index (U64_MOD - 2) d = Ok (true, d') ∧
    get_oldest_index index_out d' = Ok (true, s) ∧
    (s < n)%N ∧
    is_index_allocated s d' = Ok false ∧
    allocate_new_index time index_out d'
      = Err (OutOfBounds (U64_MOD - 2) (N.to_nat n)).
Proof.
  intros Hr Hocc. pose proof Hr as (Hn & _).
  destruct (reachable_rep _ _ Hr) as (al & fl & R).
  rewrite (rep_occupied_list _ _ _ _ R) in Hocc. injection Hocc as ->.
  destruct d as [c ts].
  pose proof (rep_cap _ _ _ _ R) as Hcap.
  pose proof (rep_cells _ _ _ _ R) as Hlen.
  pose proof (rep_ts _ _ _ _ R) as Hts.
  pose proof (rep_length R) as Hfl.
  destruct fl as [|f fl]; [cbn in Hfl; lia|].
  pose proof (rep_range_fl R f ltac:(set_solver)) as Hf.
  pose proof (rep_hd_range_fl R fl ltac:(set_solver)) as Hh.
  pose proof (linked_ring_head _ _ _ (rep_al_next _ _ _ _ R)) as Hn0.
  pose proof (linked_ring_head _ _ _ (rep_al_prev _ _ _ _ R)) as Hp0.
  pose proof (linked_ring_head _ _ _ (rep_fl_next _ _ _ _ R)) as Hn1.
  pose proof (linked_ring_at _ _ [] _ _ (rep_fl_next _ _ _ _ R)) as [_ Hnf].
  pose proof (rep_fl_prev _ _ _ _ R f ltac:(set_solver)) as Hpf.
  cbn in Hlen, Hts, Hn0, Hp0, Hn1, Hnf, Hpf.
  assert (u64_add (U64_MOD - 2) 2 = 0%N) as Hwrap by reflexivity.
  assert (u64_sub 0 2 = (U64_MOD - 2)%N) as Hwrap' by reflexivity.
  eexists _, (f - 2)%N. split_and!.
  - unfold free_index, FREE_LIST_HEAD, ALLOC_LIST_HEAD, INDEX_SHIFT,
      DCHAIN_RESERVED. cbn [cells timestamps]. rewrite Hwrap.
    do 3 step. rewrite Hn0, Hp0. cbn [N.eqb andb negb].
    repeat (step; store_simpl; rewrite ?Hn0, ?Hp0, ?Hn1).
    reflexivity.
  - unfold get_oldest_index, ALLOC_LIST_HEAD, INDEX_SHIFT, DCHAIN_RESERVED.
    cbn [cells]. do 2 step. store_simpl.
    rewrite (proj2 (N.eqb_neq f 0%N)) by lia. by rewrite u64_sub_small by lia.
  - lia.
  - unfold is_index_allocated, ALLOC_LIST_HEAD, INDEX_SHIFT, DCHAIN_RESERVED.
    cbn [cells]. rewrite u64_add_small by lia. replace (f - 2 + 2)%N with f by lia.
    do 3 step. store_simpl. rewrite Hnf, Hpf, Hnf, N.eqb_refl.
    by rewrite (proj2 (N.eqb_neq (hd_or 1%N fl) 0%N)) by lia.
  - unfold allocate_new_index, FREE_LIST_HEAD, ALLOC_LIST_HEAD, INDEX_SHIFT,
      DCHAIN_RESERVED. cbn [cells timestamps].
    do 3 step. store_simpl. cbn [N.eqb].
    repeat (step; store_simpl).
    rewrite Hwrap'. unfold store. rewrite at_oob; [by rewrite Hts|].
    unfold inb. rewrite Hts. unfold U64_MOD in *. lia.
Qed.

Lemma free_index_wrapped_index_witness :
  ∃ d' s,
    free_index (U64_MOD - 2) arena3 = Ok (true, d') ∧
    get_oldest_index 0 d' = Ok (true, s) ∧
    (s < 3)%N ∧
    is_index_allocated s d' = Ok false ∧
    allocate_new_index 5 0 d' = Err (OutOfBounds (U64_MOD - 2) (N.to_nat 3)).
Proof.
  apply (free_index_wrapped_index 3 arena3 5 0).
  - reach (@nil arena_op) arena3.
  - reflexivity.
Defined.

(** ** The links are a function of the two lists *)

Lemma rep_free_cell n c ts al f1 x f2 :
  rep n {| cells := c; timestamps := ts |} al (f1 ++ x :: f2) →
  nxt c x = hd_or 1%N f2 ∧ prv c x = hd_or 1%N f2.
Proof.
  intros R.
  pose proof (rep_fl_prev _ _ _ _ R x ltac:(set_solver)) as H'.
  pose proof (rep_fl_next _ _ _ _ R) as H. apply linked_ring_at in H as [_ Hn].
  cbn in H', Hn. by rewrite H', Hn.
Qed.

Lemma rep_unique n d d' al fl :
  rep n d al fl → rep n d' al fl → cells d = cells d'.
Proof.
  intros R R'. destruct d as [c ts], d' as [c' ts']. cbn.
  pose proof (rep_cells _ _ _ _ R) as Hlen.
  pose proof (rep_cells _ _ _ _ R') as Hlen'. cbn in Hlen, Hlen'.
  apply list_eq. intros i.
  destruct (decide (i < N.to_nat n + 2)) as [Hi|Hi].
  2:{ rewrite !(proj2 (lookup_ge_None _ _)); [done|lia|lia]. }
  replace i with (N.to_nat (N.of_nat i)) by lia.
  assert (N.of_nat i < n + 2)%N as Hj by lia.
  generalize dependent (N.of_nat i). clear i Hi. intros j Hj.
  rewrite (lookup_fields c j), (lookup_fields c' j) by (unfold inb; lia).
  assert (nxt c j = nxt c' j ∧ prv c j = prv c' j) as [-> ->]; [|done].
  destruct (decide (j = 0%N)) as [->|H0].
  { pose proof (linked_ring_head _ _ _ (rep_al_next _ _ _ _ R)) as Ha.
    pose proof (linked_ring_head _ _ _ (rep_al_next _ _ _ _ R')) as Ha'.
    pose proof (linked_ring_head _ _ _ (rep_al_prev _ _ _ _ R)) as Hb.
    pose proof (linked_ring_head _ _ _ (rep_al_prev _ _ _ _ R')) as Hb'.
    cbn in Ha, Ha', Hb, Hb'. by rewrite Ha, Ha', Hb, Hb'. }
  destruct (decide (j = 1%N)) as [->|H1].
  { pose proof (rep_fl_prev _ _ _ _ R 1%N ltac:(set_solver)) as Hp.
    pose proof (rep_fl_prev _ _ _ _ R' 1%N ltac:(set_solver)) as Hp'.
    pose proof (linked_ring_head _ _ _ (rep_fl_next _ _ _ _ R)) as Ha.
    pose proof (linked_ring_head _ _ _ (rep_fl_next _ _ _ _ R')) as Ha'.
    cbn in Hp, Hp', Ha, Ha'. by rewrite Hp, Hp', Ha, Ha'. }
  destruct (rep_slot R j ltac:(lia)) as [Hin|Hin].
  - destruct (elem_of_split_list _ _ Hin) as (l1 & l2 & ->).
    by rewrite (unlink_nxt R), (unlink_nxt R'), (unlink_prv R), (unlink_prv R').
  - destruct (elem_of_split_list _ _ Hin) as (f1 & f2 & ->).
    destruct (rep_free_cell _ _ _ _ _ _ _ R) as [-> ->].
    by destruct (rep_free_cell _ _ _ _ _ _ _ R') as [-> ->].
Qed.

(** X6. Freeing the slot just allocated undoes the allocation: in every arena
    built by the constructor and driven by calls on slot ids, after a
    successful [allocate_new_index] a [free_index] of the returned slot
    succeeds and puts every link back as it was; only the timestamp of the
    slot keeps the time of the allocation. *)
Theorem allocate_free_round_trip n d time index_out s d1 :
  reachable n d →
  allocate_new_index time index_out d = Ok (true, s, d1) →
  ∃ d2, free_index s d1 = Ok (true, d2) ∧
        cells d2 = cells d ∧
        timestamps d2 = <[N.to_nat s := time]> (timestamps d).
Proof.
  intros (al & fl & R)%reachable_rep Halloc.
  destruct fl as [|x fl].
  { by rewrite (allocate_new_index_full _ _ _ _ _ R) in Halloc. }
  destruct (allocate_new_index_spec _ _ _ _ _ time index_out R) as (d' & Hd' & R' & Hts).
  rewrite Hd' in Halloc. simplify_eq.
  destruct (free_index_occupied _ _ _ _ _ _ R') as (d2 & Hd2 & R2 & Hts2).
  exists d2. split; [done|]. rewrite app_nil_r in R2.
  split; [by eapply rep_unique|]. by rewrite Hts2.
Qed.

Lemma allocate_free_round_trip_witness :
  ∃ d2, free_index 0 arena1_full = Ok (true, d2) ∧
        cells d2 = cells arena1 ∧
        timestamps d2 = <[N.to_nat 0 := 0%Z]> (timestamps arena1).
Proof.
  apply (allocate_free_round_trip 1 arena1 0 0 0 arena1_full).
  - reach (@nil arena_op) arena1.
  - reflexivity.
Defined.

(** ** The tracker: capacity, and what [expire_flows] evicts *)

Lemma tracker_inv_size n ft al fl :
  tracker_inv n ft al fl → size (flow_to_index ft) = length al.
Proof.
  intros I. pose proof (tinv_rep _ _ _ _ I) as R.
  pose proof (rep_NoDup_al R) as [_ Hnd]%NoDup_cons.
  rewrite <-length_map_to_list.
  rewrite <-(length_fmap (λ p : flow_t * N, (p.2 + 2)%N)).
  apply Permutation_length, NoDup_Permutation; [|done|].
  - apply NoDup_fmap_2_strong; [|apply NoDup_map_to_list].
    intros [k1 s1] [k2 s2] H1%elem_of_map_to_list H2%elem_of_map_to_list Heq.
    cbn in Heq. assert (s1 = s2) as -> by lia.
    destruct (tinv_key _ _ _ _ I _ _ H1) as [_ E1].
    destruct (tinv_key _ _ _ _ I _ _ H2) as [_ E2]. congruence.
  - intros x. rewrite list_elem_of_fmap. split.
    + intros ([k s] & -> & H%elem_of_map_to_list).
      by destruct (tinv_key _ _ _ _ I _ _ H).
    + intros Hx. destruct (tinv_slot _ _ _ _ I x Hx) as [k Hk].
      exists (k, (x - 2)%N). pose proof (rep_range_al R x Hx).
      split; [cbn; lia|]. by apply elem_of_map_to_list.
Qed.

Lemma add_flow_new_spec n ft al x fl flow now :
  tracker_inv n ft al (x :: fl) → has_flow flow ft = false →
  ∃ ft', add_flow flow now ft = Ok ft' ∧
         tracker_inv n ft' (al ++ [x]) fl ∧
         flow_to_index ft' = <[flow := (x - 2)%N]> (flow_to_index ft) ∧
         index_to_flow ft' = <[N.to_nat (x - 2) := flow]> (index_to_flow ft) ∧
         timestamps (double_chain ft')
           = <[N.to_nat (x - 2) := now]> (timestamps (double_chain ft)).
Proof.
  intros I Hhas. pose proof (tinv_rep _ _ _ _ I) as R.
  destruct (allocate_new_index_spec _ _ _ _ _ now 0%N R) as (d1 & Hd1 & R1 & Hts).
  pose proof (rep_range_fl R x ltac:(set_solver)) as Hx.
  pose proof (tinv_len _ _ _ _ I) as Hlen.
  assert (add_flow flow now ft
          = Ok {| double_chain := d1;
                  flow_to_index := <[flow := (x - 2)%N]> (flow_to_index ft);
                  index_to_flow := <[N.to_nat (x - 2) := flow]> (index_to_flow ft) |})
    as Hrun.
  { unfold add_flow. rewrite Hhas, Hd1, bind_Ok. cbv beta iota. cbn [negb].
    rewrite bool_decide_eq_true_2 by lia. cbn [negb].
    by rewrite store_inb by (unfold inb; lia). }
  eexists. split; [done|]. split; [|done].
  destruct (add_flow_inv _ _ _ _ _ _ _ I Hrun) as (al' & fl' & I').
  pose proof (tinv_rep _ _ _ _ I') as R'. cbn in R'.
  pose proof (rep_occupied_list _ _ _ _ R1) as E1.
  pose proof (rep_occupied_list _ _ _ _ R') as E1'.
  pose proof (rep_free_list _ _ _ _ R1) as E2.
  pose proof (rep_free_list _ _ _ _ R') as E2'.
  by simplify_eq.
Qed.

(** X7. The tracker never holds more keys than its capacity, and the
    outcome of [add_flow] is decided by it: a present key changes nothing; a
    new key on a full tracker ends in [panic]; a new key otherwise gets a
    slot that was free, both mappings record it and the timestamp of the slot
    is [now]. *)
Theorem add_flow_capacity n ft flow now :
  tracker_reachable n ft →
  size (flow_to_index ft) ≤ N.to_nat n ∧
  if has_flow flow ft then add_flow flow now ft = Ok ft
  else if bool_decide (size (flow_to_index ft) = N.to_nat n)
  then add_flow flow now ft = Err Panic
  else ∃ ft' s,
    add_flow flow now ft = Ok ft' ∧
    (s < n)%N ∧
    is_index_allocated s (double_chain ft) = Ok false ∧
    flow_to_index ft' = <[flow := s]> (flow_to_index ft) ∧
    index_to_flow ft' !! N.to_nat s = Some flow ∧
    timestamps (double_chain ft') !! N.to_nat s = Some now.
Proof.
  intros (al & fl & I)%tracker_reachable_inv.
  pose proof (tinv_rep _ _ _ _ I) as R.
  pose proof (rep_length R) as Hlen.
  rewrite (tracker_inv_size _ _ _ _ I). split; [lia|].
  destruct (has_flow flow ft) eqn:Hhas.
  { unfold add_flow. by rewrite Hhas. }
  destruct fl as [|x fl].
  - rewrite bool_decide_eq_true_2 by (cbn in Hlen; lia).
    unfold add_flow. rewrite Hhas.
    by rewrite (allocate_new_index_full _ _ _ _ _ R).
  - rewrite bool_decide_eq_false_2 by (cbn in Hlen; lia).
    destruct (add_flow_new_spec _ _ _ _ _ flow now I Hhas)
      as (ft' & Hrun & I' & Hf2i & Hi2f & Hts).
    pose proof (rep_range_fl R x ltac:(set_solver)) as Hx.
    exists ft', (x - 2)%N. split_and!; [done|lia| |done|..].
    + rewrite (is_index_allocated_spec _ _ _ _ _ R) by lia.
      rewrite bool_decide_eq_false_2; [done|]. intros Hin.
      apply (rep_disjoint R x); [|set_solver].
      by replace x with (x - 2 + 2)%N by lia.
    + rewrite Hi2f. apply list_lookup_insert_eq.
      rewrite (tinv_len _ _ _ _ I). lia.
    + rewrite Hts. apply list_lookup_insert_eq.
      rewrite (rep_ts _ _ _ _ R). lia.
Qed.

Lemma add_flow_capacity_witness :
  size (flow_to_index tracker1_flow) ≤ N.to_nat 1 ∧
  if has_flow flow_default tracker1_flow
  then add_flow flow_default 7 tracker1_flow = Ok tracker1_flow
  else if bool_decide (size (flow_to_index tracker1_flow) = N.to_nat 1)
  then add_flow flow_default 7 tracker1_flow = Err Panic
  else ∃ ft' s,
    add_flow flow_default 7 tracker1_flow = Ok ft' ∧
    (s < 1)%N ∧
    is_index_allocated s (double_chain tracker1_flow) = Ok false ∧
    flow_to_index ft' = <[flow_default := s]> (flow_to_index tracker1_flow) ∧
    index_to_flow ft' !! N.to_nat s = Some flow_default ∧
    timestamps (double_chain ft') !! N.to_nat s = Some 7%Z.
Proof.
  apply (add_flow_capacity 1 tracker1_flow flow_default 7).
  split; [lia|]. split; [reflexivity|].
  exists [OpAddFlow demo_flow 0], tracker1.
  split; [reflexivity|]. vm_compute. reflexivity.
Defined.

(** The loop of [expire_flows] frees the slots of the occupied list in order,
    for as long as the oldest one is expired. *)
Lemma expire_loop_prefix n now al : ∀ fuel count index_out ft fl,
  tracker_inv n ft al fl →
  length al < fuel →
  (I64_MIN ≤ now - EXPIRATION_TIME_NS ≤ I64_MAX)%Z →
  (count + N.of_nat (length al) < U64_MOD)%N →
  ∃ al1 al2 ft',
    al = al1 ++ al2 ∧
    expire_loop fuel now count index_out ft
      = Ok ((count + N.of_nat (length al1))%N, ft') ∧
    tracker_inv n ft' al2 (reverse al1 ++ fl) ∧
    (∀ k s, flow_to_index ft' !! k = Some s ↔
            flow_to_index ft !! k = Some s ∧ (s + 2)%N ∈ al2) ∧
    timestamps (double_chain ft') = timestamps (double_chain ft) ∧
    index_to_flow ft' = index_to_flow ft ∧
    Forall (λ x, slot_expired (double_chain ft) now (x - 2)) al1 ∧
    (∀ x al2', al2 = x :: al2' → ¬ slot_expired (double_chain ft) now (x - 2)) ∧
    (al1 = [] → ft' = ft).
Proof.
  induction al as [|x al IH]; intros fuel count index_out ft fl I Hfuel Hnow Hcount.
  - destruct fuel as [|fuel]; [lia|]. cbn [expire_loop].
    rewrite (expire_one_index_empty _ _ _ _ _ (tinv_rep _ _ _ _ I)), bind_Ok.
    cbv beta iota. exists [], [], ft. destruct ft as [dc f2i i2f]. cbn.
    rewrite N.add_0_r. split_and!; try done.
    intros k s. split; [|tauto]. intros Hk. split; [done|].
    by destruct (tinv_key _ _ _ _ I k s Hk) as [?%elem_of_nil _].
  - destruct fuel as [|fuel]; [lia|]. cbn [expire_loop].
    pose proof (tinv_rep _ _ _ _ I) as R.
    pose proof (rep_range_al R x ltac:(set_solver)) as Hx.
    pose proof (rep_NoDup_al R) as Hnd.
    destruct (expire_one_index_oldest _ _ _ _ _ _ index_out R Hnow) as (t & Ht & H).
    destruct (bool_decide _) eqn:Hexp.
    + apply bool_decide_eq_true in Hexp.
      destruct H as (d1 & -> & _ & R1 & Hts1). rewrite bind_Ok. cbv beta iota.
      pose proof (tinv_len _ _ _ _ I) as Hlen.
      rewrite bool_decide_eq_true_2 by lia. cbn [negb].
      destruct (tinv_slot _ _ _ _ I x ltac:(set_solver)) as [kx Hkx].
      destruct (tinv_key _ _ _ _ I kx _ Hkx) as [_ Hkx'].
      unfold at_. rewrite Hkx', bind_Ok.
      rewrite u64_add_small by (cbn in Hcount; lia).
      set (ft1 := {| double_chain := d1;
                     flow_to_index := delete kx (flow_to_index ft);
                     index_to_flow := index_to_flow ft |}).
      assert (tracker_inv n ft1 al (x :: fl)) as I1.
      { constructor; cbn; [done|done|..].
        - intros k s Hk. apply lookup_delete_Some in Hk as [Hne Hk].
          destruct (tinv_key _ _ _ _ I k s Hk) as [Hin Hk'].
          split; [|done]. apply elem_of_cons in Hin as [Heq|Hin]; [|done].
          destruct Hne. replace s with (x - 2)%N in Hk' by lia. congruence.
        - intros a Ha. destruct (tinv_slot _ _ _ _ I a ltac:(set_solver)) as [k Hk].
          exists k. rewrite lookup_delete_ne; [done|]. intros <-.
          pose proof (rep_range_al R a ltac:(set_solver)).
          assert (a = x) as -> by (simplify_eq; lia).
          apply NoDup_cons in Hnd as [_ Hnd]. apply NoDup_cons in Hnd as [Hnd _]. done. }
      destruct (IH fuel (count + 1)%N (x - 2)%N ft1 (x :: fl) I1)
        as (al1 & al2 & ft' & -> & -> & I' & Hkeys & Hts' & Hi2f & Hall & Hhd & _);
        [cbn in Hfuel; lia|done|cbn in Hcount; lia|].
      subst ft1. cbn [double_chain flow_to_index index_to_flow] in *.
      exists (x :: al1), al2, ft'.
      split_and!; [done| | | |congruence|done| | |done].
      * do 2 f_equal. cbn. lia.
      * by rewrite reverse_cons, <-app_assoc.
      * intros k s. rewrite Hkeys. cbn. rewrite lookup_delete_Some. split.
        -- intros [[_ ?] ?]. done.
        -- intros [Hk Hin]. split; [|done]. split; [|done]. intros <-.
           assert (s + 2 = x)%N as Hs by (simplify_eq; lia).
           rewrite Hs in Hin.
           apply NoDup_cons in Hnd as [_ Hnd]. apply NoDup_cons in Hnd as [Hnd _].
           apply Hnd. set_solver.
      * constructor; [by exists t|].
        eapply Forall_impl; [exact Hall|]. intros y (ty & Hty & ?).
        exists ty. by rewrite <-Hts1.
      * intros y al2' E (ty & Hty & ?). apply (Hhd y al2' E).
        exists ty. by rewrite Hts1.
    + apply bool_decide_eq_false in Hexp. rewrite H, bind_Ok. cbv beta iota.
      exists [], (x :: al), ft. destruct ft as [dc f2i i2f]. cbn.
      rewrite N.add_0_r. split_and!; try done.
      * intros k s. split; [|tauto]. intros Hk. split; [done|].
        by destruct (tinv_key _ _ _ _ I k s Hk).
      * intros y al2' E (ty & Hty & ?). cbn in Ht. by simplify_eq.
Qed.

Lemma expire_flows_prefix n ft al fl now :
  tracker_inv n ft al fl →
  (I64_MIN ≤ now - EXPIRATION_TIME_NS ≤ I64_MAX)%Z →
  ∃ al1 al2 ft',
    al = al1 ++ al2 ∧
    expire_flows now ft = Ok (N.of_nat (length al1), ft') ∧
    tracker_inv n ft' al2 (reverse al1 ++ fl) ∧
    (∀ k s, flow_to_index ft' !! k = Some s ↔
            flow_to_index ft !! k = Some s ∧ (s + 2)%N ∈ al2) ∧
    timestamps (double_chain ft') = timestamps (double_chain ft) ∧
    index_to_flow ft' = index_to_flow ft ∧
    Forall (λ x, slot_expired (double_chain ft) now (x - 2)) al1 ∧
    (∀ x al2', al2 = x :: al2' → ¬ slot_expired (double_chain ft) now (x - 2)) ∧
    (al1 = [] → ft' = ft).
Proof.
  intros I Hnow. pose proof (tinv_rep _ _ _ _ I) as R.
  pose proof (rep_length R) as Hlen. pose proof (rep_cap _ _ _ _ R) as Hcap.
  pose proof (tinv_len _ _ _ _ I) as Hlen'.
  apply (expire_loop_prefix n now al (S (length (index_to_flow ft))) 0%N 0%N ft fl I);
    [lia|done|lia].
Qed.

(** X8. [expire_flows] evicts by position in the occupied list, not by age
    alone: in every tracker built by the constructor and driven by [add_flow]
    and [expire_flows], for [now - EXPIRATION_TIME_NS] an [i64], it frees the
    longest run of expired slots at the oldest end of the occupied list and
    stops at the first slot that is not expired, whatever follows it. The
    count returned is the length of the run, and the keys left are the keys
    of the slots that stay occupied. *)
Theorem expire_flows_longest_prefix n ft now :
  tracker_reachable n ft →
  (I64_MIN ≤ now - EXPIRATION_TIME_NS ≤ I64_MAX)%Z →
  ∃ al1 al2 ft',
    occupied_list (double_chain ft) = Some (al1 ++ al2) ∧
    expire_flows now ft = Ok (N.of_nat (length al1), ft') ∧
    occupied_list (double_chain ft') = Some al2 ∧
    Forall (λ x, slot_expired (double_chain ft) now (x - INDEX_SHIFT)) al1 ∧
    (∀ x al2', al2 = x :: al2' →
               ¬ slot_expired (double_chain ft) now (x - INDEX_SHIFT)) ∧
    (∀ k s, flow_to_index ft' !! k = Some s ↔
            flow_to_index ft !! k = Some s ∧ (s + INDEX_SHIFT)%N ∈ al2).
Proof.
  intros (al & fl & I)%tracker_reachable_inv Hnow.
  destruct (expire_flows_prefix _ _ _ _ _ I Hnow)
    as (al1 & al2 & ft' & -> & Hrun & I' & Hkeys & _ & _ & Hall & Hhd & _).
  exists al1, al2, ft'. split_and!; try done.
  - eapply rep_occupied_list, (tinv_rep _ _ _ _ I).
  - eapply rep_occupied_list, (tinv_rep _ _ _ _ I').
Qed.

Lemma expire_flows_longest_prefix_witness :
  ∃ al1 al2 ft',
    occupied_list (double_chain tracker1_flow) = Some (al1 ++ al2) ∧
    expire_flows 2000000000 tracker1_flow = Ok (N.of_nat (length al1), ft') ∧
    occupied_list (double_chain ft') = Some al2 ∧
    Forall (λ x, slot_expired (double_chain tracker1_flow) 2000000000
                   (x - INDEX_SHIFT)) al1 ∧
    (∀ x al2', al2 = x :: al2' →
               ¬ slot_expired (double_chain tracker1_flow) 2000000000
                   (x - INDEX_SHIFT)) ∧
    (∀ k s, flow_to_index ft' !! k = Some s ↔
            flow_to_index tracker1_flow !! k = Some s ∧ (s + INDEX_SHIFT)%N ∈ al2).
Proof.
  apply (expire_flows_longest_prefix 1 tracker1_flow 2000000000).
  - split; [lia|]. split; [reflexivity|].
    exists [OpAddFlow demo_flow 0], tracker1.
    split; [reflexivity|]. vm_compute. reflexivity.
  - vm_compute. split; discriminate.
Defined.

(** X9. A second [expire_flows] at the same time finds nothing to evict: in
    every such tracker, after [expire_flows now] has returned,
    [expire_flows now] returns 0 and leaves the tracker as it was. *)
Theorem expire_flows_twice n ft now count ft' :
  tracker_reachable n ft →
  expire_flows now ft = Ok (count, ft') →
  expire_flows now ft' = Ok (0%N, ft').
Proof.
  intros (al & fl & I)%tracker_reachable_inv Hrun.
  pose proof (tinv_rep _ _ _ _ I) as R.
  destruct (decide (I64_MIN ≤ now - EXPIRATION_TIME_NS ≤ I64_MAX)%Z) as [Hnow|Hnow].
  - destruct (expire_flows_prefix _ _ _ _ _ I Hnow)
      as (al1 & al2 & ft1 & -> & Hrun1 & I1 & _ & Hts & _ & _ & Hhd & _).
    rewrite Hrun in Hrun1. simplify_eq.
    destruct (expire_flows_prefix _ _ _ _ _ I1 Hnow)
      as (b1 & b2 & ft2 & -> & Hrun2 & _ & _ & _ & _ & Hall & _ & Hsame).
    destruct b1 as [|x b1].
    + rewrite Hrun2. cbn. by rewrite Hsame.
    + apply Forall_cons in Hall as [(t & Ht & Hlt) _].
      destruct (Hhd x (b1 ++ b2) eq_refl). exists t. by rewrite <-Hts.
  - unfold expire_flows in *. destruct al as [|x al]; cbn [expire_loop] in *.
    + rewrite (expire_one_index_empty _ _ _ _ _ R), bind_Ok in Hrun.
      cbv beta iota in Hrun. simplify_eq. cbn.
      rewrite (expire_one_index_empty _ _ _ _ _ R), bind_Ok. done.
    + by rewrite (expire_one_index_overflow _ _ _ _ _ _ _ R Hnow) in Hrun.
Qed.

Lemma expire_flows_twice_witness :
  expire_flows 2000000000
    {| double_chain := ok_or no_arena (run_ops [OpFree 0] arena1_full);
       flow_to_index := ∅; index_to_flow := [demo_flow] |}
  = Ok (0%N, {| double_chain := ok_or no_arena (run_ops [OpFree 0] arena1_full);
                flow_to_index := ∅; index_to_flow := [demo_flow] |}).
Proof.
  apply (expire_flows_twice 1 tracker1_flow 2000000000 1).
  - split; [lia|]. split; [reflexivity|].
    exists [OpAddFlow demo_flow 0], tracker1.
    split; [reflexivity|]. vm_compute. reflexivity.
  - vm_compute. reflexivity.
Defined.

(** X10. The age of a flow counts from its first [add_flow]: a repeated
    [add_flow] of the key, at any later time [t1], does not refresh it. On a
    fresh tracker, a flow added at [t0] and seen again at [t1] is evicted by
    [expire_flows now] as soon as [t0 < now - EXPIRATION_TIME_NS], however
    recent [t1] is. *)
Theorem expiry_counts_from_first_insert n ft0 flow t0 t1 now ft1 :
  (1 ≤ n)%N → (n + 2 < U64_MOD)%N →
  FlowTracker_ctor n = Ok ft0 →
  add_flow flow t0 ft0 = Ok ft1 →
  (I64_MIN ≤ now - EXPIRATION_TIME_NS ≤ I64_MAX)%Z →
  (t0 < now - EXPIRATION_TIME_NS)%Z →
  add_flow flow t1 ft1 = Ok ft1 ∧
  ∃ ft2, expire_flows now ft1 = Ok (1%N, ft2) ∧ has_flow flow ft2 = false.
Proof.
  intros Hn Hcap Hctor Hadd Hnow Hold.
  pose proof (FlowTracker_ctor_inv _ _ Hn Hcap Hctor) as I0.
  assert (has_flow flow ft0 = false) as Hhas0.
  { unfold FlowTracker_ctor in Hctor.
    apply bind_Ok_inv in Hctor as (dc & _ & Hctor). by simplify_eq. }
  pose proof (tinv_rep _ _ _ _ I0) as R0.
  destruct (slot_cells n) as [|x fl] eqn:Hsl.
  { pose proof (length_slot_cells n) as Hl. rewrite Hsl in Hl. cbn in Hl. lia. }
  pose proof (rep_range_fl R0 x ltac:(set_solver)) as Hx.
  destruct (add_flow_new_spec _ _ _ _ _ flow t0 I0 Hhas0)
    as (ft' & Hrun & I1 & Hf2i & _ & Hts).
  rewrite Hrun in Hadd. simplify_eq. cbn [app] in I1.
  split.
  { unfold add_flow, has_flow. rewrite Hf2i, lookup_insert_eq.
    by rewrite bool_decide_eq_true_2 by eauto. }
  assert (slot_expired (double_chain ft1) now (x - 2)) as Hexp.
  { exists t0. split; [|done]. rewrite Hts. apply list_lookup_insert_eq.
    rewrite (rep_ts _ _ _ _ R0). lia. }
  destruct (expire_flows_prefix _ _ _ _ _ I1 Hnow)
    as (al1 & al2 & ft2 & E & Hrun2 & _ & Hkeys & _ & _ & _ & Hhd & _).
  destruct al1 as [|y al1].
  { cbn in E. subst al2. by destruct (Hhd x [] eq_refl). }
  cbn in E. injection E as <- E. symmetry in E.
  apply app_eq_nil in E as [-> ->].
  exists ft2. split; [done|].
  apply bool_decide_eq_false. intros [s Hs].
  apply Hkeys in Hs as [_ []%elem_of_nil].
Qed.

Lemma expiry_counts_from_first_insert_witness :
  add_flow demo_flow 1999999999 tracker1_flow = Ok tracker1_flow ∧
  ∃ ft2, expire_flows 2000000000 tracker1_flow = Ok (1%N, ft2) ∧
         has_flow demo_flow ft2 = false.
Proof.
  apply (expiry_counts_from_first_insert 1 tracker1 demo_flow 0 1999999999
           2000000000 tracker1_flow).
  - lia.
  - reflexivity.
  - reflexivity.
  - vm_compute. reflexivity.
  - vm_compute. split; discriminate.
  - reflexivity.
Defined.

(** ** The clock of the epochs *)

Lemma i64_add_Ok a b r : i64_add a b = Ok r → r = (a + b)%Z.
Proof.
  unfold i64_add. cbv zeta. destruct (bool_decide _); [|done]. by intros [= <-].
Qed.

Lemma alarms_cons b bs : alarms (b :: bs) = ((if b then 1 else 0) + alarms bs)%Z.
Proof.
  unfold alarms. destruct b.
  - rewrite filter_cons_True by done. cbn [length]. lia.
  - rewrite filter_cons_False by done. lia.
Qed.

Lemma ticks_on_spec times : ∀ c bs c',
  Clock.on c = true → (0 ≤ Clock.epoch_duration c)%Z →
  Clock.ticks times c = Ok (bs, c') →
  Clock.on c' = true ∧ Clock.epoch_duration c' = Clock.epoch_duration c ∧
  length bs = length times ∧
  (Clock.alarm c + Clock.epoch_duration c * alarms bs ≤ Clock.alarm c')%Z ∧
  ((Clock.alarm c' = Clock.alarm c ∧ alarms bs = 0%Z) ∨
   ∃ t, t ∈ times ∧ Clock.alarm c' = (t + Clock.epoch_duration c)%Z).
Proof.
  induction times as [|now times IH]; intros c bs c' Hon He Hrun.
  - cbn in Hrun. simplify_eq. split_and!; try done; [unfold alarms; cbn; lia|].
    left. by unfold alarms.
  - cbn [Clock.ticks] in Hrun.
    apply bind_Ok_inv in Hrun as ([b c1] & Htick & Hrun).
    apply bind_Ok_inv in Hrun as ([bs1 c2] & Hrest & Hrun). simplify_eq.
    unfold Clock.tick in Htick. rewrite Hon in Htick. cbn [negb] in Htick.
    destruct (bool_decide (Clock.alarm c ≤ now)%Z) eqn:Hring.
    + apply bool_decide_eq_true in Hring.
      apply bind_Ok_inv in Htick as (a & Ha%i64_add_Ok & Htick). simplify_eq.
      apply IH in Hrest as (Hon' & He' & Hlen & Hle & Hor); [|done|done].
      cbn in *. rewrite alarms_cons.
      split_and!; [done|done|by rewrite Hlen|nia|].
      right. destruct Hor as [[-> _]|(t & Ht & ->)].
      * exists now. split; [set_solver|done].
      * exists t. split; [set_solver|done].
    + apply bool_decide_eq_false in Hring. simplify_eq.
      destruct (IH _ _ _ Hon He Hrest) as (Hon' & He' & Hlen & Hle & Hor).
      rewrite alarms_cons. split_and!; [done|done|by cbn; rewrite Hlen|lia|].
      destruct Hor as [[-> ->]|(t & Ht & ->)]; [by left|].
      right. exists t. split; [set_solver|done].
Qed.

(** X11. The clock never sounds on its first tick, whatever the time, and
    [k] alarms take [k] epochs: for an epoch duration [e >= 0], after a run of
    ticks that started at time [t1] on a new clock and sounded [k] alarms,
    the alarm is set one epoch after the time [t] of one of the ticks, and
    [t1 + k * e <= t]. *)
Theorem clock_alarms_spacing e t1 times bs c' :
  (0 ≤ e)%Z →
  Clock.ticks (t1 :: times) (Clock.ctor e) = Ok (bs, c') →
  head bs = Some false ∧
  length bs = S (length times) ∧
  Clock.on c' = true ∧
  ∃ t, t ∈ t1 :: times ∧ Clock.alarm c' = (t + e)%Z ∧
       (t1 + alarms bs * e ≤ t)%Z.
Proof.
  intros He Hrun. cbn [Clock.ticks] in Hrun.
  apply bind_Ok_inv in Hrun as ([b c1] & Htick & Hrun).
  apply bind_Ok_inv in Hrun as ([bs1 c2] & Hrest & Hrun). simplify_eq.
  unfold Clock.tick, Clock.ctor in Htick. cbn in Htick.
  apply bind_Ok_inv in Htick as (a & Ha%i64_add_Ok & Htick). simplify_eq.
  apply ticks_on_spec in Hrest as (Hon' & He' & Hlen & Hle & Hor); [|done|done].
  cbn in *. rewrite alarms_cons.
  split_and!; [done|by rewrite Hlen|done|].
  destruct Hor as [[E1 E2]|(t & Ht & E)].
  - exists t1. split; [set_solver|]. split; [done|]. rewrite E2. lia.
  - exists t. split; [set_solver|]. split; [done|]. nia.
Qed.

Lemma clock_alarms_spacing_witness :
  head [false; false; true; false] = Some false ∧
  length [false; false; true; false] = S (length [5; 10; 11]%Z) ∧
  Clock.on {| Clock.epoch_duration := 10; Clock.on := true; Clock.alarm := 20 |}
    = true ∧
  ∃ t, t ∈ [0; 5; 10; 11]%Z ∧
       Clock.alarm
         {| Clock.epoch_duration := 10; Clock.on := true; Clock.alarm := 20 |}
       = (t + 10)%Z ∧
       (0 + alarms [false; false; true; false] * 10 ≤ t)%Z.
Proof.
  apply (clock_alarms_spacing 10 0 [5; 10; 11]%Z [false; false; true; false]
           {| Clock.epoch_duration := 10; Clock.on := true; Clock.alarm := 20 |}).
  - lia.
  - reflexivity.
Defined.

(** ** Flow keys *)

Lemma flow_eq_true a b : flow_eq a b = true ↔ a = b.
Proof.
  destruct a as [[] a1 a2 a3 a4], b as [[] b1 b2 b3 b4]. unfold flow_eq. cbn.
  rewrite bool_decide_eq_true_2 by done. cbn [negb].
  rewrite !andb_true_iff, !N.eqb_eq. split.
  - intros [[[-> ->] ->] ->]. done.
  - intros [= -> -> -> ->]. done.
Qed.

Lemma sflow_eq_true a b :
  Sflow.eq a b = true ↔
  (Sflow.src_ip a = Sflow.src_ip b ∧ Sflow.dst_ip a = Sflow.dst_ip b ∧
   Sflow.src_port a = Sflow.src_port b ∧ Sflow.dst_port a = Sflow.dst_port b) ∨
  (Sflow.src_ip a = Sflow.dst_ip b ∧ Sflow.dst_ip a = Sflow.src_ip b ∧
   Sflow.src_port a = Sflow.dst_port b ∧ Sflow.dst_port a = Sflow.src_port b).
Proof.
  unfold Sflow.eq. rewrite orb_true_iff, !andb_true_iff, !N.eqb_eq. tauto.
Qed.



(** X13. [flow_t::operator==] holds exactly for equal keys; [invert] undoes
    itself; and two flows are the same [sflow_t] exactly when they are equal
    or one is the inverse of the other, so a set of [sflow_t] counts a
    connection once for its two directions. *)
Theorem flow_keys a b :
  (flow_eq a b = true ↔ a = b) ∧
  invert (invert a) = a ∧
  (Sflow.eq (Sflow.of_flow a) (Sflow.of_flow b) = true ↔ a = b ∨ a = invert b).
Proof.
  split; [apply flow_eq_true|]. split.
  { by destruct a as [[] ? ? ? ?]. }
  rewrite sflow_eq_true.
  destruct a as [[] a1 a2 a3 a4], b as [[] b1 b2 b3 b4]. cbn. split.
  - intros [(-> & -> & -> & ->)|(-> & -> & -> & ->)]; [by left|by right].
  - intros [[= -> -> -> ->]|[= -> -> -> ->]]; tauto.
Qed.

(** ** The histograms *)

Lemma u64_add_mod_l a b : u64_add (a mod U64_MOD) b = ((a + b) mod U64_MOD)%N.
Proof. unfold u64_add. by rewrite N.Div0.add_mod_idemp_l. Qed.

Lemma cdf_add_is_add_count v c : Cdf.add v c = Cdf.add_count v 1 c.
Proof. reflexivity. Qed.

Lemma cdf_add_all_snoc l p c :
  Cdf.add_all (l ++ [p]) c = Cdf.add_count p.1 p.2 (Cdf.add_all l c).
Proof. unfold Cdf.add_all. by rewrite foldl_app. Qed.

Lemma sum_N_app l1 l2 : sum_N (l1 ++ l2) = (sum_N l1 + sum_N l2)%N.
Proof.
  unfold sum_N. induction l1 as [|a l1 IH]; cbn; [done|]. rewrite IH. lia.
Qed.

Lemma filter_fst_nil (v : N) (l : list (N * N)) :
  v ∉ l.*1 → filter (λ p, p.1 = v) l = [].
Proof.
  induction l as [|p l IH]; [done|]. intros Hv. cbn in Hv.
  rewrite filter_cons_False by set_solver. apply IH. set_solver.
Qed.

(** X14. A [CDF] filled by calls of [add(value, count)] holds, for every
    value added, the sum of its counts, and in [total] the sum of all the
    counts, both modulo 2^64; a value never added has no entry; and
    [add(value)] is [add(value, 1)]. *)
Theorem cdf_add_all_spec l :
  Cdf.total (Cdf.add_all l Cdf.ctor) = (sum_N l.*2 mod U64_MOD)%N ∧
  (∀ v, Cdf.values (Cdf.add_all l Cdf.ctor) !! v =
        if bool_decide (v ∈ l.*1)
        then Some ((sum_N (filter (λ p, p.1 = v) l).*2) mod U64_MOD)%N
        else None) ∧
  (∀ v c, Cdf.add v c = Cdf.add_count v 1 c).
Proof.
  split_and!; [| |done].
  - induction l as [|p l IH] using rev_ind; [done|].
    rewrite cdf_add_all_snoc. cbn. rewrite IH, u64_add_mod_l.
    rewrite fmap_app, sum_N_app. cbn. do 2 f_equal. lia.
  - induction l as [|p l IH] using rev_ind; intros v.
    { cbn. by rewrite lookup_empty. }
    rewrite cdf_add_all_snoc. cbn [Cdf.add_count Cdf.values].
    rewrite fmap_app, filter_app, fmap_app, sum_N_app. cbn [fmap list_fmap].
    destruct (decide (p.1 = v)) as [E|E].
    + rewrite E, lookup_insert_eq, IH.
      rewrite (bool_decide_eq_true_2 (v ∈ _ ++ _)) by set_solver.
      rewrite filter_cons_True by done. cbn. f_equal.
      destruct (bool_decide (v ∈ l.*1)) eqn:Hin.
      * cbn. rewrite u64_add_mod_l. f_equal. lia.
      * apply bool_decide_eq_false in Hin. rewrite (filter_fst_nil _ _ Hin).
        cbn. unfold u64_add. f_equal. lia.
    + rewrite lookup_insert_ne, IH by done.
      rewrite filter_cons_False by done. cbn. rewrite N.add_0_r.
      destruct (bool_decide (v ∈ l.*1)) eqn:Hin.
      * apply bool_decide_eq_true in Hin.
        by rewrite bool_decide_eq_true_2 by set_solver.
      * apply bool_decide_eq_false in Hin.
        by rewrite bool_decide_eq_false_2 by set_solver.
Qed.

Lemma cdf_add_count_comm v1 c1 v2 c2 c :
  Cdf.add_count v1 c1 (Cdf.add_count v2 c2 c)
  = Cdf.add_count v2 c2 (Cdf.add_count v1 c1 c).
Proof.
  unfold Cdf.add_count. cbn. f_equal.
  - apply map_eq. intros k.
    destruct (decide (v1 = v2)) as [->|Hne].
    + rewrite !lookup_insert_eq. cbn.
      destruct (decide (k = v2)) as [->|Hk].
      * rewrite !lookup_insert_eq. f_equal. unfold u64_add.
        rewrite !N.Div0.add_mod_idemp_l. f_equal. lia.
      * by rewrite !lookup_insert_ne by done.
    + rewrite !(lookup_insert_ne _ v2 v1), !(lookup_insert_ne _ v1 v2) by done.
      destruct (decide (k = v1)) as [->|Hk1].
      * rewrite lookup_insert_eq, lookup_insert_ne, lookup_insert_eq by done. done.
      * rewrite (lookup_insert_ne _ v1 k) by done.
        destruct (decide (k = v2)) as [->|Hk2].
        -- by rewrite !lookup_insert_eq.
        -- by rewrite !lookup_insert_ne by done.
  - unfold u64_add. rewrite !N.Div0.add_mod_idemp_l. f_equal. lia.
Qed.

(** X15. The order of the calls of [add] does not matter: two lists of calls
    that are permutations of each other leave the same [CDF], from any
    [CDF]. The histograms filled while iterating over an
    [std::unordered_map], whose order is not specified, are therefore well
    determined. *)
Theorem cdf_add_all_permutation l l' c :
  l ≡ₚ l' → Cdf.add_all l c = Cdf.add_all l' c.
Proof.
  intros H. revert c. induction H as [|p l l' H IH|p q l|l l' l'' H1 IH1 H2 IH2];
    intros c; cbn.
  - done.
  - apply IH.
  - unfold Cdf.add_all. cbn. by rewrite cdf_add_count_comm.
  - by rewrite IH1.
Qed.

Lemma cdf_add_all_permutation_witness :
  Cdf.add_all [(64, 1); (1500, 2); (64, 3)]%N Cdf.ctor
  = Cdf.add_all [(1500, 2); (64, 3); (64, 1)]%N Cdf.ctor.
Proof.
  apply (cdf_add_all_permutation [(64, 1); (1500, 2); (64, 3)]%N
           [(1500, 2); (64, 3); (64, 1)]%N Cdf.ctor).
  by rewrite (Permutation_cons_append _ (64, 1)%N).
Defined.

(** ** The statistics fed packet by packet *)

Lemma feed_packets_snoc_inv ps p : ∀ t t2 lines,
  Stats.feed_packets (ps ++ [p]) t = Ok (t2, lines) →
  ∃ t1 lines1 line,
    Stats.feed_packets ps t = Ok (t1, lines1) ∧
    Stats.feed_packet p t1 = Ok (t2, line).
Proof.
  induction ps as [|q ps IH]; intros t t2 lines H.
  - cbn in H. apply bind_Ok_inv in H as ([t1 line] & Hp & H).
    cbn in H. simplify_eq. by exists t, [], line.
  - cbn [app Stats.feed_packets] in H.
    apply bind_Ok_inv in H as ([t1 line] & Hq & H).
    apply bind_Ok_inv in H as ([t3 lines3] & Hrest & H). simplify_eq.
    destruct (IH _ _ _ Hrest) as (t1' & lines1 & line' & Hps & Hp).
    exists t1', (from_option (λ l, [l]) [] line ++ lines1), line'.
    split; [|done]. cbn [Stats.feed_packets]. by rewrite Hq, bind_Ok, Hps.
Qed.

(** Induction over a run from the constructed tracker: the packets fed so
    far and the state reached. *)
Lemma feed_packets_ind e (P : list Net.packet_t → Stats.traffic_stats_tracker_t → Prop) :
  P [] (Stats.ctor e) →
  (∀ ps p t t' line,
     P ps t → Stats.feed_packet p t = Ok (t', line) → P (ps ++ [p]) t') →
  ∀ ps t lines, Stats.feed_packets ps (Stats.ctor e) = Ok (t, lines) → P ps t.
Proof.
  intros Hbase Hstep ps. induction ps as [|p ps IH] using rev_ind; intros t lines H.
  - cbn in H. by simplify_eq.
  - apply feed_packets_snoc_inv in H as (t1 & lines1 & line & Hps & Hp).
    eapply Hstep; [|done]. by eapply IH.
Qed.

(** What one [feed_packet] does, by the flow of the packet. *)
Lemma feed_packet_no_flow p t t' line :
  Net.flow p = None → Stats.feed_packet p t = Ok (t', line) →
  line = None ∧
  Stats.clock t' = Stats.clock t ∧ Stats.flows t' = Stats.flows t ∧
  Stats.symm_flows t' = Stats.symm_flows t ∧
  Stats.concurrent_flows_per_epoch t' = Stats.concurrent_flows_per_epoch t ∧
  Stats.pkts_per_flow t' = Stats.pkts_per_flow t ∧
  Stats.bytes_per_flow t' = Stats.bytes_per_flow t ∧
  Stats.flow_times t' = Stats.flow_times t ∧
  Stats.report t' = Report.count_packet p (Stats.report t).
Proof.
  intros Hf H. unfold Stats.feed_packet in H. rewrite Hf in H. by simplify_eq.
Qed.

Lemma feed_packet_flow p f t t' line :
  Net.flow p = Some f → Stats.feed_packet p t = Ok (t', line) →
  ∃ b epochs',
    Clock.tick (Net.ts p) (Stats.clock t) = Ok (b, Stats.clock t') ∧
    Stats.back_insert f
      (if b then Stats.concurrent_flows_per_epoch t ++ [∅]
       else Stats.concurrent_flows_per_epoch t) = Ok epochs' ∧
    Stats.concurrent_flows_per_epoch t' = epochs' ∧
    Stats.note_time f (Net.ts p) (Stats.flow_times t) = Ok (Stats.flow_times t') ∧
    Stats.flows t' = {[f]} ∪ Stats.flows t ∧
    Stats.symm_flows t' = Sflow.set_insert (Sflow.of_flow f) (Stats.symm_flows t) ∧
    Stats.pkts_per_flow t'
      = <[f := u64_add (default 0%N (Stats.pkts_per_flow t !! f)) 1]>
          (Stats.pkts_per_flow t) ∧
    Stats.bytes_per_flow t'
      = <[f := u64_add (default 0%N (Stats.bytes_per_flow t !! f)) (Net.total_len p)]>
          (Stats.bytes_per_flow t) ∧
    Stats.report t' = Report.count_tcpudp (Report.count_packet p (Stats.report t)).
Proof.
  intros Hf H. unfold Stats.feed_packet in H. rewrite Hf in H. cbv zeta in H.
  apply bind_Ok_inv in H as ([b c] & Htick & H).
  apply bind_Ok_inv in H as (epochs' & Hback & H).
  apply bind_Ok_inv in H as (ft' & Hnote & H). simplify_eq. cbn.
  by exists b, epochs'.
Qed.

Lemma flow_packets_snoc f ps p :
  Stats.flow_packets f (ps ++ [p])
  = Stats.flow_packets f ps ++ (if bool_decide (Net.flow p = Some f) then [p] else []).
Proof.
  unfold Stats.flow_packets. rewrite filter_app. f_equal.
  case_bool_decide.
  - by rewrite filter_cons_True.
  - by rewrite filter_cons_False.
Qed.

(** X16. The per-flow tables hold what was fed. After any run of
    [feed_packet] from the constructed tracker, for every flow [f]: [f] is in
    [flows] exactly when a packet of [f] was fed; [pkts_per_flow] holds the
    number of its packets and [bytes_per_flow] the sum of their [total_len],
    modulo 2^64; a flow without packet has no entry. So the three tables
    have the same keys, and the [assert] on the two sizes in
    [generate_report] holds. *)
Theorem stats_flow_tables e ps t lines :
  Stats.feed_packets ps (Stats.ctor e) = Ok (t, lines) →
  (∀ f,
     (f ∈ Stats.flows t ↔ Stats.flow_packets f ps ≠ []) ∧
     Stats.pkts_per_flow t !! f =
       (if bool_decide (Stats.flow_packets f ps = []) then None
        else Some (N.of_nat (length (Stats.flow_packets f ps)) mod U64_MOD)%N) ∧
     Stats.bytes_per_flow t !! f =
       (if bool_decide (Stats.flow_packets f ps = []) then None
        else Some (sum_N (Net.total_len <$> Stats.flow_packets f ps) mod U64_MOD)%N)) ∧
  dom (Stats.pkts_per_flow t) = Stats.flows t ∧
  dom (Stats.bytes_per_flow t) = Stats.flows t ∧
  size (Stats.pkts_per_flow t) = size (Stats.bytes_per_flow t).
Proof.
  intros Hrun.
  assert (∀ f,
     (f ∈ Stats.flows t ↔ Stats.flow_packets f ps ≠ []) ∧
     Stats.pkts_per_flow t !! f =
       (if bool_decide (Stats.flow_packets f ps = []) then None
        else Some (N.of_nat (length (Stats.flow_packets f ps)) mod U64_MOD)%N) ∧
     Stats.bytes_per_flow t !! f =
       (if bool_decide (Stats.flow_packets f ps = []) then None
        else Some (sum_N (Net.total_len <$> Stats.flow_packets f ps) mod U64_MOD)%N))
    as Hall.
  { pattern ps, t. eapply feed_packets_ind; [| |exact Hrun]; cbv beta; clear.
    - intros f. cbn. rewrite !lookup_empty. split; [set_solver|done].
    - intros ps p t t' line IH Hp f. destruct (IH f) as (Hfl & Hpk & Hby).
      rewrite flow_packets_snoc.
      destruct (Net.flow p) as [g|] eqn:Hg.
      + destruct (feed_packet_flow _ _ _ _ _ Hg Hp)
          as (b & ep & _ & _ & _ & _ & -> & _ & -> & -> & _).
        destruct (decide (g = f)) as [->|Hne].
        * rewrite bool_decide_eq_true_2 by done.
          rewrite !lookup_insert_eq, Hpk, Hby.
          rewrite (bool_decide_eq_false_2 (_ ++ [p] = [])) by (by intros [_ ?]%app_eq_nil).
          split_and!.
          -- split; [by intros _ [_ ?]%app_eq_nil|set_solver].
          -- f_equal. rewrite length_app. cbn [length].
             case_bool_decide as E; [rewrite E; cbn; unfold u64_add; f_equal; lia|].
             cbn. rewrite u64_add_mod_l. f_equal. lia.
          -- f_equal. rewrite fmap_app, sum_N_app. cbn.
             case_bool_decide as E; [rewrite E; cbn; unfold u64_add; f_equal; lia|].
             cbn. rewrite u64_add_mod_l. f_equal. lia.
        * rewrite bool_decide_eq_false_2 by congruence.
          rewrite app_nil_r, !lookup_insert_ne by done. split_and!; [|done|done].
          rewrite <-Hfl. set_solver.
      + destruct (feed_packet_no_flow _ _ _ _ Hg Hp)
          as (_ & _ & -> & _ & _ & -> & -> & _).
        rewrite bool_decide_eq_false_2 by done. by rewrite app_nil_r. }
  split; [done|].
  assert (dom (Stats.pkts_per_flow t) = Stats.flows t ∧
          dom (Stats.bytes_per_flow t) = Stats.flows t) as [E1 E2].
  { split; apply set_eq; intros f; destruct (Hall f) as (Hfl & Hpk & Hby);
      rewrite elem_of_dom, Hfl.
    - rewrite Hpk. case_bool_decide; split; intros H'; try done;
        try (by destruct H'); by eexists.
    - rewrite Hby. case_bool_decide; split; intros H'; try done;
        try (by destruct H'); by eexists. }
  split; [done|]. split; [done|].
  by rewrite <-!size_dom, E1, E2.
Qed.

Lemma stats_flow_tables_witness :
  (∀ f,
     (f ∈ Stats.flows (fst demo_stats) ↔ Stats.flow_packets f demo_packets ≠ []) ∧
     Stats.pkts_per_flow (fst demo_stats) !! f =
       (if bool_decide (Stats.flow_packets f demo_packets = []) then None
        else Some (N.of_nat (length (Stats.flow_packets f demo_packets)) mod U64_MOD)%N) ∧
     Stats.bytes_per_flow (fst demo_stats) !! f =
       (if bool_decide (Stats.flow_packets f demo_packets = []) then None
        else Some (sum_N (Net.total_len <$> Stats.flow_packets f demo_packets)
                   mod U64_MOD)%N)) ∧
  dom (Stats.pkts_per_flow (fst demo_stats)) = Stats.flows (fst demo_stats) ∧
  dom (Stats.bytes_per_flow (fst demo_stats)) = Stats.flows (fst demo_stats) ∧
  size (Stats.pkts_per_flow (fst demo_stats))
  = size (Stats.bytes_per_flow (fst demo_stats)).
Proof.
  apply (stats_flow_tables 10 demo_packets (fst demo_stats) (snd demo_stats)).
  vm_compute. reflexivity.
Defined.

Lemma i64_sub_Ok a b r : i64_sub a b = Ok r → r = (a - b)%Z.
Proof.
  unfold i64_sub. cbv zeta. destruct (bool_decide _); [|done]. by intros [= <-].
Qed.

Lemma gaps_snoc a rest now :
  Stats.gaps (a :: rest ++ [now])
  = Stats.gaps (a :: rest) ++ [(now - default a (last rest))%Z].
Proof.
  revert a. induction rest as [|b rest IH]; intros a; [done|].
  change (Stats.gaps (a :: (b :: rest) ++ [now]))
    with ((b - a)%Z :: Stats.gaps (b :: rest ++ [now])).
  rewrite IH. change (Stats.gaps (a :: b :: rest))
    with ((b - a)%Z :: Stats.gaps (b :: rest)).
  cbn [app]. f_equal. f_equal. f_equal. f_equal. rewrite last_cons. by destruct (last rest).
Qed.

Lemma gaps_length a rest : length (Stats.gaps (a :: rest)) = length rest.
Proof.
  revert a. induction rest as [|b rest IH]; intros a; [done|].
  change (Stats.gaps (a :: b :: rest)) with ((b - a)%Z :: Stats.gaps (b :: rest)).
  cbn [length]. by rewrite IH.
Qed.

Lemma gaps_sum a rest :
  foldr Z.add 0%Z (Stats.gaps (a :: rest)) = (default a (last rest) - a)%Z.
Proof.
  revert a. induction rest as [|b rest IH]; intros a; [cbn; lia|].
  change (Stats.gaps (a :: b :: rest)) with ((b - a)%Z :: Stats.gaps (b :: rest)).
  cbn [foldr]. rewrite IH, last_cons. destruct (last rest); cbn; lia.
Qed.

(** X17. The times kept per flow. After any run of [feed_packet] from the
    constructed tracker, [flow_times] has an entry for a flow exactly when a
    packet of the flow was fed; [first] is the time of its first packet,
    [last] the time of its last packet, and [dts] the differences of
    consecutive times, in order. So [dts] has one element less than the
    flow has packets, and its sum is [last - first]. *)
Theorem stats_flow_times e ps t lines :
  Stats.feed_packets ps (Stats.ctor e) = Ok (t, lines) →
  ∀ f,
    Stats.flow_times t !! f =
      match Net.ts <$> Stats.flow_packets f ps with
      | [] => None
      | a :: rest =>
          Some {| Stats.first := a; Stats.last := default a (last rest);
                  Stats.dts := Stats.gaps (a :: rest) |}
      end ∧
    (f ∈ dom (Stats.flow_times t) ↔ f ∈ Stats.flows t) ∧
    ∀ fts, Stats.flow_times t !! f = Some fts →
      S (length (Stats.dts fts)) = length (Stats.flow_packets f ps) ∧
      foldr Z.add 0%Z (Stats.dts fts) = (Stats.last fts - Stats.first fts)%Z.
Proof.
  intros Hrun f.
  assert (Stats.flow_times t !! f =
      match Net.ts <$> Stats.flow_packets f ps with
      | [] => None
      | a :: rest =>
          Some {| Stats.first := a; Stats.last := default a (last rest);
                  Stats.dts := Stats.gaps (a :: rest) |}
      end ∧
      (f ∈ Stats.flows t ↔ Stats.flow_packets f ps ≠ [])) as [Hft Hfl].
  { pattern ps, t. eapply feed_packets_ind; [| |exact Hrun]; cbv beta; clear.
    - cbn. rewrite lookup_empty. split; [done|set_solver].
    - intros ps p t t' line [IH Hfl] Hp. rewrite flow_packets_snoc, fmap_app.
      destruct (Net.flow p) as [g|] eqn:Hg.
      + destruct (feed_packet_flow _ _ _ _ _ Hg Hp)
          as (b & ep & _ & _ & _ & Hnote & -> & _).
        unfold Stats.note_time in Hnote.
        destruct (decide (g = f)) as [->|Hne].
        * rewrite bool_decide_eq_true_2 by done.
          split; [|split; [by intros _ [_ ?]%app_eq_nil|set_solver]].
          rewrite IH in Hnote.
          destruct (Net.ts <$> Stats.flow_packets f ps) as [|a rest]; cbn in Hnote.
          -- injection Hnote as Hnote. rewrite <-Hnote. by rewrite lookup_insert_eq.
          -- apply bind_Ok_inv in Hnote as (dt & ->%i64_sub_Ok & Hnote).
             injection Hnote as Hnote. rewrite <-Hnote, lookup_insert_eq.
             cbn [app Stats.last Stats.first Stats.dts].
             change (Net.ts <$> [p]) with [Net.ts p].
             rewrite gaps_snoc, last_snoc. reflexivity.
        * rewrite bool_decide_eq_false_2 by congruence.
          change (Net.ts <$> []) with (@nil Z). rewrite !app_nil_r.
          split; [|rewrite <-Hfl; set_solver].
          rewrite <-IH. destruct (Stats.flow_times t !! g).
          -- apply bind_Ok_inv in Hnote as (dt & _ & Hnote).
             injection Hnote as Hnote. rewrite <-Hnote. by rewrite lookup_insert_ne.
          -- injection Hnote as Hnote. rewrite <-Hnote. by rewrite lookup_insert_ne.
      + destruct (feed_packet_no_flow _ _ _ _ Hg Hp)
          as (_ & _ & -> & _ & _ & _ & _ & -> & _).
        rewrite bool_decide_eq_false_2 by done.
        change (Net.ts <$> []) with (@nil Z). by rewrite !app_nil_r. }
  split; [done|]. split.
  - rewrite elem_of_dom, Hfl, Hft.
    destruct (Stats.flow_packets f ps); cbn; split; intros H'; try done;
      try (by destruct H'); by eexists.
  - intros fts Hfts. rewrite Hft in Hfts.
    rewrite <-(length_fmap Net.ts).
    destruct (Net.ts <$> Stats.flow_packets f ps) as [|a rest]; [done|].
    simplify_eq. cbn [Stats.dts Stats.last Stats.first length].
    by rewrite gaps_length, gaps_sum.
Qed.

Lemma stats_flow_times_witness :
  Stats.flow_times (fst demo_stats) !! demo_flow =
    match Net.ts <$> Stats.flow_packets demo_flow demo_packets with
    | [] => None
    | a :: rest =>
        Some {| Stats.first := a; Stats.last := default a (last rest);
                Stats.dts := Stats.gaps (a :: rest) |}
    end ∧
  (demo_flow ∈ dom (Stats.flow_times (fst demo_stats))
   ↔ demo_flow ∈ Stats.flows (fst demo_stats)) ∧
  ∀ fts, Stats.flow_times (fst demo_stats) !! demo_flow = Some fts →
    S (length (Stats.dts fts)) = length (Stats.flow_packets demo_flow demo_packets) ∧
    foldr Z.add 0%Z (Stats.dts fts) = (Stats.last fts - Stats.first fts)%Z.
Proof.
  apply (stats_flow_times 10 demo_packets (fst demo_stats) (snd demo_stats)).
  vm_compute. reflexivity.
Defined.

Lemma u64_add_of_nat n :
  u64_add (N.of_nat n mod U64_MOD) 1 = (N.of_nat (S n) mod U64_MOD)%N.
Proof. rewrite u64_add_mod_l. f_equal. lia. Qed.

(** X18. The counters of the report. After any run of [feed_packet] from the
    constructed tracker: [total_pkts] is the number of packets fed and
    [tcpudp_pkts] the number of those with a flow, modulo 2^64; [end] is
    the time of the last packet fed; [start] is the time of the first packet
    whose time is not 0, since 0 stands for a start not yet set;
    [pkt_sizes_cdf] has counted the [total_len] of each packet once; the
    other fields of the report are as constructed. *)
Theorem stats_report_counters e ps t lines :
  Stats.feed_packets ps (Stats.ctor e) = Ok (t, lines) →
  Report.total_pkts (Stats.report t) = (N.of_nat (length ps) mod U64_MOD)%N ∧
  Report.tcpudp_pkts (Stats.report t)
    = (N.of_nat (length (omap Net.flow ps)) mod U64_MOD)%N ∧
  Report.end_ (Stats.report t) = default 0%Z (last (Net.ts <$> ps)) ∧
  Report.start (Stats.report t)
    = default 0%Z (head (filter (λ x, x ≠ 0%Z) (Net.ts <$> ps))) ∧
  Report.pkt_sizes_cdf (Stats.report t)
    = Cdf.add_all ((λ p, (Net.total_len p, 1%N)) <$> ps) Cdf.ctor ∧
  Report.total_flows (Stats.report t) = 0%N ∧
  Report.total_symm_flows (Stats.report t) = 0%N ∧
  Report.concurrent_flows_per_epoch (Stats.report t) = Cdf.ctor ∧
  Report.pkts_per_flow_cdf (Stats.report t) = Cdf.ctor ∧
  Report.top_k_flows_cdf (Stats.report t) = Cdf.ctor ∧
  Report.top_k_flows_bytes_cdf (Stats.report t) = Cdf.ctor ∧
  Report.flow_duration_us_cdf (Stats.report t) = Cdf.ctor ∧
  Report.flow_dts_us_cdf (Stats.report t) = Cdf.ctor.
Proof.
  intros Hrun.
  pattern ps, t. eapply feed_packets_ind; [| |exact Hrun]; cbv beta; clear.
  - by cbn.
  - intros ps p t t' line IH Hp.
    destruct IH as (Htot & Htu & Hend & Hstart & Hcdf & IH).
    assert (Stats.report t' = Report.count_packet p (Stats.report t) ∧
              Net.flow p = None ∨
            Stats.report t'
              = Report.count_tcpudp (Report.count_packet p (Stats.report t)) ∧
              is_Some (Net.flow p)) as Hrep.
    { destruct (Net.flow p) as [g|] eqn:Hg.
      - right. split; [|by eexists].
        by destruct (feed_packet_flow _ _ _ _ _ Hg Hp)
          as (b & ep & _ & _ & _ & _ & _ & _ & _ & _ & ->).
      - left. split; [|done].
        by destruct (feed_packet_no_flow _ _ _ _ Hg Hp)
          as (_ & _ & _ & _ & _ & _ & _ & _ & ->). }
    rewrite !fmap_app, omap_app, !length_app, filter_app.
    change (Net.ts <$> [p]) with [Net.ts p]. rewrite last_snoc.
    cbn [fmap list_fmap omap list_omap length].
    assert (default 0%Z (head (filter (λ x, x ≠ 0%Z) (Net.ts <$> ps)
                               ++ filter (λ x, x ≠ 0%Z) [Net.ts p]))
            = if bool_decide (Report.start (Stats.report t) = 0%Z)
              then Net.ts p else Report.start (Stats.report t)) as Hst.
    { rewrite Hstart.
      destruct (filter (λ x, x ≠ 0%Z) (Net.ts <$> ps)) as [|a l] eqn:Hf; cbn.
      - destruct (decide (Net.ts p ≠ 0%Z)) as [E|E]; cbn; [done|].
        apply dec_stable in E. by rewrite E.
      - assert (a ∈ filter (λ x, x ≠ 0%Z) (Net.ts <$> ps)) as Ha
          by (rewrite Hf; set_solver).
        apply list_elem_of_filter in Ha as [Ha _].
        by rewrite bool_decide_eq_false_2. }
    rewrite Hst, cdf_add_all_snoc. cbn [fst snd].
    destruct Hrep as [[-> Hg]|[-> [g Hg]]]; rewrite Hg; cbn;
      rewrite Htot, ?Htu, Hcdf, Nat.add_1_r, ?Nat.add_0_r, ?u64_add_of_nat;
      try rewrite Nat.add_1_r; split_and!; try done; try apply IH.
Qed.

Lemma stats_report_counters_witness :
  Report.total_pkts (Stats.report (fst demo_stats))
    = (N.of_nat (length demo_packets) mod U64_MOD)%N ∧
  Report.tcpudp_pkts (Stats.report (fst demo_stats))
    = (N.of_nat (length (omap Net.flow demo_packets)) mod U64_MOD)%N ∧
  Report.end_ (Stats.report (fst demo_stats))
    = default 0%Z (last (Net.ts <$> demo_packets)) ∧
  Report.start (Stats.report (fst demo_stats))
    = default 0%Z (head (filter (λ x, x ≠ 0%Z) (Net.ts <$> demo_packets))) ∧
  Report.pkt_sizes_cdf (Stats.report (fst demo_stats))
    = Cdf.add_all ((λ p, (Net.total_len p, 1%N)) <$> demo_packets) Cdf.ctor ∧
  Report.total_flows (Stats.report (fst demo_stats)) = 0%N ∧
  Report.total_symm_flows (Stats.report (fst demo_stats)) = 0%N ∧
  Report.concurrent_flows_per_epoch (Stats.report (fst demo_stats)) = Cdf.ctor ∧
  Report.pkts_per_flow_cdf (Stats.report (fst demo_stats)) = Cdf.ctor ∧
  Report.top_k_flows_cdf (Stats.report (fst demo_stats)) = Cdf.ctor ∧
  Report.top_k_flows_bytes_cdf (Stats.report (fst demo_stats)) = Cdf.ctor ∧
  Report.flow_duration_us_cdf (Stats.report (fst demo_stats)) = Cdf.ctor ∧
  Report.flow_dts_us_cdf (Stats.report (fst demo_stats)) = Cdf.ctor.
Proof.
  apply (stats_report_counters 10 demo_packets (fst demo_stats) (snd demo_stats)).
  vm_compute. reflexivity.
Defined.

Lemma ticks_snoc l x c bs c1 b c2 :
  Clock.ticks l c = Ok (bs, c1) → Clock.tick x c1 = Ok (b, c2) →
  Clock.ticks (l ++ [x]) c = Ok (bs ++ [b], c2).
Proof.
  revert c bs. induction l as [|y l IH]; intros c bs Hl Hx.
  - cbn in Hl. simplify_eq. cbn. by rewrite Hx.
  - cbn [Clock.ticks app] in *.
    apply bind_Ok_inv in Hl as ([b1 c3] & Hy & Hl).
    apply bind_Ok_inv in Hl as ([bs' c4] & Hl & Heq). simplify_eq.
    rewrite Hy, bind_Ok. by rewrite (IH _ _ Hl Hx).
Qed.

Lemma back_insert_spec f l l' :
  Stats.back_insert f l = Ok l' →
  ∃ init x, l = init ++ [x] ∧ l' = init ++ [{[f]} ∪ x].
Proof.
  destruct l as [|y l] using rev_ind; [done|]. intros H. clear IHl.
  exists l, y. split; [done|].
  unfold Stats.back_insert in H. destruct (l ++ [y]) eqn:E.
  { by destruct l. }
  rewrite <-E in H. simplify_eq. rewrite length_app. cbn [length].
  replace (length l + 1 - 1)%nat with (length l + 0)%nat by lia.
  by rewrite alter_app_r.
Qed.

(** X19. The epochs. After any run of [feed_packet] from the constructed
    tracker, the clock has ticked once per packet with a flow, at its time;
    [concurrent_flows_per_epoch] has one set more than alarms have sounded,
    so it is never empty and [back()] is defined; the union of its sets is
    [flows]; and once a packet with a flow was fed no set in it is empty:
    time spans without packets leave no epoch behind. *)
Theorem stats_epochs e ps t lines :
  Stats.feed_packets ps (Stats.ctor e) = Ok (t, lines) →
  ∃ bs,
    Clock.ticks (Net.ts <$> filter (λ p, is_Some (Net.flow p)) ps) (Clock.ctor e)
      = Ok (bs, Stats.clock t) ∧
    Z.of_nat (length (Stats.concurrent_flows_per_epoch t)) = (1 + alarms bs)%Z ∧
    ⋃ (Stats.concurrent_flows_per_epoch t) = Stats.flows t ∧
    (Stats.flows t = ∅ ∧ Stats.concurrent_flows_per_epoch t = [∅] ∧
       Clock.on (Stats.clock t) = false ∨
     Stats.flows t ≠ ∅ ∧
       Forall (λ s, s ≠ ∅) (Stats.concurrent_flows_per_epoch t)).
Proof.
  intros Hrun.
  pattern ps, t. eapply feed_packets_ind; [| |exact Hrun]; cbv beta; clear.
  - exists []. cbn. split_and!; [done|done|set_solver|by left].
  - intros ps p t t' line (bs & Hticks & Hlen & Hun & Hne) Hp.
    rewrite filter_app, fmap_app.
    destruct (Net.flow p) as [g|] eqn:Hg.
    + destruct (feed_packet_flow _ _ _ _ _ Hg Hp)
        as (b & ep & Htick & Hback & Hep & _ & Hfl & _).
      rewrite filter_cons_True by (by rewrite Hg).
      rewrite filter_nil. change (Net.ts <$> [p]) with [Net.ts p].
      exists (bs ++ [b]). rewrite (ticks_snoc _ _ _ _ _ _ _ Hticks Htick).
      rewrite Hep, Hfl.
      apply back_insert_spec in Hback as (init & x & Hinit & ->).
      split; [done|].
      assert (length (init ++ [x])
              = (length (Stats.concurrent_flows_per_epoch t)
                 + if b then 1 else 0)%nat) as Hl.
      { rewrite <-Hinit. destruct b; [|lia]. by rewrite length_app. }
      rewrite length_app in *. cbn [length] in *.
      split_and!.
      * unfold alarms in *. rewrite filter_app, length_app.
        destruct b.
        -- rewrite filter_cons_True by done. rewrite filter_nil. cbn [length]. lia.
        -- rewrite filter_cons_False by done. rewrite filter_nil. cbn [length]. lia.
      * rewrite union_list_app_L. cbn [union_list].
        assert (⋃ init ∪ (x ∪ ∅) = Stats.flows t) as <-; [|set_solver].
        rewrite <-Hun. destruct b.
        -- apply app_inj_tail in Hinit as [<- <-]. set_solver.
        -- rewrite Hinit, union_list_app_L. by cbn [union_list].
      * right. split; [set_solver|].
        apply Forall_app. split; [|apply Forall_singleton; set_solver].
        destruct Hne as [(_ & Hone & Hon)|[_ Hall]].
        -- unfold Clock.tick in Htick. rewrite Hon in Htick. cbn in Htick.
           apply bind_Ok_inv in Htick as (a & _ & Htick). simplify_eq.
           rewrite Hone in Hinit. by destruct init as [|? [|? ?]].
        -- destruct b.
           ++ by apply app_inj_tail in Hinit as [<- <-].
           ++ rewrite Hinit in Hall. by apply Forall_app in Hall as [? _].
    + destruct (feed_packet_no_flow _ _ _ _ Hg Hp)
        as (_ & -> & -> & _ & -> & _).
      rewrite filter_cons_False by (rewrite Hg; by intros [? ?]).
      rewrite filter_nil. change (Net.ts <$> []) with (@nil Z).
      rewrite app_nil_r. by exists bs.
Qed.

Lemma stats_epochs_witness :
  ∃ bs,
    Clock.ticks (Net.ts <$> filter (λ p, is_Some (Net.flow p)) demo_packets)
      (Clock.ctor 10) = Ok (bs, Stats.clock (fst demo_stats)) ∧
    Z.of_nat (length (Stats.concurrent_flows_per_epoch (fst demo_stats)))
      = (1 + alarms bs)%Z ∧
    ⋃ (Stats.concurrent_flows_per_epoch (fst demo_stats))
      = Stats.flows (fst demo_stats) ∧
    (Stats.flows (fst demo_stats) = ∅ ∧
       Stats.concurrent_flows_per_epoch (fst demo_stats) = [∅] ∧
       Clock.on (Stats.clock (fst demo_stats)) = false ∨
     Stats.flows (fst demo_stats) ≠ ∅ ∧
       Forall (λ s, s ≠ ∅) (Stats.concurrent_flows_per_epoch (fst demo_stats))).
Proof.
  apply (stats_epochs 10 demo_packets (fst demo_stats) (snd demo_stats)).
  vm_compute. reflexivity.
Defined.

Lemma feed_packet_no_fault p t :
  (0 ≤ Net.ts p < 2 ^ 62)%Z →
  (0 ≤ Clock.epoch_duration (Stats.clock t) < 2 ^ 62)%Z →
  Stats.concurrent_flows_per_epoch t ≠ [] →
  (∀ f fts, Stats.flow_times t !! f = Some fts → (0 ≤ Stats.last fts < 2 ^ 62)%Z) →
  ∃ t' line,
    Stats.feed_packet p t = Ok (t', line) ∧
    Clock.epoch_duration (Stats.clock t') = Clock.epoch_duration (Stats.clock t) ∧
    Stats.concurrent_flows_per_epoch t' ≠ [] ∧
    (∀ f fts, Stats.flow_times t' !! f = Some fts →
              (0 ≤ Stats.last fts < 2 ^ 62)%Z).
Proof.
  intros Hts He Hep Hlast. unfold Stats.feed_packet.
  destruct (Net.flow p) as [g|]; [|by eexists _, _].
  assert (i64_add (Net.ts p) (Clock.epoch_duration (Stats.clock t))
          = Ok (Net.ts p + Clock.epoch_duration (Stats.clock t))%Z) as Hadd.
  { unfold i64_add. cbv zeta. rewrite bool_decide_eq_true_2; [done|].
    unfold I64_MIN, I64_MAX. lia. }
  assert (∃ b c, Clock.tick (Net.ts p) (Stats.clock t) = Ok (b, c) ∧
                 Clock.epoch_duration c = Clock.epoch_duration (Stats.clock t))
    as (b & c & -> & Hc).
  { unfold Clock.tick. rewrite Hadd.
    destruct (negb _); [by eexists _, _|].
    destruct (bool_decide _); by eexists _, _. }
  rewrite bind_Ok. cbv zeta.
  set (epochs := if b then _ else _).
  assert (epochs ≠ []) as Hne by (subst epochs; destruct b; [by intros [_ ?]%app_eq_nil|done]).
  assert (∃ ep, Stats.back_insert g epochs = Ok ep ∧ ep ≠ []) as (ep & -> & Hep').
  { unfold Stats.back_insert. destruct epochs as [|s l] eqn:E; [done|].
    eexists. split; [done|]. intros H%(f_equal length).
    rewrite length_alter in H. done. }
  rewrite bind_Ok.
  assert (∃ ft, Stats.note_time g (Net.ts p) (Stats.flow_times t) = Ok ft ∧
                ∀ f fts, ft !! f = Some fts → (0 ≤ Stats.last fts < 2 ^ 62)%Z)
    as (ft & -> & Hft).
  { unfold Stats.note_time. destruct (Stats.flow_times t !! g) as [fts|] eqn:Hg.
    - unfold i64_sub. cbv zeta. rewrite bool_decide_eq_true_2.
      2:{ apply Hlast in Hg. unfold I64_MIN, I64_MAX. lia. }
      rewrite bind_Ok. eexists. split; [done|]. intros f fts' Hf.
      destruct (decide (f = g)) as [->|Hfg].
      + rewrite lookup_insert_eq in Hf. by simplify_eq.
      + rewrite lookup_insert_ne in Hf by done. by eapply Hlast.
    - eexists. split; [done|]. intros f fts' Hf.
      destruct (decide (f = g)) as [->|Hfg].
      + rewrite lookup_insert_eq in Hf. by simplify_eq.
      + rewrite lookup_insert_ne in Hf by done. by eapply Hlast. }
  rewrite bind_Ok. by eexists _, _.
Qed.

Lemma feed_packet_fault p t f :
  Stats.concurrent_flows_per_epoch t ≠ [] →
  Stats.feed_packet p t = Err f → f = SignedOverflow.
Proof.
  intros Hep. unfold Stats.feed_packet.
  destruct (Net.flow p) as [g|]; [|done].
  destruct (Clock.tick _ _) as [[b c]|f'] eqn:Htick.
  2:{ cbn. intros [= <-]. unfold Clock.tick, i64_add in Htick. cbv zeta in Htick.
      destruct (negb _); [|case_bool_decide]; try done;
        case_bool_decide; cbn in Htick; by simplify_eq. }
  rewrite bind_Ok. cbv zeta.
  set (epochs := if b then _ else _).
  assert (epochs ≠ []) as Hne by (subst epochs; destruct b; [by intros [_ ?]%app_eq_nil|done]).
  unfold Stats.back_insert. destruct epochs as [|s l] eqn:E; [done|].
  rewrite bind_Ok.
  unfold Stats.note_time, i64_sub. cbv zeta.
  destruct (Stats.flow_times t !! g); [|done].
  destruct (bool_decide _); [done|]. cbn. by intros [= <-].
Qed.

Lemma feed_packet_epochs p t t' line :
  Stats.concurrent_flows_per_epoch t ≠ [] →
  Stats.feed_packet p t = Ok (t', line) →
  Stats.concurrent_flows_per_epoch t' ≠ [].
Proof.
  intros Hep Hp. destruct (Net.flow p) as [g|] eqn:Hg.
  - destruct (feed_packet_flow _ _ _ _ _ Hg Hp)
      as (b & ep & _ & Hback & -> & _).
    apply back_insert_spec in Hback as (init & x & _ & ->).
    by intros [_ ?]%app_eq_nil.
  - destruct (feed_packet_no_flow _ _ _ _ Hg Hp) as (_ & _ & _ & _ & -> & _).
    done.
Qed.

(** X20. Feeding packets cannot go wrong but by signed overflow. A run of
    [feed_packet] from the constructed tracker never calls [back()] on an
    empty [concurrent_flows_per_epoch]: the one fault it can end in is the
    overflow of a signed 64-bit sum or difference of times. *)
Theorem feed_packets_only_overflow e ps f :
  Stats.feed_packets ps (Stats.ctor e) = Err f → f = SignedOverflow.
Proof.
  assert (∀ t, Stats.concurrent_flows_per_epoch t ≠ [] →
            ∀ f, Stats.feed_packets ps t = Err f → f = SignedOverflow) as H.
  { clear. induction ps as [|p ps IH]; intros t Hep f; [done|].
    cbn [Stats.feed_packets].
    destruct (Stats.feed_packet p t) as [[t1 line]|f1] eqn:Hp.
    - rewrite bind_Ok.
      destruct (Stats.feed_packets ps t1) as [[t2 lines]|f2] eqn:Hps; [done|].
      cbn. intros [= <-]. eapply IH; [|done]. by eapply feed_packet_epochs.
    - cbn. intros [= <-]. by eapply feed_packet_fault. }
  by apply H.
Qed.

Lemma feed_packets_only_overflow_witness :
  Stats.feed_packets
    [ {| Net.pkt := []; Net.hdrs_len := 54; Net.total_len := 100;
         Net.ts := 5; Net.flow := Some demo_flow |} ]
    (Stats.ctor (2 ^ 63 - 1)) = Err SignedOverflow ∧
  SignedOverflow = SignedOverflow.
Proof.
  split; [vm_compute; reflexivity|].
  apply (feed_packets_only_overflow (2 ^ 63 - 1)
           [ {| Net.pkt := []; Net.hdrs_len := 54; Net.total_len := 100;
                Net.ts := 5; Net.flow := Some demo_flow |} ] SignedOverflow).
  vm_compute. reflexivity.
Defined.

(** X21. With an epoch duration and packet times from 0 to below 2^62, a
    run of [feed_packet] from the constructed tracker ends in no fault. *)
Theorem feed_packets_no_fault e ps :
  (0 ≤ e < 2 ^ 62)%Z → Forall (λ p, (0 ≤ Net.ts p < 2 ^ 62)%Z) ps →
  ∃ t lines, Stats.feed_packets ps (Stats.ctor e) = Ok (t, lines).
Proof.
  intros He Hps.
  assert (∀ t,
    (0 ≤ Clock.epoch_duration (Stats.clock t) < 2 ^ 62)%Z →
    Stats.concurrent_flows_per_epoch t ≠ [] →
    (∀ f fts, Stats.flow_times t !! f = Some fts →
              (0 ≤ Stats.last fts < 2 ^ 62)%Z) →
    ∃ t' lines, Stats.feed_packets ps t = Ok (t', lines)) as H.
  { clear He. induction Hps as [|p ps Hp Hps IH]; intros t H1 H2 H3; [by eexists _, _|].
    destruct (feed_packet_no_fault p t Hp H1 H2 H3)
      as (t1 & line & Hfeed & H1' & H2' & H3').
    rewrite <-H1' in H1.
    destruct (IH t1 H1 H2' H3') as (t2 & lines & Hrest).
    cbn [Stats.feed_packets]. rewrite Hfeed, bind_Ok, Hrest. by eexists _, _. }
  apply H; [done|done|]. intros f fts. cbn. by rewrite lookup_empty.
Qed.

Lemma feed_packets_no_fault_witness :
  ∃ t lines, Stats.feed_packets demo_packets (Stats.ctor 10) = Ok (t, lines).
Proof.
  apply (feed_packets_no_fault 10 demo_packets).
  - lia.
  - unfold demo_packets. repeat constructor; cbn; lia.
Defined.

Lemma sflow_eq_sym a b : Sflow.eq a b = true → Sflow.eq b a = true.
Proof. rewrite !sflow_eq_true. intuition congruence. Qed.

Lemma sflow_eq_refl a : Sflow.eq a a = true.
Proof. rewrite sflow_eq_true. by left. Qed.

Lemma sflow_eq_of_flow f x :
  Sflow.eq (Sflow.of_flow f) x = true →
  f = {| type := FiveTuple; src_ip := Sflow.src_ip x; dst_ip := Sflow.dst_ip x;
         src_port := Sflow.src_port x; dst_port := Sflow.dst_port x |} ∨
  f = {| type := FiveTuple; src_ip := Sflow.dst_ip x; dst_ip := Sflow.src_ip x;
         src_port := Sflow.dst_port x; dst_port := Sflow.src_port x |}.
Proof.
  rewrite sflow_eq_true. destruct f as [[] a1 a2 a3 a4]. cbn.
  intros [(-> & -> & -> & ->)|(-> & -> & -> & ->)]; [by left|by right].
Qed.

Lemma existsb_elem_of {A} (P : A → bool) (l : list A) :
  existsb P l = true ↔ ∃ x, x ∈ l ∧ P x = true.
Proof.
  rewrite existsb_exists. split; intros (x & Hx & HP); exists x; split; try done;
    by apply list_elem_of_In.
Qed.

Lemma size_list_to_set_le (l : list flow_t) :
  size (list_to_set l : gset flow_t) ≤ length l.
Proof.
  induction l as [|x l IH]; cbn [list_to_set length]; [by rewrite size_empty|].
  rewrite size_union_alt, size_singleton.
  assert (size (list_to_set l ∖ {[x]} : gset flow_t) ≤ size (list_to_set l : gset flow_t))
    by (apply subseteq_size; set_solver).
  lia.
Qed.

(** X22. The symmetric flows. After any run of [feed_packet] from the
    constructed tracker, no two elements of [symm_flows] are equal by
    [sflow_t::operator==]; every flow of [flows] has an element equal to it,
    in one direction or the other; every element is the [sflow_t] of a flow
    of [flows]. So a flow and its inverse count once: the number of
    symmetric flows is at most the number of flows, and at least its half. *)
Theorem stats_symm_flows e ps t lines :
  Stats.feed_packets ps (Stats.ctor e) = Ok (t, lines) →
  (∀ i j x y, Stats.symm_flows t !! i = Some x → Stats.symm_flows t !! j = Some y →
              Sflow.eq x y = true → i = j) ∧
  (∀ f, f ∈ Stats.flows t →
        ∃ x, x ∈ Stats.symm_flows t ∧ Sflow.eq (Sflow.of_flow f) x = true) ∧
  (∀ x, x ∈ Stats.symm_flows t → ∃ f, f ∈ Stats.flows t ∧ x = Sflow.of_flow f) ∧
  length (Stats.symm_flows t) ≤ size (Stats.flows t) ∧
  size (Stats.flows t) ≤ 2 * length (Stats.symm_flows t).
Proof.
  intros Hrun.
  assert ((∀ i j x y, Stats.symm_flows t !! i = Some x →
                      Stats.symm_flows t !! j = Some y →
              Sflow.eq x y = true → i = j) ∧
    (∀ f, f ∈ Stats.flows t →
        ∃ x, x ∈ Stats.symm_flows t ∧ Sflow.eq (Sflow.of_flow f) x = true) ∧
    (∀ x, x ∈ Stats.symm_flows t → ∃ f, f ∈ Stats.flows t ∧ x = Sflow.of_flow f) ∧
    length (Stats.symm_flows t) ≤ size (Stats.flows t)) as (Ha & Hb & Hc & Hd).
  { pattern ps, t. eapply feed_packets_ind; [| |exact Hrun]; cbv beta; clear.
    - cbn. split_and!; [done|set_solver|set_solver|].
      rewrite size_empty. done.
    - intros ps p t t' line (Ha & Hb & Hc & Hd) Hp.
      destruct (Net.flow p) as [g|] eqn:Hg.
      2:{ by destruct (feed_packet_no_flow _ _ _ _ Hg Hp)
            as (_ & _ & -> & -> & _). }
      destruct (feed_packet_flow _ _ _ _ _ Hg Hp)
        as (b & ep & _ & _ & _ & _ & -> & -> & _).
      unfold Sflow.set_insert.
      destruct (existsb _ _) eqn:Hex.
      + apply existsb_elem_of in Hex as (x & Hx & Hgx).
        split_and!; [done| |intros y Hy; destruct (Hc y Hy) as (f & ? & ?);
                                exists f; set_solver|].
        * intros f [->%elem_of_singleton|Hf]%elem_of_union; [by exists x|by apply Hb].
        * destruct (decide (g ∈ Stats.flows t)) as [Hin|Hnin].
          -- by replace ({[g]} ∪ Stats.flows t) with (Stats.flows t) by set_solver.
          -- rewrite size_union, size_singleton by set_solver. lia.
      + assert (∀ y, y ∈ Stats.symm_flows t → Sflow.eq (Sflow.of_flow g) y = false)
          as Hnew.
        { intros y Hy. destruct (Sflow.eq _ y) eqn:E; [|done].
          assert (existsb (Sflow.eq (Sflow.of_flow g)) (Stats.symm_flows t) = true)
            as Hex' by (apply existsb_elem_of; by exists y).
          congruence. }
        assert (g ∉ Stats.flows t) as Hnin.
        { intros (x & Hx & Hgx)%Hb. apply Hnew in Hx. congruence. }
        split_and!.
        * intros [|i] [|j] x y Hi Hj Hxy; cbn in Hi, Hj; simplify_eq.
          -- done.
          -- apply list_elem_of_lookup_2 in Hj. apply Hnew in Hj. congruence.
          -- apply list_elem_of_lookup_2 in Hi. apply Hnew in Hi.
             apply sflow_eq_sym in Hxy. congruence.
          -- f_equal. by eapply Ha.
        * intros f [->%elem_of_singleton|Hf]%elem_of_union.
          -- exists (Sflow.of_flow g). split; [set_solver|apply sflow_eq_refl].
          -- destruct (Hb f Hf) as (x & Hx & Hfx). exists x. split; [set_solver|done].
        * intros y [->|Hy]%elem_of_cons.
          -- exists g. set_solver.
          -- destruct (Hc y Hy) as (f & ? & ?). exists f. set_solver.
        * rewrite size_union, size_singleton by set_solver. cbn [length]. lia. }
  split_and!; try done.
  set (to_flow := λ x : Sflow.sflow_t,
         {| type := FiveTuple; src_ip := Sflow.src_ip x; dst_ip := Sflow.dst_ip x;
            src_port := Sflow.src_port x; dst_port := Sflow.dst_port x |}).
  set (to_inv := λ x : Sflow.sflow_t,
         {| type := FiveTuple; src_ip := Sflow.dst_ip x; dst_ip := Sflow.src_ip x;
            src_port := Sflow.dst_port x; dst_port := Sflow.src_port x |}).
  assert (Stats.flows t ⊆
          list_to_set ((to_flow <$> Stats.symm_flows t)
                       ++ (to_inv <$> Stats.symm_flows t))) as Hsub.
  { intros f (x & Hx & Hfx)%Hb. apply sflow_eq_of_flow in Hfx.
    rewrite elem_of_list_to_set, elem_of_app, !list_elem_of_fmap.
    destruct Hfx as [->| ->]; [left|right]; by exists x. }
  apply subseteq_size in Hsub.
  pose proof (size_list_to_set_le ((to_flow <$> Stats.symm_flows t)
                       ++ (to_inv <$> Stats.symm_flows t))) as Hle.
  rewrite length_app, !length_fmap in Hle. lia.
Qed.

Lemma stats_symm_flows_witness :
  (∀ i j x y, Stats.symm_flows (fst demo_stats) !! i = Some x →
              Stats.symm_flows (fst demo_stats) !! j = Some y →
              Sflow.eq x y = true → i = j) ∧
  (∀ f, f ∈ Stats.flows (fst demo_stats) →
        ∃ x, x ∈ Stats.symm_flows (fst demo_stats) ∧
             Sflow.eq (Sflow.of_flow f) x = true) ∧
  (∀ x, x ∈ Stats.symm_flows (fst demo_stats) →
        ∃ f, f ∈ Stats.flows (fst demo_stats) ∧ x = Sflow.of_flow f) ∧
  length (Stats.symm_flows (fst demo_stats)) ≤ size (Stats.flows (fst demo_stats)) ∧
  size (Stats.flows (fst demo_stats)) ≤ 2 * length (Stats.symm_flows (fst demo_stats)).
Proof.
  apply (stats_symm_flows 10 demo_packets (fst demo_stats) (snd demo_stats)).
  vm_compute. reflexivity.
Defined.

(** ** Reading packets *)

Ltac reader_cases :=
  repeat match goal with
  | H : context [match ?x with _ => _ end] |- _ =>
      destruct x eqn:?; cbn [mbind result_bind] in *; simplify_eq
  | |- context [match ?x with _ => _ end] =>
      destruct x eqn:?; cbn [mbind result_bind] in *; simplify_eq
  end.

(** X23. A packet without a flow of its own keeps the flow it finds.
    [read_next_packet] writes [pkt], [hdrs_len], [total_len] and [ts] of
    [read_data] on every path, but [flow] only for an IPv4 packet of TCP or
    UDP: on the other paths the object keeps the flow it had, so a caller
    that passes the same object again sees the flow of an earlier packet. *)
Theorem read_next_packet_flow_carried assume_ip header data read_data p :
  Reader.read_next_packet assume_ip header data read_data = Ok p →
  ∃ p0,
    Reader.read_next_packet assume_ip header data Reader.packet_init = Ok p0 ∧
    Net.pkt p = data ∧
    Net.hdrs_len p = Net.hdrs_len p0 ∧
    Net.total_len p = Net.total_len p0 ∧
    Net.ts p = Net.ts p0 ∧
    Net.flow p = match Net.flow p0 with
                 | Some f => Some f
                 | None => Net.flow read_data
                 end.
Proof.
  unfold Reader.read_next_packet. cbv zeta. unfold mbind, result_bind.
  intros H. reader_cases; by eexists.
Qed.

Lemma read_next_packet_flow_carried_witness :
  ∃ p0,
    Reader.read_next_packet false
      {| Reader.tv_sec := 2; Reader.tv_usec := 500; Reader.caplen := 42;
         Reader.len := 42 |} demo_arp_frame Reader.packet_init = Ok p0 ∧
    Net.pkt {| Net.pkt := demo_arp_frame; Net.hdrs_len := 46;
               Net.total_len := 46; Net.ts := 2000500000;
               Net.flow := Some demo_flow |} = demo_arp_frame ∧
    Net.hdrs_len {| Net.pkt := demo_arp_frame; Net.hdrs_len := 46;
               Net.total_len := 46; Net.ts := 2000500000;
               Net.flow := Some demo_flow |} = Net.hdrs_len p0 ∧
    Net.total_len {| Net.pkt := demo_arp_frame; Net.hdrs_len := 46;
               Net.total_len := 46; Net.ts := 2000500000;
               Net.flow := Some demo_flow |} = Net.total_len p0 ∧
    Net.ts {| Net.pkt := demo_arp_frame; Net.hdrs_len := 46;
               Net.total_len := 46; Net.ts := 2000500000;
               Net.flow := Some demo_flow |} = Net.ts p0 ∧
    Net.flow {| Net.pkt := demo_arp_frame; Net.hdrs_len := 46;
               Net.total_len := 46; Net.ts := 2000500000;
               Net.flow := Some demo_flow |}
    = match Net.flow p0 with
      | Some f => Some f
      | None =>
          Net.flow {| Net.pkt := demo_tcp_frame; Net.hdrs_len := 54;
                      Net.total_len := 58; Net.ts := 1000000000;
                      Net.flow := Some demo_flow |}
      end.
Proof.
  apply (read_next_packet_flow_carried false
           {| Reader.tv_sec := 2; Reader.tv_usec := 500; Reader.caplen := 42;
              Reader.len := 42 |} demo_arp_frame
           {| Net.pkt := demo_tcp_frame; Net.hdrs_len := 54;
              Net.total_len := 58; Net.ts := 1000000000;
              Net.flow := Some demo_flow |}).
  vm_compute. reflexivity.
Defined.

Lemma read_next_packet_flow_of assume_ip header data rd rd' p p' :
  Reader.read_next_packet assume_ip header data rd = Ok p →
  Reader.read_next_packet assume_ip header data rd' = Ok p' →
  Net.flow rd' = None →
  Net.flow p = match Net.flow p' with
               | Some f => Some f
               | None => Net.flow rd
               end.
Proof.
  unfold Reader.read_next_packet. cbv zeta. unfold mbind, result_bind.
  intros H H' Hnone. reader_cases; cbn in *; congruence.
Qed.

Lemma read_next_packet_flow_some assume_ip header data rd p :
  Reader.read_next_packet assume_ip header data rd = Ok p →
  is_Some (Net.flow rd) → is_Some (Net.flow p).
Proof.
  unfold Reader.read_next_packet. cbv zeta. unfold mbind, result_bind.
  intros H Hsome. reader_cases; cbn; by eauto.
Qed.

Lemma main_loop_split assume_ip caps : ∀ packet t r,
  Reader.main_loop assume_ip caps packet t = Ok r →
  ∃ ps, Reader.read_packets assume_ip caps packet = Ok ps ∧
        Stats.feed_packets ps t = Ok r.
Proof.
  induction caps as [|[h d] caps IH]; intros packet t r H.
  - cbn in H. simplify_eq. by exists [].
  - cbn [Reader.main_loop] in H.
    apply bind_Ok_inv in H as (q & Hq & H).
    apply bind_Ok_inv in H as ([t1 line] & Hfeed & H).
    apply bind_Ok_inv in H as ([t2 lines] & Hrest & H). simplify_eq.
    destruct (IH _ _ _ Hrest) as (ps & Hps & Hfeeds).
    exists (q :: ps). cbn [Reader.read_packets Stats.feed_packets].
    by rewrite Hq, bind_Ok, Hps, bind_Ok, Hfeed, bind_Ok, Hfeeds.
Qed.

Lemma read_packets_step assume_ip caps : ∀ packet ps,
  Reader.read_packets assume_ip caps packet = Ok ps →
  length ps = length caps ∧
  ∀ j h d p q,
    caps !! j = Some (h, d) → (packet :: ps) !! j = Some p → ps !! j = Some q →
    Reader.read_next_packet assume_ip h d p = Ok q.
Proof.
  induction caps as [|[h d] caps IH]; intros packet ps H.
  - cbn in H. by simplify_eq.
  - cbn [Reader.read_packets] in H.
    apply bind_Ok_inv in H as (q & Hq & H).
    apply bind_Ok_inv in H as (ps' & Hps & H). simplify_eq.
    destruct (IH _ _ Hps) as [Hlen Hstep]. split; [cbn; by rewrite Hlen|].
    intros [|j] h' d' p q' Hc Hp Hq'; cbn in Hc, Hp, Hq'; simplify_eq; [done|].
    by eapply Hstep.
Qed.

(** X24. The loop of [main] feeds stale flows. The loop reads every packet
    into the same object and feeds it: the tracker it ends with is the one
    [feed_packet] gives over the successive values of that object. The flow
    of each value fed is the flow [read_next_packet] finds in the packet
    or, when it finds none, the flow of the value fed before. So once one
    packet with a flow was read, every later packet is fed with a flow,
    whatever it holds. *)
Theorem main_loop_stale_flows assume_ip caps e t lines :
  Reader.main_loop assume_ip caps Reader.packet_init (Stats.ctor e) = Ok (t, lines) →
  ∃ ps,
    Reader.read_packets assume_ip caps Reader.packet_init = Ok ps ∧
    Stats.feed_packets ps (Stats.ctor e) = Ok (t, lines) ∧
    length ps = length caps ∧
    (∀ j h d p q p0,
       caps !! j = Some (h, d) →
       (Reader.packet_init :: ps) !! j = Some p → ps !! j = Some q →
       Reader.read_next_packet assume_ip h d Reader.packet_init = Ok p0 →
       Net.flow q = match Net.flow p0 with
                    | Some f => Some f
                    | None => Net.flow p
                    end) ∧
    (∀ i j p q, i ≤ j → ps !! i = Some p → ps !! j = Some q →
                is_Some (Net.flow p) → is_Some (Net.flow q)).
Proof.
  intros H. apply main_loop_split in H as (ps & Hps & Hfeed).
  exists ps. destruct (read_packets_step _ _ _ _ Hps) as [Hlen Hstep].
  split_and!; try done.
  - intros j h d p q p0 Hc Hp Hq Hp0.
    eapply read_next_packet_flow_of; [by eapply Hstep|done|done].
  - intros i j p q Hij. revert q. induction Hij as [|j Hij IH]; intros q Hp Hq Hsome.
    + by simplify_eq.
    + assert (is_Some (ps !! j)) as [p' Hp'].
      { apply lookup_lt_is_Some. apply lookup_lt_Some in Hq. lia. }
      assert (is_Some (caps !! S j)) as [[h d] Hc].
      { apply lookup_lt_is_Some. apply lookup_lt_Some in Hq. lia. }
      eapply read_next_packet_flow_some; [by eapply (Hstep (S j))|].
      by apply IH.
Qed.

Lemma main_loop_stale_flows_witness :
  ∃ ps,
    Reader.read_packets false demo_captures Reader.packet_init = Ok ps ∧
    Stats.feed_packets ps (Stats.ctor 10) = Ok (fst demo_main, snd demo_main) ∧
    length ps = length demo_captures ∧
    (∀ j h d p q p0,
       demo_captures !! j = Some (h, d) →
       (Reader.packet_init :: ps) !! j = Some p → ps !! j = Some q →
       Reader.read_next_packet false h d Reader.packet_init = Ok p0 →
       Net.flow q = match Net.flow p0 with
                    | Some f => Some f
                    | None => Net.flow p
                    end) ∧
    (∀ i j p q, i ≤ j → ps !! i = Some p → ps !! j = Some q →
                is_Some (Net.flow p) → is_Some (Net.flow q)).
Proof.
  apply (main_loop_stale_flows false demo_captures 10 (fst demo_main) (snd demo_main)).
  vm_compute. reflexivity.
Defined.

Lemma at_Err {A} (v : list A) i f :
  at_ v i = Err f → f = OutOfBounds i (length v) ∧ length v ≤ N.to_nat i.
Proof.
  unfold at_. destruct (v !! N.to_nat i) eqn:E; [done|]. intros [= <-].
  split; [done|]. by apply lookup_ge_None.
Qed.

Lemma at_Ok {A} (v : list A) i x : at_ v i = Ok x → N.to_nat i < length v.
Proof.
  unfold at_. destruct (v !! N.to_nat i) eqn:E; [|done]. intros _.
  by eapply lookup_lt_Some.
Qed.


Ltac reader_consts :=
  unfold Reader.sizeof_ether_hdr_t, Reader.sizeof_vlan_hdr_t,
    Reader.sizeof_ipv4_hdr_t, Reader.sizeof_tcp_hdr_t, Reader.sizeof_udp_hdr_t,
    Reader.sizeof_u16, Reader.ETHERTYPE_IP, Reader.ETHERTYPE_VLAN,
    Reader.IPPROTO_TCP, Reader.IPPROTO_UDP, Reader.CRC_SIZE_BYTES in *.

Ltac reader_unfold :=
  unfold Reader.read_next_packet, Reader.read_u8, Reader.read_u16,
    Reader.read_u32 in *;
  cbv zeta in *; unfold mbind, result_bind in *.

(** X25. No check of the captured length. [read_next_packet] reads the
    headers at their offsets in the captured bytes without looking at
    [caplen]: every read is below offset 42, and a fault other than the
    overflow of the time is a read at or beyond the end of the captured
    bytes. *)
Theorem read_next_packet_faults assume_ip header data read_data f :
  Reader.read_next_packet assume_ip header data read_data = Err f →
  f = SignedOverflow ∨
  ∃ i, f = OutOfBounds i (length data) ∧ length data ≤ N.to_nat i < 42.
Proof.
  intros H. reader_unfold. unfold i64_mul, i64_add in H. cbv zeta in H.
  reader_cases; try (by left); right;
    repeat match goal with
    | H : at_ _ _ = Err _ |- _ => apply at_Err in H as [-> ?]
    | H : at_ _ _ = Ok _ |- _ => apply at_Ok in H
    end; eexists; (split; [done|]); reader_consts; lia.
Qed.

Lemma read_next_packet_faults_witness :
  OutOfBounds 34 34 = SignedOverflow ∨
  ∃ i, OutOfBounds 34 34 = OutOfBounds i (length (take 34 demo_tcp_frame)) ∧
       length (take 34 demo_tcp_frame) ≤ N.to_nat i < 42.
Proof.
  apply (read_next_packet_faults false
           {| Reader.tv_sec := 1; Reader.tv_usec := 0; Reader.caplen := 34;
              Reader.len := 54 |} (take 34 demo_tcp_frame) Reader.packet_init).
  vm_compute. reflexivity.
Defined.










(** X29. Where a new flow is read from, and the bytes counted. When
    [read_next_packet] sets a flow, its addresses and ports are the
    little-endian values of the bytes at fixed offsets: the transport header
    is taken to start 20 bytes after the start of the IPv4 header, which is
    at offset 0 under [assume_ip], at 14 in an Ethernet frame and at 18
    behind a VLAN tag. [hdrs_len] is the offset of the end of a TCP header of
    20 bytes or of a UDP header, but behind a VLAN tag it is 2 more. *)
Theorem read_next_packet_flow_offsets assume_ip header data read_data p f :
  Reader.read_next_packet assume_ip header data read_data = Ok p →
  Net.flow read_data = None → Net.flow p = Some f →
  ∃ (tagged : bool) (sz : N),
    let tp := (if assume_ip then 20 else if tagged then 38 else 34)%N in
    (tagged = true ↔
       assume_ip = false ∧
       ∃ et, Reader.read_u16 data 12 = Ok et ∧
             Reader.ntohs et = Reader.ETHERTYPE_VLAN) ∧
    type f = FiveTuple ∧
    Reader.read_u32 data (tp - 8) = Ok (src_ip f) ∧
    Reader.read_u32 data (tp - 4) = Ok (dst_ip f) ∧
    Reader.read_u16 data tp = Ok (src_port f) ∧
    Reader.read_u16 data (tp + 2) = Ok (dst_port f) ∧
    (sz = 20 ∨ sz = 8)%N ∧
    Net.hdrs_len p = (tp + sz + if tagged then 2 else 0)%N.
Proof.
  intros H Hnone Hf. unfold Reader.read_next_packet in H. cbv zeta in H.
  unfold mbind, result_bind in H.
  reader_cases; cbn in Hf; try congruence; simplify_eq.
  all: match goal with
       | H : (Reader.ntohs _ =? Reader.ETHERTYPE_VLAN)%N = true |- _ =>
           exists true
       | _ => exists false
       end.
  all: match goal with
       | H : (_ =? Reader.IPPROTO_TCP)%N = true |- _ => exists 20%N
       | _ => exists 8%N
       end.
  all: cbv zeta; cbn [type src_ip dst_ip src_port dst_port Net.hdrs_len].
  all: split_and!; try done; try (by left); try (by right).
  all: try (split; [done|intros [? ?]; done]).
  all: split;
    [ first [done|intros _; split; [done|]; eexists; split; [done|];
                  by apply N.eqb_eq]
    | first [done|intros [_ (et & [= <-] & E)]; apply N.eqb_eq in E;
                  congruence] ].
Qed.

Lemma read_next_packet_flow_offsets_witness :
  ∃ (tagged : bool) (sz : N),
    let tp := (if false then 20 else if tagged then 38 else 34)%N in
    (tagged = true ↔
       false = false ∧
       ∃ et, Reader.read_u16 demo_tcp_frame 12 = Ok et ∧
             Reader.ntohs et = Reader.ETHERTYPE_VLAN) ∧
    type {| type := FiveTuple; src_ip := 16777226; dst_ip := 33554442;
            src_port := 53764; dst_port := 20480 |} = FiveTuple ∧
    Reader.read_u32 demo_tcp_frame (tp - 8)
      = Ok (src_ip {| type := FiveTuple; src_ip := 16777226; dst_ip := 33554442;
                      src_port := 53764; dst_port := 20480 |}) ∧
    Reader.read_u32 demo_tcp_frame (tp - 4)
      = Ok (dst_ip {| type := FiveTuple; src_ip := 16777226; dst_ip := 33554442;
                      src_port := 53764; dst_port := 20480 |}) ∧
    Reader.read_u16 demo_tcp_frame tp
      = Ok (src_port {| type := FiveTuple; src_ip := 16777226; dst_ip := 33554442;
                        src_port := 53764; dst_port := 20480 |}) ∧
    Reader.read_u16 demo_tcp_frame (tp + 2)
      = Ok (dst_port {| type := FiveTuple; src_ip := 16777226; dst_ip := 33554442;
                        src_port := 53764; dst_port := 20480 |}) ∧
    (sz = 20 ∨ sz = 8)%N ∧
    Net.hdrs_len (default Reader.packet_init (head demo_read))
      = (tp + sz + if tagged then 2 else 0)%N.
Proof.
  apply (read_next_packet_flow_offsets false
           {| Reader.tv_sec := 1; Reader.tv_usec := 0; Reader.caplen := 54;
              Reader.len := 54 |} demo_tcp_frame Reader.packet_init
           (default Reader.packet_init (head demo_read))
           {| type := FiveTuple; src_ip := 16777226; dst_ip := 33554442;
              src_port := 53764; dst_port := 20480 |}).
  - vm_compute. reflexivity.
  - reflexivity.
  - vm_compute. reflexivity.
Defined.

(** ** The report generated *)

Lemma sum_N_perm l l' : l ≡ₚ l' → sum_N l = sum_N l'.
Proof.
  unfold sum_N. induction 1 as [|x l l' _ IH|x y l|l l' l'' _ IH1 _ IH2]; cbn;
    [done|by rewrite IH|lia|by rewrite IH1].
Qed.

Lemma mod_add_cancel_r a b c :
  ((a + c) mod U64_MOD = (b + c) mod U64_MOD)%N →
  (a mod U64_MOD = b mod U64_MOD)%N.
Proof.
  intros H. apply N2Z.inj. rewrite !N2Z.inj_mod.
  apply (f_equal Z.of_N) in H. rewrite !N2Z.inj_mod, !N2Z.inj_add in H.
  replace (Z.of_N a) with (Z.of_N a + Z.of_N c - Z.of_N c)%Z by lia.
  rewrite <-(Zminus_mod_idemp_l (Z.of_N a + Z.of_N c)), H.
  rewrite Zminus_mod_idemp_l. f_equal. lia.
Qed.

Lemma sum_values_insert (m : gmap flow_t N) k v :
  (sum_N (map_to_list (<[k:=v]> m)).*2 + default 0 (m !! k)
   = sum_N (map_to_list m).*2 + v)%N.
Proof.
  destruct (m !! k) as [x|] eqn:Hk; cbn.
  - rewrite <-(insert_delete_id m k x) at 2 by done.
    rewrite <-(insert_delete_eq m).
    rewrite !(sum_N_perm _ _ (fmap_Permutation snd _ _
               (map_to_list_insert _ _ _ (lookup_delete_eq m k)))).
    cbn. unfold sum_N. cbn. lia.
  - rewrite (sum_N_perm _ _ (fmap_Permutation snd _ _
               (map_to_list_insert _ _ _ Hk))).
    unfold sum_N. cbn. lia.
Qed.

Lemma sum_values_u64_add (m : gmap flow_t N) k n :
  (sum_N (map_to_list (<[k:=u64_add (default 0 (m !! k)) n]> m)).*2 mod U64_MOD
   = (sum_N (map_to_list m).*2 + n) mod U64_MOD)%N.
Proof.
  apply (mod_add_cancel_r _ _ (default 0%N (m !! k))).
  rewrite sum_values_insert. unfold u64_add.
  rewrite N.Div0.add_mod_idemp_r. f_equal. lia.
Qed.

Lemma cdf_add_all_total l c :
  (Cdf.total c < U64_MOD)%N →
  Cdf.total (Cdf.add_all l c) = ((Cdf.total c + sum_N l.*2) mod U64_MOD)%N.
Proof.
  intros Hc. induction l as [|p l IH] using rev_ind.
  - cbn. rewrite N.add_0_r. by rewrite N.mod_small.
  - rewrite cdf_add_all_snoc. cbn. rewrite IH, u64_add_mod_l.
    rewrite fmap_app, sum_N_app. cbn. f_equal. lia.
Qed.

Lemma cdf_adds_total {A} (f : A → N) l c :
  foldl (λ c v, Cdf.add (f v) c) c l = Cdf.add_all ((λ v, (f v, 1%N)) <$> l) c.
Proof.
  revert c. induction l as [|v l IH]; intros c; [done|]. cbn. by rewrite IH.
Qed.

Lemma sum_N_ones {A} (l : list A) (f : A → N) :
  sum_N ((λ v, (f v, 1%N)) <$> l).*2 = N.of_nat (length l).
Proof.
  induction l as [|v l IH]; [done|].
  cbn [fmap list_fmap length snd]. unfold sum_N in *. cbn [foldr].
  rewrite IH. lia.
Qed.

Lemma top_k_loop l1 l2 : length l1 = length l2 →
  ∀ m k c1 c2, k + m = length l1 →
    let ranks := (λ i, u64_add (N.of_nat i) 1) <$> seq k m in
    Stats.for_each (Stats.top_k_step l1 l2) (c1, c2) (seq k m)
    = Ok (Cdf.add_all (zip ranks (drop k l1)) c1,
          Cdf.add_all (zip ranks (drop k l2)) c2).
Proof.
  intros Hlen m. induction m as [|m IH]; intros k c1 c2 Hk ranks; [done|].
  subst ranks. cbn [seq fmap list_fmap Stats.for_each].
  destruct (lookup_lt_is_Some_2 l1 k) as [x Hx]; [lia|].
  destruct (lookup_lt_is_Some_2 l2 k) as [y Hy]; [lia|].
  assert (Stats.top_k_step l1 l2 (c1, c2) k
          = Ok (Cdf.add_count (u64_add (N.of_nat k) 1) x c1,
                Cdf.add_count (u64_add (N.of_nat k) 1) y c2)) as ->.
  { unfold Stats.top_k_step, at_. by rewrite !Nat2N.id, Hx, Hy. }
  rewrite bind_Ok, IH by lia. cbv zeta.
  rewrite (drop_S l1 x k Hx), (drop_S l2 y k Hy). done.
Qed.

Lemma flow_times_loop avg l : ∀ c1 c2,
  (Cdf.total c1 < U64_MOD)%N →
  match Stats.for_each (Stats.flow_times_step avg) (c1, c2) l with
  | Ok cs =>
      Cdf.total cs.1 = ((Cdf.total c1 + N.of_nat (length l)) mod U64_MOD)%N
  | Err f => f = SignedOverflow ∨ ∃ s n, avg s n = Err f
  end.
Proof.
  induction l as [|ts l IH]; intros c1 c2 Hc.
  - cbn. rewrite N.add_0_r. by rewrite N.mod_small.
  - cbn [Stats.for_each].
    destruct (Stats.flow_times_step avg (c1, c2) ts) as [[c1' c2']|f] eqn:Hstep.
    2:{ cbn. unfold Stats.flow_times_step, i64_sub in Hstep. cbv zeta in Hstep.
        case_bool_decide; [|cbn in Hstep; simplify_eq; by left].
        rewrite bind_Ok in Hstep. destruct (Stats.dts ts); [done|].
        destruct (avg _ _) as [a|f'] eqn:Ha; [done|]. cbn in Hstep. simplify_eq.
        right. by eexists _, _. }
    rewrite bind_Ok.
    assert (c1' = Cdf.add (Stats.u64_of_i64 (Stats.last ts - Stats.first ts)
                           / Stats.THOUSAND) c1) as ->.
    { unfold Stats.flow_times_step, i64_sub in Hstep. cbv zeta in Hstep.
      case_bool_decide; [|done]. rewrite bind_Ok in Hstep.
      destruct (Stats.dts ts); [by simplify_eq|].
      destruct (avg _ _); [|done]. cbn in Hstep. by simplify_eq. }
    set (c1' := Cdf.add _ c1).
    assert (Cdf.total c1' < U64_MOD)%N as Hc'.
    { subst c1'. cbn. unfold u64_add. by apply N.mod_lt. }
    assert (((Cdf.total c1' + N.of_nat (length l)) mod U64_MOD
             = (Cdf.total c1 + N.of_nat (length (ts :: l))) mod U64_MOD)%N) as E.
    { subst c1'. cbn. rewrite u64_add_mod_l || unfold u64_add.
      rewrite ?N.Div0.add_mod_idemp_l. f_equal. lia. }
    rewrite <-E. by apply IH.
Qed.

Lemma stats_sums_inv e ps t lines :
  Stats.feed_packets ps (Stats.ctor e) = Ok (t, lines) →
  dom (Stats.pkts_per_flow t) = Stats.flows t ∧
  dom (Stats.bytes_per_flow t) = Stats.flows t ∧
  dom (Stats.flow_times t) = Stats.flows t ∧
  (sum_N (map_to_list (Stats.pkts_per_flow t)).*2 mod U64_MOD)%N
    = Report.tcpudp_pkts (Stats.report t) ∧
  (sum_N (map_to_list (Stats.bytes_per_flow t)).*2 mod U64_MOD)%N
    = (sum_N (Net.total_len <$> filter (λ p, is_Some (Net.flow p)) ps)
       mod U64_MOD)%N ∧
  Report.concurrent_flows_per_epoch (Stats.report t) = Cdf.ctor ∧
  Report.pkts_per_flow_cdf (Stats.report t) = Cdf.ctor ∧
  Report.top_k_flows_cdf (Stats.report t) = Cdf.ctor ∧
  Report.top_k_flows_bytes_cdf (Stats.report t) = Cdf.ctor ∧
  Report.flow_duration_us_cdf (Stats.report t) = Cdf.ctor.
Proof.
  intros Hrun.
  pattern ps, t. eapply feed_packets_ind; [| |exact Hrun]; cbv beta; clear.
  - cbn. rewrite !dom_empty_L, !map_to_list_empty. by cbn.
  - intros ps p t t' line (H1 & H2 & H3 & H4 & H5 & H6) Hp.
    rewrite filter_app, fmap_app, sum_N_app.
    destruct (Net.flow p) as [g|] eqn:Hg.
    + destruct (feed_packet_flow _ _ _ _ _ Hg Hp)
        as (b & ep & _ & _ & _ & Hnote & -> & _ & -> & -> & ->).
      rewrite filter_cons_True by (by rewrite Hg). rewrite filter_nil.
      rewrite !dom_insert_L, H1, H2, !sum_values_u64_add.
      split_and!; try done; try (cbn; apply H6).
      * unfold Stats.note_time in Hnote.
        destruct (Stats.flow_times t !! g).
        -- apply bind_Ok_inv in Hnote as (dt & _ & Hnote).
           injection Hnote as <-. by rewrite dom_insert_L, H3.
        -- injection Hnote as <-. by rewrite dom_insert_L, H3.
      * cbn. rewrite <-H4, u64_add_mod_l. done.
      * cbn. rewrite <-N.Div0.add_mod_idemp_l, H5, N.Div0.add_mod_idemp_l.
        f_equal. unfold sum_N. cbn. lia.
    + destruct (feed_packet_no_flow _ _ _ _ Hg Hp)
        as (_ & _ & -> & _ & _ & -> & -> & -> & ->).
      rewrite filter_cons_False by (rewrite Hg; by intros [? ?]).
      rewrite filter_nil. cbn. rewrite N.add_0_r. done.
Qed.

Lemma snd_zip_ranks (ranks l : list N) :
  length l ≤ length ranks → (zip ranks l).*2 = l.
Proof. intros H. by apply snd_zip. Qed.

(** X30. The report after a capture. On the tracker reached by any run of
    [feed_packet], whatever the division as [double] gives: the [assert] on
    the two vectors holds and no subscript leaves them, so that
    [generate_report] can only end in the overflow of a difference of times
    or in a fault of that division. When it returns, [total_flows] is the
    number of flows; the histograms of the epochs, of the packets per flow
    and of the durations have counted one value per epoch and per flow;
    and the totals of the two top-k histograms are the number of packets
    with a flow and the sum of their [total_len], modulo 2^64. *)
Theorem generate_report_totals avg e ps t lines :
  Stats.feed_packets ps (Stats.ctor e) = Ok (t, lines) →
  (∀ f, Stats.generate_report avg t = Err f →
        f = SignedOverflow ∨ ∃ s n, avg s n = Err f) ∧
  (∀ t', Stats.generate_report avg t = Ok t' →
     Report.total_flows (Stats.report t') = N.of_nat (size (Stats.flows t)) ∧
     Report.total_symm_flows (Stats.report t')
       = N.of_nat (length (Stats.symm_flows t)) ∧
     Cdf.total (Report.concurrent_flows_per_epoch (Stats.report t'))
       = (N.of_nat (length (Stats.concurrent_flows_per_epoch t)) mod U64_MOD)%N ∧
     Cdf.total (Report.pkts_per_flow_cdf (Stats.report t'))
       = (N.of_nat (size (Stats.flows t)) mod U64_MOD)%N ∧
     Cdf.total (Report.flow_duration_us_cdf (Stats.report t'))
       = (N.of_nat (size (Stats.flows t)) mod U64_MOD)%N ∧
     Cdf.total (Report.top_k_flows_cdf (Stats.report t'))
       = Report.tcpudp_pkts (Stats.report t') ∧
     Cdf.total (Report.top_k_flows_bytes_cdf (Stats.report t'))
       = (sum_N (Net.total_len <$> filter (λ p, is_Some (Net.flow p)) ps)
          mod U64_MOD)%N).
Proof.
  intros Hrun.
  destruct (stats_sums_inv _ _ _ _ Hrun)
    as (D1 & D2 & D3 & S1 & S2 & C1 & C2 & C3 & C4 & C5).
  assert (length (map_to_list (Stats.pkts_per_flow t)).*2 = size (Stats.flows t)) as L1.
  { by rewrite length_fmap, length_map_to_list, <-size_dom, D1. }
  assert (length (map_to_list (Stats.bytes_per_flow t)).*2 = size (Stats.flows t)) as L2.
  { by rewrite length_fmap, length_map_to_list, <-size_dom, D2. }
  assert (length (map_to_list (Stats.flow_times t)).*2 = size (Stats.flows t)) as L3.
  { by rewrite length_fmap, length_map_to_list, <-size_dom, D3. }
  assert (Cdf.total Cdf.ctor < U64_MOD)%N as Hz by (by cbn).
  unfold Stats.generate_report. cbv zeta.
  rewrite L1, L2, Nat.eqb_refl. cbn [negb].
  set (pkts := merge_sort Stats.descending (map_to_list (Stats.pkts_per_flow t)).*2).
  set (bytes := merge_sort Stats.descending (map_to_list (Stats.bytes_per_flow t)).*2).
  assert (length pkts = size (Stats.flows t)) as P1
    by (subst pkts; by rewrite merge_sort_Permutation).
  assert (length bytes = size (Stats.flows t)) as P2
    by (subst bytes; by rewrite merge_sort_Permutation).
  rewrite (top_k_loop pkts bytes) by (rewrite ?P1, ?P2; lia). cbv zeta.
  rewrite bind_Ok, !drop_0.
  pose proof (flow_times_loop avg (map_to_list (Stats.flow_times t)).*2
    (Report.flow_duration_us_cdf (Stats.report t))
    (Report.flow_dts_us_cdf (Stats.report t))) as Hloop.
  specialize (Hloop ltac:(by rewrite C5)).
  destruct (Stats.for_each (Stats.flow_times_step avg) _ _) as [times|f'] eqn:Ht.
  2:{ split; [intros f Hf|intros t' Hf]; cbn [mbind result_bind] in Hf;
        by simplify_eq. }
  rewrite bind_Ok. split; [done|]. intros t' [= <-]. cbn [Stats.report Report.total_flows Report.total_symm_flows Report.concurrent_flows_per_epoch Report.pkts_per_flow_cdf Report.flow_duration_us_cdf Report.top_k_flows_cdf Report.top_k_flows_bytes_cdf Report.tcpudp_pkts fst snd].
  rewrite C1, C2, C3, C4, (cdf_adds_total (λ v, v)),
    (cdf_adds_total (λ flows : gset flow_t, N.of_nat (size flows))),
    !cdf_add_all_total by done.
  rewrite (sum_N_ones _ (λ v, v)), sum_N_ones, length_fmap, length_map_to_list,
    <-size_dom, D1. cbn [Cdf.total Cdf.ctor]. rewrite !N.add_0_l.
  rewrite !snd_zip_ranks by (rewrite ?P1, ?P2, length_fmap, length_seq; lia).
  split_and!; try done.
  - rewrite C5, L3 in Hloop. by rewrite Hloop.
  - rewrite <-S1. f_equal. apply sum_N_perm. subst pkts.
    by rewrite merge_sort_Permutation.
  - rewrite <-S2. f_equal. apply sum_N_perm. subst bytes.
    by rewrite merge_sort_Permutation.
Qed.

Lemma generate_report_totals_witness :
  (∀ f, Stats.generate_report (λ s n, Ok (Z.to_N (s / Z.of_nat n))) (fst demo_stats)
        = Err f →
        f = SignedOverflow ∨
        ∃ s n, (λ s n, Ok (Z.to_N (s / Z.of_nat n))) s n = Err f) ∧
  (∀ t', Stats.generate_report (λ s n, Ok (Z.to_N (s / Z.of_nat n))) (fst demo_stats)
         = Ok t' →
     Report.total_flows (Stats.report t')
       = N.of_nat (size (Stats.flows (fst demo_stats))) ∧
     Report.total_symm_flows (Stats.report t')
       = N.of_nat (length (Stats.symm_flows (fst demo_stats))) ∧
     Cdf.total (Report.concurrent_flows_per_epoch (Stats.report t'))
       = (N.of_nat (length (Stats.concurrent_flows_per_epoch (fst demo_stats)))
          mod U64_MOD)%N ∧
     Cdf.total (Report.pkts_per_flow_cdf (Stats.report t'))
       = (N.of_nat (size (Stats.flows (fst demo_stats))) mod U64_MOD)%N ∧
     Cdf.total (Report.flow_duration_us_cdf (Stats.report t'))
       = (N.of_nat (size (Stats.flows (fst demo_stats))) mod U64_MOD)%N ∧
     Cdf.total (Report.top_k_flows_cdf (Stats.report t'))
       = Report.tcpudp_pkts (Stats.report t') ∧
     Cdf.total (Report.top_k_flows_bytes_cdf (Stats.report t'))
       = (sum_N (Net.total_len <$>
                 filter (λ p, is_Some (Net.flow p)) demo_packets)
          mod U64_MOD)%N).
Proof.
  apply (generate_report_totals (λ s n, Ok (Z.to_N (s / Z.of_nat n))) 10
           demo_packets (fst demo_stats) (snd demo_stats)).
  vm_compute. reflexivity.
Defined.
